(** * Schema repair, edge resolution and layered layout of the blueprint graph

    A shallow embedding of three pure stages of the editor:

    - [ensureDefaultPins]: the schema normalizer applied to every raw node that
      the generator returns;
    - [validEdges]: the edge resolver that binds every raw edge to pins of the
      normalized nodes, or drops it;
    - [getLayoutedElements]: the layered layout (rank assignment by queue
      relaxation, barycenter ordering, collision stacking).

    Conventions of the embedding.

    - A JSON field that may be missing is an [option]; the [id], [name] and
      [type] of a pin are strings, a missing one being the empty string (the
      code only ever compares these fields with non-empty literals or tests
      them for truthiness, and both [undefined] and the empty string are
      falsy and differ from every non-empty literal).
    - JavaScript numbers are doubles.  Ranks and column offsets are integers
      ([Z]), on which doubles are exact below 2^53.  Heights are rationals
      ([Q]), and every sum, difference and quotient of heights is rounded to
      the nearest double ([Double.round]: 53 significant bits, ties to even);
      overflow and subnormal numbers, which no height reaches, are left out.
    - Plain objects used as dictionaries ([adjacency], [ranks], [rankMap],
      [positions]) are finite maps of their own keys.  A plain object also
      answers for the names it inherits from [Object.prototype]; the
      statements about the layout therefore ask for [plainKeys]: no id of a
      node and no end of an edge is such a name.
    - The [while] loop of the rank assignment takes fuel; [None] means that
      the fuel ran out before the queue was empty. *)

From Stdlib Require Import String Ascii List ZArith QArith Lia Lqa Bool.
From Stdlib Require Import Qround Qpower.
From Stdlib Require Import DecimalString DecimalNat DecimalFacts.
From stdpp Require Import base option list gmap strings.

Local Open Scope string_scope.
Local Open Scope list_scope.

(** ** String helpers of the host language *)

Module JS.

(** [s.startsWith(p)] *)
Definition startsWith (p s : string) : bool := String.prefix p s.

(** [s.includes(p)] *)
Fixpoint includes (p s : string) : bool :=
  String.prefix p s ||
  match s with
  | EmptyString => false
  | String _ s' => includes p s'
  end.

Definition lowerAscii (c : ascii) : ascii :=
  let n := nat_of_ascii c in
  if (65 <=? n)%nat && (n <=? 90)%nat then ascii_of_nat (n + 32) else c.

(** [s.toLowerCase()] on the ASCII letters.  No character outside ASCII
    lower-cases to one of the letters of the tokens searched below, so the
    searches agree with the host's. *)
Fixpoint toLowerCase (s : string) : string :=
  match s with
  | EmptyString => EmptyString
  | String c s' => String (lowerAscii c) (toLowerCase s')
  end.

(** Truthiness of an optional string: present and not empty. *)
Definition truthy (o : option string) : bool :=
  match o with
  | Some s => negb (String.eqb s "")
  | None => false
  end.

(** [o || d] on an optional string. *)
Definition orElse (o : option string) (d : string) : string :=
  match o with
  | Some s => if String.eqb s "" then d else s
  | None => d
  end.

(** Decimal rendering of an array index inside a template literal. *)
Definition ofIndex (n : nat) : string := NilZero.string_of_uint (Nat.to_uint n).

End JS.

(** ** Data model *)

(** A pin as it arrives from the generator.  The type is kept as the string
    that the code compares with ['exec'] and ['boolean']. *)
Record Pin := mkPinDefinition {
  pin_id : string;
  pin_name : string;
  pin_type : string;
  pin_isOutput : option bool;
  pin_defaultValue : option string;
  pin_value : option string
}.

(** The object literal [{ id, name, type }]. *)
Definition mkPin (id name type : string) : Pin :=
  mkPinDefinition id name type None None None.

(** A raw node of the parsed response. *)
Record RawNode := mkRawNodeObject {
  node_id : string;
  node_label : option string;
  node_nodeType : option string;
  node_inputs : option (list Pin);
  node_outputs : option (list Pin);
  node_comment : option string
}.

(** A raw node without a comment. *)
Definition mkRawNode (id : string) (label nodeType : option string)
    (inputs outputs : option (list Pin)) : RawNode :=
  mkRawNodeObject id label nodeType inputs outputs None.

(** [pins.some(p => p.type === t)] and [pins.some(p => p.name === n)] *)
Definition someType (t : string) (pins : list Pin) : bool :=
  existsb (fun p => String.eqb (pin_type p) t) pins.

Definition someName (n : string) (pins : list Pin) : bool :=
  existsb (fun p => String.eqb (pin_name p) n) pins.

(** [type === t] for the optional [nodeType] field. *)
Definition typeIs (ty : option string) (t : string) : bool :=
  match ty with
  | Some s => String.eqb s t
  | None => false
  end.

(** ** The schema normalizer *)

Section Normalizer.

Definition labelOf (node : RawNode) : string := JS.orElse (node_label node) "".
Definition inputsOf (node : RawNode) : list Pin := default [] (node_inputs node).
Definition outputsOf (node : RawNode) : list Pin := default [] (node_outputs node).

Definition withPins (node : RawNode) (ins outs : list Pin) : RawNode :=
  {| node_id := node_id node;
     node_label := node_label node;
     node_nodeType := node_nodeType node;
     node_inputs := Some ins;
     node_outputs := Some outs;
     node_comment := node_comment node |}.

Definition isLikelyPure (node : RawNode) : bool :=
  let label := labelOf node in
  typeIs (node_nodeType node) "variable_get" ||
  JS.startsWith "Get " label ||
  JS.startsWith "Make " label ||
  JS.startsWith "Break " label ||
  JS.startsWith "Is " label ||
  JS.startsWith "Find " label ||
  JS.startsWith "Select " label ||
  JS.includes "Math" label ||
  JS.includes "+" label ||
  JS.includes "-" label.

(** The pins a rule may inject; ids follow [`${node.id}_Name`]. *)
Definition injected (node : RawNode) (suffix name type : string) : Pin :=
  mkPin (node_id node +:+ "_" +:+ suffix) name type.

(** [if (!pins.some(p => p.type === 'exec')) pins.unshift(pin)] *)
Definition unshiftUnlessType (t : string) (pin : Pin) (pins : list Pin) : list Pin :=
  if someType t pins then pins else pin :: pins.

(** [if (!pins.some(p => p.type === t)) pins.push(pin)] *)
Definition pushUnlessType (t : string) (pin : Pin) (pins : list Pin) : list Pin :=
  if someType t pins then pins else pins ++ [pin].

(** [if (!pins.some(p => p.name === n)) pins.push(pin)] *)
Definition pushUnlessName (n : string) (pin : Pin) (pins : list Pin) : list Pin :=
  if someName n pins then pins else pins ++ [pin].

Definition execIn (node : RawNode) : Pin := injected node "Exec" "Exec" "exec".
Definition execOut (node : RawNode) : Pin := injected node "Output" "Output" "exec".

(** 1. BRANCH / IF *)
Definition repairBranch (node : RawNode) : RawNode :=
  let ins := unshiftUnlessType "exec" (execIn node) (inputsOf node) in
  let ins := pushUnlessType "boolean" (injected node "Condition" "Condition" "boolean") ins in
  let outs := pushUnlessName "True" (injected node "True" "True" "exec") (outputsOf node) in
  let outs := pushUnlessName "False" (injected node "False" "False" "exec") outs in
  withPins node ins outs.

(** 2. EVENTS *)
Definition repairEvent (node : RawNode) : RawNode :=
  withPins node (inputsOf node)
    (unshiftUnlessType "exec" (execOut node) (outputsOf node)).

(** 3. SEQUENCE *)
Definition repairSequence (node : RawNode) : RawNode :=
  let ins := unshiftUnlessType "exec" (execIn node) (inputsOf node) in
  let outs := outputsOf node in
  let outs :=
    if (length outs <? 2)%nat
    then (outs ++ [injected node "Then0" "Then 0" "exec"])
           ++ [injected node "Then1" "Then 1" "exec"]
    else outs in
  withPins node ins outs.

(** 4. SET VARIABLE, and 7. GENERIC EXECUTION NODES (same repair) *)
Definition repairExec (node : RawNode) : RawNode :=
  withPins node
    (unshiftUnlessType "exec" (execIn node) (inputsOf node))
    (unshiftUnlessType "exec" (execOut node) (outputsOf node)).

(** 5. GET VARIABLE *)
Definition repairVariableGet (node : RawNode) : RawNode :=
  let ins := inputsOf node in
  let outs := outputsOf node in
  let '(ins, outs) :=
    if (0 <? length ins)%nat && (length outs =? 0)%nat
    then ([], ins) else (ins, outs) in
  let outs :=
    if (length outs =? 0)%nat
    then outs ++ [injected node "Value" "Value" "boolean"]
    else outs in
  withPins node ins outs.

(** 6. FOR LOOP *)
Definition repairForLoop (node : RawNode) : RawNode :=
  let ins := unshiftUnlessType "exec" (execIn node) (inputsOf node) in
  let outs := pushUnlessName "Loop Body" (injected node "LoopBody" "Loop Body" "exec") (outputsOf node) in
  let outs := pushUnlessName "Completed" (injected node "Completed" "Completed" "exec") outs in
  withPins node ins outs.

(** No rule fires: only the two defaults [node.inputs = []], [node.outputs = []]. *)
Definition repairNone (node : RawNode) : RawNode :=
  withPins node (inputsOf node) (outputsOf node).

(** The guards of the seven [if] statements, in the order of the source. *)
Definition isBranch (node : RawNode) : bool :=
  String.eqb (labelOf node) "Branch" || String.eqb (labelOf node) "If".

Definition isEvent (node : RawNode) : bool :=
  typeIs (node_nodeType node) "event" ||
  JS.startsWith "Event" (labelOf node) ||
  JS.startsWith "On " (labelOf node) ||
  JS.startsWith "Input" (labelOf node).

Definition isSequence (node : RawNode) : bool := String.eqb (labelOf node) "Sequence".

Definition isVariableSet (node : RawNode) : bool :=
  typeIs (node_nodeType node) "variable_set" || JS.startsWith "Set " (labelOf node).

Definition isVariableGet (node : RawNode) : bool :=
  typeIs (node_nodeType node) "variable_get".

Definition isForLoop (node : RawNode) : bool :=
  String.eqb (labelOf node) "For Loop" || String.eqb (labelOf node) "ForEach Loop".

Definition isGenericExec (node : RawNode) : bool :=
  negb (isLikelyPure node) &&
  negb (typeIs (node_nodeType node) "comment") &&
  negb (typeIs (node_nodeType node) "variable_get").

Definition ensureDefaultPins (node : RawNode) : RawNode :=
  if isBranch node then repairBranch node
  else if isEvent node then repairEvent node
  else if isSequence node then repairSequence node
  else if isVariableSet node then repairExec node
  else if isVariableGet node then repairVariableGet node
  else if isForLoop node then repairForLoop node
  else if isGenericExec node then repairExec node
  else repairNone node.

(** The category a node is classified into: the first guard that holds. *)
Inductive Category :=
| Branch | Event | Sequence | VariableSet | VariableGet | ForLoop
| GenericImpure | GenericPure.

Definition classify (node : RawNode) : Category :=
  if isBranch node then Branch
  else if isEvent node then Event
  else if isSequence node then Sequence
  else if isVariableSet node then VariableSet
  else if isVariableGet node then VariableGet
  else if isForLoop node then ForLoop
  else if isGenericExec node then GenericImpure
  else GenericPure.

Definition repair (c : Category) : RawNode -> RawNode :=
  match c with
  | Branch => repairBranch
  | Event => repairEvent
  | Sequence => repairSequence
  | VariableSet => repairExec
  | VariableGet => repairVariableGet
  | ForLoop => repairForLoop
  | GenericImpure => repairExec
  | GenericPure => repairNone
  end.

End Normalizer.

Definition isExec (p : Pin) : bool := String.eqb (pin_type p) "exec".

Definition execCount (pins : list Pin) : nat := length (List.filter isExec pins).

(** ** Positioned nodes and resolved edges *)

Record Position := mkPosition { pos_x : Q; pos_y : Q }.

Record NodeData := mkNodeData {
  data_label : option string;
  data_nodeType : option string;
  data_inputs : list Pin;
  data_outputs : list Pin;
  data_comment : option string
}.

(** The sides of a node on which its handles may sit. *)
Inductive HandlePosition := PositionLeft | PositionTop | PositionRight | PositionBottom.

Record BPNode := mkBPNode {
  bp_id : string;
  bp_type : option string;
  bp_position : Position;
  bp_data : NodeData;
  bp_targetPosition : option HandlePosition;
  bp_sourcePosition : option HandlePosition
}.

Record RawEdge := mkRawEdge {
  raw_id : option string;
  raw_source : string;
  raw_target : string;
  raw_sourceHandle : option string;
  raw_targetHandle : option string
}.

Record BPEdge := mkBPEdge {
  e_id : string;
  e_source : string;
  e_target : string;
  e_sourceHandle : string;
  e_targetHandle : string
}.

(** ** The edge resolver (the two [map] calls of [generateBlueprint]) *)

Section Resolver.

(** [parsed.nodes.map(node => ...)] *)
Definition transformNode (node : RawNode) : BPNode :=
  let enrichedNode := ensureDefaultPins node in
  {| bp_id := node_id enrichedNode;
     bp_type := Some "customBlueprintNode";
     bp_position := mkPosition 0 0;
     bp_data :=
       {| data_label := node_label enrichedNode;
          data_nodeType := node_nodeType enrichedNode;
          data_inputs := default [] (node_inputs enrichedNode);
          data_outputs := default [] (node_outputs enrichedNode);
          data_comment := node_comment enrichedNode |};
     bp_targetPosition := None;
     bp_sourcePosition := None |}.

Definition transformedNodes (nodes : list RawNode) : list BPNode :=
  map transformNode nodes.

Definition findNode (nodes : list BPNode) (id : string) : option BPNode :=
  List.find (fun n => String.eqb (bp_id n) id) nodes.

(** [handle ? String(handle).toLowerCase() : ""] *)
Definition handleStr (handle : option string) : string :=
  if JS.truthy handle then JS.toLowerCase (default "" handle) else "".

(** [handle && pins.some(p => p.id === handle)] *)
Definition pinExists (handle : option string) (pins : list Pin) : bool :=
  JS.truthy handle &&
  existsb (fun p => String.eqb (pin_id p) (default "" handle)) pins.

Definition isExecLikeSource (handle : option string) : bool :=
  let s := handleStr handle in
  negb (JS.truthy handle) ||
  JS.includes "exec" s || JS.includes "then" s ||
  JS.includes "true" s || JS.includes "out" s.

Definition isExecLikeTarget (handle : option string) : bool :=
  negb (JS.truthy handle) || JS.includes "exec" (handleStr handle).

(** [if (pins.length > 0) handle = pins[0].id] *)
Definition firstPin (handle : option string) (pins : list Pin) : option string :=
  match pins with
  | p :: _ => Some (pin_id p)
  | [] => handle
  end.

(** The fallback taken when the declared handle names no pin. *)
Definition fallback (execLike : bool) (handle : option string) (pins : list Pin)
  : option string :=
  if execLike then
    match List.find isExec pins with
    | Some execPin => Some (pin_id execPin)
    | None => firstPin handle pins
    end
  else firstPin handle pins.

Definition finalSourceHandle (edge : RawEdge) (sourceNode : BPNode) : option string :=
  let handle := raw_sourceHandle edge in
  let pins := data_outputs (bp_data sourceNode) in
  if pinExists handle pins then handle
  else fallback (isExecLikeSource handle) handle pins.

Definition finalTargetHandle (edge : RawEdge) (targetNode : BPNode) : option string :=
  let handle := raw_targetHandle edge in
  let pins := data_inputs (bp_data targetNode) in
  if pinExists handle pins then handle
  else fallback (isExecLikeTarget handle) handle pins.

(** [edge.id || `e_${edge.source}_${edge.target}_${index}`] *)
Definition edgeId (index : nat) (edge : RawEdge) : string :=
  JS.orElse (raw_id edge)
    ("e_" +:+ raw_source edge +:+ "_" +:+ raw_target edge +:+ "_" +:+ JS.ofIndex index).

(** The callback of [parsed.edges.map]; [None] is the [null] that the
    following [filter] removes. *)
Definition resolveEdge (nodes : list BPNode) (index : nat) (edge : RawEdge)
  : option BPEdge :=
  match findNode nodes (raw_source edge), findNode nodes (raw_target edge) with
  | Some sourceNode, Some targetNode =>
      let sh := finalSourceHandle edge sourceNode in
      let th := finalTargetHandle edge targetNode in
      if negb (JS.truthy sh) || negb (JS.truthy th) then None
      else Some {| e_id := edgeId index edge;
                   e_source := raw_source edge;
                   e_target := raw_target edge;
                   e_sourceHandle := default "" sh;
                   e_targetHandle := default "" th |}
  | _, _ => None
  end.

Definition validEdges (nodes : list BPNode) (edges : list RawEdge) : list BPEdge :=
  omap id (imap (resolveEdge nodes) edges).

(** Nodes and edges as [generateBlueprint] returns them. *)
Definition generateBlueprint (nodes : list RawNode) (edges : list RawEdge)
  : list BPNode * list BPEdge :=
  let ns := transformedNodes nodes in
  (ns, validEdges ns edges).

End Resolver.

(** ** The numbers of the host language *)

Module Double.

(** IEEE 754 binary64 arithmetic on the rationals: the result of an operation
    is the exact result rounded to the nearest number with a significand of
    53 bits, a tie going to the even significand.  Overflow, subnormal
    numbers, infinities and NaN are left out. *)

Definition pow2 (e : Z) : Q := (2 ^ e)%Q.

(** The exponent of the binade of a positive number:
    [2^k <= x < 2^(k+1)]. *)
Definition ilog2 (x : Q) : Z :=
  let k := (Z.log2 (Qnum x) - Z.log2 (Zpos (Qden x)))%Z in
  if Qle_bool (pow2 k) x then k else (k - 1)%Z.

(** The nearest integer, a tie going to the even one. *)
Definition nearestEven (z : Q) : Z :=
  let f := Qfloor z in
  match (z - inject_Z f ?= 1 # 2)%Q with
  | Lt => f
  | Gt => (f + 1)%Z
  | Eq => if Z.even f then f else (f + 1)%Z
  end.

(** A positive number rounded to 53 significant bits, in lowest terms. *)
Definition scaled (x : Q) : Q :=
  let e := (ilog2 x - 52)%Z in
  Qred (inject_Z (nearestEven (x / pow2 e)) * pow2 e)%Q.

Definition round (x : Q) : Q :=
  match (x ?= 0)%Q with
  | Eq => 0%Q
  | Gt => scaled x
  | Lt => (- scaled (- x))%Q
  end.

(** [x + y], [x - y] and [x / y] *)
Definition add (x y : Q) : Q := round (x + y).
Definition sub (x y : Q) : Q := round (x - y).
Definition div (x y : Q) : Q := round (x / y).

(** Half the distance from 1 to the next double: the relative error of one
    rounding. *)
Definition epsilon : Q := 1 # 9007199254740992.

End Double.

(** ** The layout engine *)

Section Layout.

Definition RANK_SPACING : Z := 450.
Definition nodeHeight : Q := 150.
Definition gap : Q := 50.
Definition MAX_SAFE_INTEGER : Q := 9007199254740991.

(** The dictionaries [adjacency], [inverseAdjacency], [ranks] and [positions]
    are plain objects.  A plain object has the properties of
    [Object.prototype] besides its own: [ranks["constructor"]] is a function
    and not [undefined], whatever was stored.  The finite maps below hold the
    own keys; a lookup in them is the lookup of the source for every key that
    is none of these names. *)
Definition objectPrototypeNames : list string :=
  ["constructor"; "hasOwnProperty"; "isPrototypeOf"; "propertyIsEnumerable";
   "toLocaleString"; "toString"; "valueOf"; "__proto__";
   "__defineGetter__"; "__defineSetter__"; "__lookupGetter__"; "__lookupSetter__"].

Definition plainKey (k : string) : bool :=
  negb (existsb (String.eqb k) objectPrototypeNames).

(** No id of a node and no end of an edge is an inherited name: on such
    graphs the finite maps and the plain objects answer alike. *)
Definition plainKeys (nodes : list BPNode) (edges : list BPEdge) : bool :=
  forallb (fun n => plainKey (bp_id n)) nodes &&
  forallb (fun e => plainKey (e_source e) && plainKey (e_target e)) edges.

(** Step 1: helper structures. *)

(** [nodes.forEach(n => nodeMap.set(n.id, n))] *)
Definition nodeMapOf (nodes : list BPNode) : gmap string BPNode :=
  foldl (fun m n => <[bp_id n := n]> m) ∅ nodes.

(** [nodes.forEach(n => { adjacency[n.id] = [] })] *)
Definition emptyAdjacency (nodes : list BPNode) : gmap string (list string) :=
  foldl (fun m n => <[bp_id n := []]> m) ∅ nodes.

(** [if (m[k]) m[k].push(v)], for a key [k] with [plainKey k] *)
Definition pushIfPresent (m : gmap string (list string)) (k v : string)
  : gmap string (list string) :=
  match m !! k with
  | Some l => <[k := l ++ [v]]> m
  | None => m
  end.

Definition adjacencyOf (nodes : list BPNode) (edges : list BPEdge)
  : gmap string (list string) :=
  foldl (fun m e => pushIfPresent m (e_source e) (e_target e)) (emptyAdjacency nodes) edges.

Definition inverseAdjacencyOf (nodes : list BPNode) (edges : list BPEdge)
  : gmap string (list string) :=
  foldl (fun m e => pushIfPresent m (e_target e) (e_source e)) (emptyAdjacency nodes) edges.

(** [m[k] || []], for a key [k] with [plainKey k] *)
Definition listAt (m : gmap string (list string)) (k : string) : list string :=
  default [] (m !! k).

(** Step 2: rank assignment. *)

Definition sourcesOf (inverseAdjacency : gmap string (list string)) (nodes : list BPNode)
  : list BPNode :=
  List.filter (fun n => (length (listAt inverseAdjacency (bp_id n)) =? 0)%nat) nodes.

Definition initialQueue (inverseAdjacency : gmap string (list string)) (nodes : list BPNode)
  : list (string * Z) :=
  let queue := map (fun n => (bp_id n, 0%Z)) (sourcesOf inverseAdjacency nodes) in
  match queue, nodes with
  | [], n0 :: _ => [(bp_id n0, 0%Z)]
  | _, _ => queue
  end.

(** [if (ranks[id] === undefined || rank > ranks[id]) ranks[id] = rank], for
    an [id] with [plainKey id] *)
Definition raiseRank (ranks : gmap string Z) (id : string) (rank : Z) : gmap string Z :=
  match ranks !! id with
  | None => <[id := rank]> ranks
  | Some r => if (r <? rank)%Z then <[id := rank]> ranks else ranks
  end.

(** [ranks[target] === undefined || ranks[target] < rank + 1], for a
    [target] with [plainKey target] *)
Definition needsVisit (ranks : gmap string Z) (rank : Z) (target : string) : bool :=
  match ranks !! target with
  | None => true
  | Some r => (r <? rank + 1)%Z
  end.

(** One iteration of the [while] body on a queue with head [(id, rank)]. *)
Definition relax (adjacency : gmap string (list string))
    (id : string) (rank : Z) (queue : list (string * Z)) (ranks : gmap string Z)
  : list (string * Z) * gmap string Z :=
  let ranks := raiseRank ranks id rank in
  let neighbors := listAt adjacency id in
  (queue ++ map (fun target => (target, (rank + 1)%Z))
                (List.filter (needsVisit ranks rank) neighbors),
   ranks).

(** [while (queue.length > 0) { ... }] *)
Fixpoint rankLoop (fuel : nat) (adjacency : gmap string (list string))
    (queue : list (string * Z)) (ranks : gmap string Z) : option (gmap string Z) :=
  match queue with
  | [] => Some ranks
  | (id, rank) :: queue =>
      match fuel with
      | O => None
      | S fuel =>
          let '(queue, ranks) := relax adjacency id rank queue ranks in
          rankLoop fuel adjacency queue ranks
      end
  end.

(** The state after [n] iterations (an empty queue is left as it is). *)
Definition rankStep (adjacency : gmap string (list string))
    (st : list (string * Z) * gmap string Z) : list (string * Z) * gmap string Z :=
  match fst st with
  | [] => st
  | (id, rank) :: queue => relax adjacency id rank queue (snd st)
  end.

Fixpoint rankSteps (n : nat) (adjacency : gmap string (list string))
    (st : list (string * Z) * gmap string Z) : list (string * Z) * gmap string Z :=
  match n with
  | O => st
  | S n => rankSteps n adjacency (rankStep adjacency st)
  end.

Definition assignRanks (fuel : nat) (nodes : list BPNode) (edges : list BPEdge)
  : option (gmap string Z) :=
  rankLoop fuel (adjacencyOf nodes edges)
    (initialQueue (inverseAdjacencyOf nodes edges) nodes) ∅.

(** Step 3: group by rank. *)

(** [ranks[id] !== undefined ? ranks[id] : 0], for an [id] with [plainKey id] *)
Definition rankOf (ranks : gmap string Z) (id : string) : Z := default 0%Z (ranks !! id).

Definition rankMapOf (ranks : gmap string Z) (nodes : list BPNode) : gmap Z (list string) :=
  foldl (fun m n =>
           let r := rankOf ranks (bp_id n) in
           <[r := default [] (m !! r) ++ [bp_id n]]> m) ∅ nodes.

Definition maxRankOf (ranks : gmap string Z) (nodes : list BPNode) : Z :=
  foldl (fun mx n => Z.max mx (rankOf ranks (bp_id n))) 0%Z nodes.

(** Step 4: barycenter ordering and position assignment. *)

Record Weighted := mkWeighted { w_id : string; w_avgY : Q; w_isEvent : bool }.

(** The [parents.forEach] accumulation of [weight] and [parentCount]. *)
Definition parentSum (positions : gmap string Position) (parents : list string) : Q * Z :=
  foldl (fun (acc : Q * Z) pid =>
           let '(weight, parentCount) := acc in
           match positions !! pid with
           | Some p => (Double.add weight (pos_y p), (parentCount + 1)%Z)
           | None => (weight, parentCount)
           end) (0%Q, 0%Z) parents.

Definition weigh (nodeMap : gmap string BPNode) (inverseAdjacency : gmap string (list string))
    (positions : gmap string Position) (id : string) : Weighted :=
  let '(weight, parentCount) := parentSum positions (listAt inverseAdjacency id) in
  let avgY := if (0 <? parentCount)%Z then Double.div weight (inject_Z parentCount)
              else MAX_SAFE_INTEGER in
  let isEvent := match nodeMap !! id with
                 | Some n => typeIs (data_nodeType (bp_data n)) "event"
                 | None => false
                 end in
  mkWeighted id avgY isEvent.

(** The comparator handed to [sort]. *)
Definition compareWeighted (a b : Weighted) : Q :=
  if w_isEvent a && negb (w_isEvent b) then (-1)%Q
  else if negb (w_isEvent a) && w_isEvent b then 1%Q
  else Double.sub (w_avgY a) (w_avgY b).

(** [Array.prototype.sort] is stable; with a consistent comparator its result
    is the one of a stable insertion sort. *)
Fixpoint insertSorted (x : Weighted) (l : list Weighted) : list Weighted :=
  match l with
  | [] => [x]
  | y :: l' =>
      if Qle_bool (compareWeighted x y) 0%Q then x :: l
      else y :: insertSorted x l'
  end.

Definition sortWeighted (l : list Weighted) : list Weighted :=
  foldr insertSorted [] l.

Definition Qltb (a b : Q) : bool := negb (Qle_bool b a).

(** The body of [nodesWithWeight.forEach]: the state is [currentY] and the
    [positions] dictionary. *)
Definition place (r : Z) (st : Q * gmap string Position) (item : Weighted)
  : Q * gmap string Position :=
  let '(currentY, positions) := st in
  let idealY := if Qeq_bool (w_avgY item) MAX_SAFE_INTEGER then currentY
                else w_avgY item in
  let idealY := if Qltb idealY currentY then currentY else idealY in
  (Double.add (Double.add idealY nodeHeight) gap,
   <[w_id item := mkPosition (inject_Z (r * RANK_SPACING)) idealY]> positions).

(** The body of [for (let r = 0; r <= maxRank; r++)]. *)
Definition layoutColumn (nodeMap : gmap string BPNode)
    (inverseAdjacency : gmap string (list string)) (rankMap : gmap Z (list string))
    (positions : gmap string Position) (r : Z) : gmap string Position :=
  let nodeIds := default [] (rankMap !! r) in
  let nodesWithWeight := map (weigh nodeMap inverseAdjacency positions) nodeIds in
  snd (foldl (place r) (0%Q, positions) (sortWeighted nodesWithWeight)).

(** The values [0, 1, ..., maxRank] of the loop variable. *)
Definition columnsUpTo (maxRank : Z) : list Z :=
  map Z.of_nat (seq 0 (Z.to_nat (maxRank + 1))).

Definition positionsOf (nodes : list BPNode) (edges : list BPEdge) (ranks : gmap string Z)
  : gmap string Position :=
  foldl (layoutColumn (nodeMapOf nodes) (inverseAdjacencyOf nodes edges)
           (rankMapOf ranks nodes))
        ∅ (columnsUpTo (maxRankOf ranks nodes)).

(** Step 5: apply to nodes: [{...node, position: positions[node.id] || {x: 0,
    y: 0}, targetPosition: Position.Left, sourcePosition: Position.Right}],
    for ids with [plainKey]. *)
Definition applyPositions (positions : gmap string Position) (nodes : list BPNode)
  : list BPNode :=
  map (fun node =>
         {| bp_id := bp_id node;
            bp_type := bp_type node;
            bp_position := default (mkPosition 0%Q 0%Q) (positions !! bp_id node);
            bp_data := bp_data node;
            bp_targetPosition := Some PositionLeft;
            bp_sourcePosition := Some PositionRight |}) nodes.

Definition getLayoutedElements (fuel : nat) (nodes : list BPNode) (edges : list BPEdge)
  : option (list BPNode * list BPEdge) :=
  match assignRanks fuel nodes edges with
  | Some ranks => Some (applyPositions (positionsOf nodes edges ranks) nodes, edges)
  | None => None
  end.

End Layout.

(** ** Vocabulary of the statements *)

(** Some pin of [pins] has the given name and is of type [exec]. *)
Definition hasExecNamed (name : string) (pins : list Pin) : bool :=
  existsb (fun p => String.eqb (pin_name p) name && isExec p) pins.

(** The pin contract of a Sequence node after repair. *)
Definition sequenceContract (node : RawNode) : Prop :=
  (1 <= execCount (inputsOf node))%nat /\
  (2 <= execCount (outputsOf node))%nat /\
  hasExecNamed "Then 0" (outputsOf node) = true /\
  hasExecNamed "Then 1" (outputsOf node) = true.

(** The pin contract of a Branch/If node after repair. *)
Definition branchContract (node : RawNode) : Prop :=
  execCount (inputsOf node) = 1%nat /\
  execCount (outputsOf node) = 2%nat /\
  hasExecNamed "True" (outputsOf node) = true /\
  hasExecNamed "False" (outputsOf node) = true.

(** [l'] keeps every element of [l], in order and contiguously: elements were
    only added in front or behind. *)
Definition extends {A} (l l' : list A) : Prop :=
  exists front back, l' = front ++ l ++ back.

(** *** Sample raw nodes *)

Definition dataPin (id name type : string) : Pin := mkPin id name type.

(** Scenario C: [{label:"Branch", inputs:[], outputs:[]}]. *)
Definition scenarioC : RawNode :=
  mkRawNode "B1" (Some "Branch") None (Some []) (Some []).

(** A Branch node that already carries two Exec inputs. *)
Definition branchTwoExec : RawNode :=
  mkRawNode "B2" (Some "Branch") (Some "flow_control")
    (Some [dataPin "B2_In" "In" "exec"; dataPin "B2_Alt" "Alt" "exec"]) (Some []).

(** A Sequence node that already carries two data outputs. *)
Definition sequenceTwoData : RawNode :=
  mkRawNode "S1" (Some "Sequence") (Some "flow_control") (Some [])
    (Some [dataPin "S1_A" "A" "boolean"; dataPin "S1_B" "B" "integer"]).

(** A bare Sequence node. *)
Definition sequenceBare : RawNode :=
  mkRawNode "S2" (Some "Sequence") (Some "flow_control") None None.



(** A node of kind [input_event] whose label has none of the event prefixes. *)
Definition inputEventJump : RawNode :=
  mkRawNode "IE" (Some "Jump Pressed") (Some "input_event") (Some []) (Some []).

(** A variable getter whose pin was put on the input side. *)
Definition getterMisplaced : RawNode :=
  mkRawNode "G1" (Some "Health") (Some "variable_get")
    (Some [dataPin "G1_Health" "Health" "float"]) (Some []).

(** A function node with one data input and one data output. *)
Definition printString : RawNode :=
  mkRawNode "P1" (Some "Print String") (Some "function")
    (Some [dataPin "P1_Text" "In String" "string"])
    (Some [dataPin "P1_Ret" "Result" "boolean"]).



(** The rows of the repair table, each as a relation between a raw node and
    its repair, written out pin by pin. *)

(** Event: no input is required, so the inputs stay as they are; one Exec
    output, [{id: id_Output, name: "Output", type: exec}], is put in front of
    the outputs if none of them is of type Exec. *)
Definition eventRule (raw repaired : RawNode) : Prop :=
  inputsOf repaired = inputsOf raw /\
  outputsOf repaired =
    if existsb isExec (outputsOf raw) then outputsOf raw
    else mkPin (node_id raw +:+ "_Output") "Output" "exec" :: outputsOf raw.



(** *** Sample graphs for the resolver *)

(** A pure getter that the generator returned without pins: no rule adds any. *)
Definition rawGetter : RawNode :=
  mkRawNode "N1" (Some "Get Health") (Some "function") (Some []) (Some []).

(** A function node without pins: the generic rule adds both Exec pins. *)
Definition rawPrint : RawNode :=
  mkRawNode "N2" (Some "Print String") (Some "function") None None.

(** An event without pins: the Event rule adds an Exec output and no input. *)
Definition rawBeginPlay : RawNode :=
  mkRawNode "N0" (Some "Event BeginPlay") (Some "event") None None.

(** An edge out of the getter that names an output pin the getter lacks. *)
Definition edgeFromGetter : RawEdge :=
  mkRawEdge None "N1" "N2" (Some "N1_Value") None.

(** The same edge without a declared source handle. *)
Definition edgeFromGetterBare : RawEdge :=
  mkRawEdge None "N1" "N2" None None.

(** An edge into the event that names an input pin the event lacks. *)
Definition edgeIntoEvent : RawEdge :=
  mkRawEdge None "N2" "N0" None (Some "N0_In").

(** An edge between two nodes with Exec pins, no id and no handles declared. *)
Definition edgePlain : RawEdge :=
  mkRawEdge None "N0" "N2" None None.

(** The id format [{source}_{target}_{sequenceIndex}]. *)
Definition unprefixedEdgeId (index : nat) (edge : RawEdge) : string :=
  raw_source edge +:+ "_" +:+ raw_target edge +:+ "_" +:+ JS.ofIndex index.

(** ** Vocabulary of the statements about the layout *)

Definition ids (nodes : list BPNode) : list string := map bp_id nodes.

(** [u -> v] is an edge of the graph. *)
Definition edgeOf (edges : list BPEdge) (u v : string) : Prop :=
  exists e, e ∈ edges /\ e_source e = u /\ e_target e = v.

(** A walk of at least one edge. *)
Inductive walk (edges : list BPEdge) : string -> string -> Prop :=
| walk_edge u v : edgeOf edges u v -> walk edges u v
| walk_step u v w : edgeOf edges u v -> walk edges v w -> walk edges u w.

Definition acyclic (edges : list BPEdge) : Prop := forall u, ~ walk edges u u.

(** No edge enters a given node from outside the node set. *)
Definition sourcesKnown (nodes : list BPNode) (edges : list BPEdge) : Prop :=
  forall e, e ∈ edges -> e_target e ∈ ids nodes -> e_source e ∈ ids nodes.

(** A height: it decreases along every edge. *)
Definition heightOn (edges : list BPEdge) (h : string -> nat) : Prop :=
  forall e, e ∈ edges -> (h (e_target e) < h (e_source e))%nat.

(** The longest walk out of [u] that uses at most [k] edges. *)
Fixpoint longest (edges : list BPEdge) (k : nat) (u : string) : nat :=
  match k with
  | O => O
  | S k' =>
      list_max (map (fun e => S (longest edges k' (e_target e)))
                    (List.filter (fun e => String.eqb (e_source e) u) edges))
  end.

(** Consecutive vertices of [vs], started from [u], are joined by edges. *)
Fixpoint chain (edges : list BPEdge) (u : string) (vs : list string) : Prop :=
  match vs with
  | [] => True
  | v :: vs' => edgeOf edges u v /\ chain edges v vs'
  end.

(** Termination measure of the relaxation loop: a queue entry for [v] weighs
    [base ^ h v]. *)
Definition queueWeight (base : nat) (h : string -> nat) (queue : list (string * Z)) : nat :=
  list_sum (map (fun entry => base ^ h (fst entry))%nat queue).

(** [v] has, or is about to get, a rank of at least [k]. *)
Definition covered (queue : list (string * Z)) (ranks : gmap string Z)
    (v : string) (k : Z) : Prop :=
  (exists rv, ranks !! v = Some rv /\ (k <= rv)%Z) \/
  (exists k', (v, k') ∈ queue /\ (k <= k')%Z).

(** Every ranked node has pushed its rank on to its successors. *)
Definition relaxed (adjacency : gmap string (list string))
    (queue : list (string * Z)) (ranks : gmap string Z) : Prop :=
  forall u ru v, ranks !! u = Some ru -> v ∈ listAt adjacency u ->
    covered queue ranks v (ru + 1).

(** Every node of [seeds] is ranked or waits in the queue. *)
Definition seeded (seeds : list string)
    (queue : list (string * Z)) (ranks : gmap string Z) : Prop :=
  forall s, s ∈ seeds -> is_Some (ranks !! s) \/ exists k, (s, k) ∈ queue.

(** No rank is negative. *)
Definition nonneg (queue : list (string * Z)) (ranks : gmap string Z) : Prop :=
  (forall v k, (v, k) ∈ queue -> (0 <= k)%Z) /\
  (forall v k, ranks !! v = Some k -> (0 <= k)%Z).

(** A double: a number that rounding leaves as it is. *)
Definition isDouble (y : Q) : Prop := (Double.round y == y)%Q.

(** [y2] lies one node height and one gap below [y1], up to the rounding of
    the two additions that advance the cursor: a relative error of [2^-52]. *)
Definition clears (y1 y2 : Q) : Prop :=
  ((y1 + (nodeHeight + gap)) * (1 - 2 * Double.epsilon) <= y2)%Q.

(** Two positions, one of which clears the other. *)
Definition apart (p q : Position) : Prop :=
  clears (pos_y p) (pos_y q) \/ clears (pos_y q) (pos_y p).

(** Positions in the same column are apart. *)
Definition separated (positions : gmap string Position) : Prop :=
  forall a b pa pb, a <> b ->
    positions !! a = Some pa -> positions !! b = Some pb ->
    (pos_x pa == pos_x pb)%Q -> apart pa pb.

(** Every position of column [r] lies above the cursor [currentY]. *)
Definition aboveCursor (r : Z) (currentY : Q) (positions : gmap string Position) : Prop :=
  forall a pa, positions !! a = Some pa ->
    (pos_x pa == inject_Z (r * RANK_SPACING))%Q ->
    clears (pos_y pa) currentY.

(** Every position lies in a column left of column [r]. *)
Definition leftOf (r : Z) (positions : gmap string Position) : Prop :=
  forall a pa, positions !! a = Some pa ->
    (pos_x pa < inject_Z (r * RANK_SPACING))%Q.

(** Every position sits in the column of its node's rank. *)
Definition inRankColumn (ranks : gmap string Z) (positions : gmap string Position) : Prop :=
  forall a pa, positions !! a = Some pa ->
    pos_x pa = inject_Z (rankOf ranks a * RANK_SPACING).

(** *** Sample graphs *)

Definition nd (id kind : string) : BPNode :=
  mkBPNode id None (mkPosition 0 0) (mkNodeData (Some id) (Some kind) [] [] None)
    None None.

Definition ed (source target : string) : BPEdge :=
  mkBPEdge ("e_" +:+ source +:+ "_" +:+ target) source target
    (source +:+ "_Output") (target +:+ "_Exec").

(** Scenario E: the two-node cycle A -> B -> A. *)
Definition cycleNodes : list BPNode := [nd "A" "function"; nd "B" "function"].
Definition cycleEdges : list BPEdge := [ed "A" "B"; ed "B" "A"].

(** Scenario B: Event -> Branch -> {FuncB, FuncC}. *)
Definition scenarioB_nodes : list BPNode :=
  [nd "Event" "event"; nd "Branch" "flow_control";
   nd "FuncB" "function"; nd "FuncC" "function"].
Definition scenarioB_edges : list BPEdge :=
  [ed "Event" "Branch"; ed "Branch" "FuncB"; ed "Branch" "FuncC"].

(** An acyclic graph with one edge whose source is not a node: [V] is entered
    from the unknown [X], so it is no source of the ranking, and [S] is. *)
Definition danglingNodes : list BPNode :=
  [nd "S" "event"; nd "V" "function"; nd "W" "function"].
Definition danglingEdges : list BPEdge := [ed "X" "V"; ed "V" "W"].

(** The positioned nodes of scenario B. *)
Definition placed (id kind : string) (x y : Q) : BPNode :=
  mkBPNode id None (mkPosition x y) (mkNodeData (Some id) (Some kind) [] [] None)
    (Some PositionLeft) (Some PositionRight).

Definition scenarioB_layout : list BPNode :=
  [placed "Event" "event" 0 0; placed "Branch" "flow_control" 450 0;
   placed "FuncB" "function" 900 0; placed "FuncC" "function" 900 200].

(** Five sources stacked in the first column and two nodes of the second:
    [P] hangs below [S0], [S1] and [S4], whose heights average to a third of
    1000, and [Q] below [S2]. *)
Definition thirdsNodes : list BPNode :=
  [nd "S0" "function"; nd "S1" "function"; nd "S2" "function"; nd "S3" "function";
   nd "S4" "function"; nd "P" "function"; nd "Q" "function"].
Definition thirdsEdges : list BPEdge :=
  [ed "S0" "P"; ed "S1" "P"; ed "S4" "P"; ed "S2" "Q"].
Definition thirdsLayout : list BPNode :=
  [placed "S0" "function" 0 0; placed "S1" "function" 0 200;
   placed "S2" "function" 0 400; placed "S3" "function" 0 600;
   placed "S4" "function" 0 800;
   placed "P" "function" 450 (5864062014805333 # 17592186044416);
   placed "Q" "function" 450 (2345624805922133 # 4398046511104)].

(** Two nodes that share their id. *)
Definition twinNodes : list BPNode := [nd "T" "event"; nd "T" "function"].
Definition twinLayout : list BPNode :=
  [placed "T" "event" 0 200; placed "T" "function" 0 200].

(** ** The node component: value edits and styling heuristics *)

Section NodeComponent.

(** [{ ...input, value: newValue }] for the input named by [pinId]. *)
Definition setValue (pinId newValue : string) (input : Pin) : Pin :=
  if String.eqb (pin_id input) pinId
  then {| pin_id := pin_id input;
          pin_name := pin_name input;
          pin_type := pin_type input;
          pin_isOutput := pin_isOutput input;
          pin_defaultValue := pin_defaultValue input;
          pin_value := Some newValue |}
  else input.

(** The updater that [handleValueChange] hands to [setNodes]; [id] is the id
    of the node that the component renders. *)
Definition handleValueChange (id pinId newValue : string) (nodes : list BPNode)
  : list BPNode :=
  map (fun node =>
         if negb (String.eqb (bp_id node) id) then node
         else
           let newInputs := map (setValue pinId newValue) (data_inputs (bp_data node)) in
           {| bp_id := bp_id node;
              bp_type := bp_type node;
              bp_position := bp_position node;
              bp_data :=
                {| data_label := data_label (bp_data node);
                   data_nodeType := data_nodeType (bp_data node);
                   data_inputs := newInputs;
                   data_outputs := data_outputs (bp_data node);
                   data_comment := data_comment (bp_data node) |};
              bp_targetPosition := bp_targetPosition node;
              bp_sourcePosition := bp_sourcePosition node |}) nodes.

Definition FLOW_CONTROL_KEYWORDS : list string :=
  ["Branch"; "Sequence"; "DoOnce"; "DoN"; "FlipFlop"; "ForLoop"; "Gate";
   "MultiGate"; "WhileLoop"; "Macro"; "ForEach"].

(** The three overriding [if] statements of the styling heuristics. *)
Definition effectiveNodeType (data : NodeData) : option string :=
  let label := JS.orElse (data_label data) "" in
  let effective := data_nodeType data in
  let effective :=
    if existsb (fun kw => JS.includes kw label) FLOW_CONTROL_KEYWORDS
    then Some "flow_control" else effective in
  let effective :=
    if JS.startsWith "Event" label || JS.startsWith "Input" label
       || JS.startsWith "On " label
    then Some "event" else effective in
  let effective :=
    if JS.includes "Input Action" label || JS.includes "InputAxis" label
    then Some "input_event" else effective in
  effective.

(** [!inputs.some(exec) && !outputs.some(exec)] *)
Definition isPure (data : NodeData) : bool :=
  negb (someType "exec" (data_inputs data)) &&
  negb (someType "exec" (data_outputs data)).

(** What the component draws: the pill of a variable getter, or a node with
    one of the header colours. *)
Inductive HeaderStyle :=
| GetterPill | FunctionHeader | PureFunctionHeader | EventHeader | MacroHeader
| VariableSetHeader.

Definition headerStyle (data : NodeData) : HeaderStyle :=
  let effective := effectiveNodeType data in
  if typeIs effective "variable_get" then GetterPill
  else if typeIs effective "event" || typeIs effective "input_event" then EventHeader
  else if typeIs effective "flow_control" || typeIs effective "macro" then MacroHeader
  else if typeIs effective "variable_set" then VariableSetHeader
  else if isPure data then PureFunctionHeader
  else FunctionHeader.

End NodeComponent.

(** ** The application: merging the generated variables and functions *)

Record BlueprintVariable := mkVariable {
  var_id : string;
  var_name : string;
  var_type : string;
  var_defaultValue : option string
}.

Record BlueprintFunction := mkFunction {
  fn_id : string;
  fn_name : string;
  fn_inputs : list Pin;
  fn_outputs : list Pin
}.

(** The updater handed to [setVariables] and to [setFunctions]:
    [existingIds = new Set(prev.map(v => v.id))], then
    [[...prev, ...incoming.filter(v => !existingIds.has(v.id))]]. *)
Definition mergeNew {A : Type} (idOf : A -> string) (prev incoming : list A) : list A :=
  let existingIds : gset string := list_to_set (map idOf prev) in
  let fresh := List.filter (fun v => negb (bool_decide (idOf v ∈ existingIds))) incoming in
  prev ++ fresh.

Definition mergeVariables : list BlueprintVariable -> list BlueprintVariable
                            -> list BlueprintVariable := mergeNew var_id.

Definition mergeFunctions : list BlueprintFunction -> list BlueprintFunction
                            -> list BlueprintFunction := mergeNew fn_id.

(** ** Vocabulary of the further statements *)

(** The categories whose rule puts an Exec pin in front of the inputs, and
    those whose rule puts one in front of the outputs. *)
Definition repairsExecInput (c : Category) : bool :=
  match c with
  | Branch | Sequence | VariableSet | ForLoop | GenericImpure => true
  | Event | VariableGet | GenericPure => false
  end.

Definition repairsExecOutput (c : Category) : bool :=
  match c with
  | Event | VariableSet | GenericImpure => true
  | Branch | Sequence | VariableGet | ForLoop | GenericPure => false
  end.

(** The pins of a node, inputs first. *)
Definition pinsOf (node : RawNode) : list Pin := inputsOf node ++ outputsOf node.

(** The walk [u -> v1 -> ... -> vn] ends in [v]. *)
Definition endsAt (u : string) (vs : list string) (v : string) : Prop :=
  last (u :: vs) = Some v.

(** [v] can be reached from an entry of [seeds] by a walk of exactly [k]
    edges. *)
Definition walked (edges : list BPEdge) (seeds : list (string * Z))
    (v : string) (k : Z) : Prop :=
  exists s vs, (s, 0%Z) ∈ seeds /\ chain edges s vs /\ endsAt s vs v /\
               k = Z.of_nat (length vs).

(** Every rank, in the queue or in the dictionary, is the length of a walk
    from a seed. *)
Definition ranksWalked (edges : list BPEdge) (seeds : list (string * Z))
    (queue : list (string * Z)) (ranks : gmap string Z) : Prop :=
  (forall v k, (v, k) ∈ queue -> walked edges seeds v k) /\
  (forall v k, ranks !! v = Some k -> walked edges seeds v k).

(** [isEvent] as the layout reads it from the node dictionary. *)
Definition isEventId (nodes : list BPNode) (id : string) : bool :=
  match nodeMapOf nodes !! id with
  | Some n => typeIs (data_nodeType (bp_data n)) "event"
  | None => false
  end.

(** Once a non-event item occurs, no event item follows. *)
Fixpoint eventsFirst (items : list Weighted) : Prop :=
  match items with
  | [] => True
  | x :: rest =>
      (w_isEvent x = false -> forall y, y ∈ rest -> w_isEvent y = false) /\
      eventsFirst rest
  end.

(** In every column, every other node clears every event node. *)
Definition eventsAbove (nodes : list BPNode) (positions : gmap string Position) : Prop :=
  forall a b pa pb,
    positions !! a = Some pa -> positions !! b = Some pb ->
    (pos_x pa == pos_x pb)%Q ->
    isEventId nodes a = true -> isEventId nodes b = false ->
    clears (pos_y pa) (pos_y pb).

(** No node of column [r] that is not an event has been placed yet. *)
Definition onlyEventsPlaced (nodes : list BPNode) (r : Z)
    (positions : gmap string Position) : Prop :=
  forall b pb, positions !! b = Some pb ->
    (pos_x pb == inject_Z (r * RANK_SPACING))%Q -> isEventId nodes b = true.

(** No coordinate is negative. *)
Definition inQuadrant (positions : gmap string Position) : Prop :=
  forall a pa, positions !! a = Some pa -> (0 <= pos_x pa)%Q /\ (0 <= pos_y pa)%Q.

(** *** Further samples *)

Definition forLoopBare : RawNode :=
  mkRawNode "F1" (Some "For Loop") (Some "macro") None None.

Definition mathNode : RawNode :=
  mkRawNode "M1" (Some "Math Add") (Some "function")
    (Some [mkPin "M1_A" "A" "float"; mkPin "M1_B" "B" "float"])
    (Some [mkPin "M1_R" "ReturnValue" "float"]).

Definition inputActionNode : RawNode :=
  mkRawNode "IA" (Some "Input Action Jump") (Some "function") None None.

Definition healthVar : BlueprintVariable := mkVariable "Var_Health" "Health" "float" (Some "100").
Definition ammoVar : BlueprintVariable := mkVariable "Var_Ammo" "Ammo" "integer" None.

(** An edge that declares the output pin of the event. *)
Definition edgeDeclared : RawEdge :=
  mkRawEdge None "N0" "N2" (Some "N0_Output") (Some "N2_Exec").

(** [data.nodeType === 'event'] for a positioned node. *)
Definition isEventNode (n : BPNode) : bool :=
  typeIs (data_nodeType (bp_data n)) "event".

(** The order in which a column without weights is stacked: the events in
    the order of declaration, then the other nodes in the order of
    declaration. *)
Definition stackOrder (nodes : list BPNode) : list BPNode :=
  List.filter isEventNode nodes ++ List.filter (fun n => negb (isEventNode n)) nodes.

(** A function node declared before an event, without edges. *)
Definition mixedNodes : list BPNode := [nd "F" "function"; nd "E" "event"].
Definition mixedLayout : list BPNode :=
  [placed "F" "function" 0 200; placed "E" "event" 0 0].

(** An event wired to a function node, as raw input of the generator, and a
    graph of one node with two value pins. *)
Definition rawHello : list RawNode := [rawBeginPlay; rawPrint].
Definition rawHelloEdges : list RawEdge := [edgeDeclared].
Definition mathNodes : list BPNode := transformedNodes [mathNode].

(** * Properties of the schema normalizer *)

Section NormalizerFacts.

Implicit Types (node : RawNode) (pins : list Pin) (pin : Pin).

Lemma ensureDefaultPins_repair node :
  ensureDefaultPins node = repair (classify node) node.
Proof.
  unfold ensureDefaultPins, classify.
  repeat match goal with |- context [if ?b then _ else _] => destruct b end;
    reflexivity.
Qed.

(** The guards read the label and the kind only, and no rule touches them. *)
Lemma classify_withPins node ins outs :
  classify (withPins node ins outs) = classify node.
Proof. reflexivity. Qed.

Lemma repair_withPins c node :
  exists ins outs, repair c node = withPins node ins outs.
Proof.
  destruct c; simpl; try (eexists _, _; reflexivity).
  unfold repairVariableGet.
  destruct (_ && _); eexists _, _; reflexivity.
Qed.

Lemma classify_repair c node : classify (repair c node) = classify node.
Proof.
  destruct (repair_withPins c node) as (ins & outs & ->).
  apply classify_withPins.
Qed.

Lemma someType_app t pins pins' :
  someType t (pins ++ pins') = someType t pins || someType t pins'.
Proof. apply existsb_app. Qed.

Lemma someName_app n pins pins' :
  someName n (pins ++ pins') = someName n pins || someName n pins'.
Proof. apply existsb_app. Qed.

Lemma someType_unshift t pin pins :
  pin_type pin = t -> someType t (unshiftUnlessType t pin pins) = true.
Proof.
  intros Ht. unfold unshiftUnlessType.
  destruct (someType t pins) eqn:E; [exact E|].
  simpl. rewrite Ht, String.eqb_refl. reflexivity.
Qed.

Lemma someType_push t pin pins :
  pin_type pin = t -> someType t (pushUnlessType t pin pins) = true.
Proof.
  intros Ht. unfold pushUnlessType.
  destruct (someType t pins) eqn:E; [exact E|].
  rewrite someType_app. simpl. rewrite Ht, String.eqb_refl.
  apply orb_true_r.
Qed.

Lemma someName_push n pin pins :
  pin_name pin = n -> someName n (pushUnlessName n pin pins) = true.
Proof.
  intros Hn. unfold pushUnlessName.
  destruct (someName n pins) eqn:E; [exact E|].
  rewrite someName_app. simpl. rewrite Hn, String.eqb_refl.
  apply orb_true_r.
Qed.

Lemma someType_push_mono t t' pin pins :
  someType t pins = true -> someType t (pushUnlessType t' pin pins) = true.
Proof.
  intros H. unfold pushUnlessType. destruct (someType t' pins); [exact H|].
  rewrite someType_app, H. reflexivity.
Qed.

Lemma someName_push_mono n n' pin pins :
  someName n pins = true -> someName n (pushUnlessName n' pin pins) = true.
Proof.
  intros H. unfold pushUnlessName. destruct (someName n' pins); [exact H|].
  rewrite someName_app, H. reflexivity.
Qed.

Lemma unshiftUnlessType_fix t pin pins :
  someType t pins = true -> unshiftUnlessType t pin pins = pins.
Proof. intros H. unfold unshiftUnlessType. rewrite H. reflexivity. Qed.

Lemma pushUnlessType_fix t pin pins :
  someType t pins = true -> pushUnlessType t pin pins = pins.
Proof. intros H. unfold pushUnlessType. rewrite H. reflexivity. Qed.

Lemma pushUnlessName_fix n pin pins :
  someName n pins = true -> pushUnlessName n pin pins = pins.
Proof. intros H. unfold pushUnlessName. rewrite H. reflexivity. Qed.

(** Each rule is a fixed point of itself. *)

Lemma repairBranch_idem node : repairBranch (repairBranch node) = repairBranch node.
Proof.
  unfold repairBranch at 1 3. unfold withPins, inputsOf, outputsOf, execIn, injected.
  simpl. f_equal; f_equal.
  - rewrite unshiftUnlessType_fix, pushUnlessType_fix; trivial.
    + apply someType_push; reflexivity.
    + apply someType_push_mono, someType_unshift; reflexivity.
  - rewrite (pushUnlessName_fix "True"), pushUnlessName_fix; trivial.
    + apply someName_push; reflexivity.
    + apply someName_push_mono, someName_push; reflexivity.
Qed.

Lemma repairEvent_idem node : repairEvent (repairEvent node) = repairEvent node.
Proof.
  unfold repairEvent at 1 3. unfold withPins, inputsOf, outputsOf. simpl.
  f_equal; f_equal.
  rewrite unshiftUnlessType_fix; trivial. apply someType_unshift; reflexivity.
Qed.

Lemma repairSequence_idem node :
  repairSequence (repairSequence node) = repairSequence node.
Proof.
  unfold repairSequence at 1 3. unfold withPins, inputsOf, outputsOf. simpl.
  f_equal; f_equal.
  - rewrite unshiftUnlessType_fix; trivial. apply someType_unshift; reflexivity.
  - fold (outputsOf node).
    destruct (length (outputsOf node) <? 2)%nat eqn:E.
    + rewrite !length_app. simpl.
      replace (_ <? 2)%nat with false; [reflexivity|].
      symmetry. apply Nat.ltb_ge. lia.
    + rewrite E. reflexivity.
Qed.

Lemma repairExec_idem node : repairExec (repairExec node) = repairExec node.
Proof.
  unfold repairExec at 1 3. unfold withPins, inputsOf, outputsOf. simpl.
  f_equal; f_equal; rewrite unshiftUnlessType_fix; trivial;
    apply someType_unshift; reflexivity.
Qed.

Lemma repairVariableGet_idem node :
  repairVariableGet (repairVariableGet node) = repairVariableGet node.
Proof.
  unfold repairVariableGet, inputsOf, outputsOf.
  destruct (default [] (node_inputs node)) as [|i ins];
    destruct (default [] (node_outputs node)) as [|o outs]; reflexivity.
Qed.

Lemma repairForLoop_idem node :
  repairForLoop (repairForLoop node) = repairForLoop node.
Proof.
  unfold repairForLoop at 1 3. unfold withPins, inputsOf, outputsOf. simpl.
  f_equal; f_equal.
  - rewrite unshiftUnlessType_fix; trivial. apply someType_unshift; reflexivity.
  - rewrite (pushUnlessName_fix "Loop Body"), pushUnlessName_fix; trivial.
    + apply someName_push; reflexivity.
    + apply someName_push_mono, someName_push; reflexivity.
Qed.

Lemma repairNone_idem node : repairNone (repairNone node) = repairNone node.
Proof. reflexivity. Qed.

Lemma repair_idem c node : repair c (repair c node) = repair c node.
Proof.
  destruct c; simpl;
    auto using repairBranch_idem, repairEvent_idem, repairSequence_idem,
      repairExec_idem, repairVariableGet_idem, repairForLoop_idem, repairNone_idem.
Qed.

(** Pins are only added in front or behind. *)

Lemma extends_refl {A} (l : list A) : extends l l.
Proof. exists [], []. simpl. rewrite app_nil_r. reflexivity. Qed.

Lemma extends_trans {A} (l1 l2 l3 : list A) :
  extends l1 l2 -> extends l2 l3 -> extends l1 l3.
Proof.
  intros (f1 & b1 & ->) (f2 & b2 & ->).
  exists (f2 ++ f1), (b1 ++ b2). rewrite <- !app_assoc. reflexivity.
Qed.

Lemma extends_cons {A} (x : A) l : extends l (x :: l).
Proof. exists [x], []. simpl. rewrite app_nil_r. reflexivity. Qed.

Lemma extends_snoc {A} (x : A) l : extends l (l ++ [x]).
Proof. exists [], [x]. reflexivity. Qed.

Lemma extends_unshift t pin pins : extends pins (unshiftUnlessType t pin pins).
Proof.
  unfold unshiftUnlessType.
  destruct (someType t pins); auto using extends_refl, extends_cons.
Qed.

Lemma extends_pushType t pin pins : extends pins (pushUnlessType t pin pins).
Proof.
  unfold pushUnlessType.
  destruct (someType t pins); auto using extends_refl, extends_snoc.
Qed.

Lemma extends_pushName n pin pins : extends pins (pushUnlessName n pin pins).
Proof.
  unfold pushUnlessName.
  destruct (someName n pins); auto using extends_refl, extends_snoc.
Qed.

Lemma execCount_app pins pins' :
  execCount (pins ++ pins') = (execCount pins + execCount pins')%nat.
Proof. unfold execCount. rewrite List.filter_app, length_app. reflexivity. Qed.

Lemma someType_exec_count pins :
  someType "exec" pins = negb (execCount pins =? 0)%nat.
Proof.
  unfold someType, execCount, isExec.
  induction pins as [|p pins IH]; simpl; [reflexivity|].
  destruct (String.eqb (pin_type p) "exec"); simpl; [reflexivity|exact IH].
Qed.

Lemma execCount_unshift pin pins :
  pin_type pin = "exec" ->
  execCount (unshiftUnlessType "exec" pin pins) = Nat.max 1 (execCount pins).
Proof.
  intros Ht. unfold unshiftUnlessType. rewrite someType_exec_count.
  destruct (execCount pins) as [|k] eqn:E; simpl.
  - unfold execCount in *. simpl. unfold isExec at 1. rewrite Ht. simpl.
    rewrite E. reflexivity.
  - rewrite E. lia.
Qed.

Lemma hasExecNamed_app n pins pins' :
  hasExecNamed n (pins ++ pins') = hasExecNamed n pins || hasExecNamed n pins'.
Proof. apply existsb_app. Qed.

End NormalizerFacts.

(** ** Statements about the normalizer *)

Section NormalizerClaims.

Implicit Types (node : RawNode).

Lemma classify_sequence node :
  labelOf node = "Sequence" ->
  typeIs (node_nodeType node) "event" = false ->
  classify node = Sequence.
Proof.
  intros Hl Hk. unfold classify, isBranch, isEvent, isSequence.
  rewrite Hl, Hk. reflexivity.
Qed.

Lemma classify_branch node :
  labelOf node = "Branch" \/ labelOf node = "If" -> classify node = Branch.
Proof.
  intros [Hl|Hl]; unfold classify, isBranch; rewrite Hl; reflexivity.
Qed.

Lemma execCount_snoc_data pins pin :
  isExec pin = false -> execCount (pins ++ [pin]) = execCount pins.
Proof.
  intros H. rewrite execCount_app. unfold execCount at 2. simpl.
  rewrite H. simpl. lia.
Qed.

Lemma execCount_snoc_exec pins pin :
  isExec pin = true -> execCount (pins ++ [pin]) = S (execCount pins).
Proof.
  intros H. rewrite execCount_app. unfold execCount at 2. simpl.
  rewrite H. simpl. lia.
Qed.

(** C3: the normalizer is idempotent: normalizing a normalized node changes
    nothing, for every raw node. *)
Theorem ensureDefaultPins_idempotent node :
  ensureDefaultPins (ensureDefaultPins node) = ensureDefaultPins node.
Proof.
  rewrite !ensureDefaultPins_repair, classify_repair. apply repair_idem.
Qed.

(** C2, as stated, fails: a node labelled "Sequence" that already carries two
    data outputs keeps exactly those outputs, so it has no Exec output and no
    "Then 0" or "Then 1" after repair. *)
Lemma sequence_two_data_outputs_unrepaired :
  labelOf sequenceTwoData = "Sequence" /\
  classify sequenceTwoData = Sequence /\
  ~ sequenceContract (ensureDefaultPins sequenceTwoData).
Proof.
  split; [reflexivity|]. split; [reflexivity|].
  intros (_ & H & _). vm_compute in H. lia.
Qed.

(** C2, amended: for a node labelled "Sequence" whose kind is not [event], the
    repaired node has at least one Exec input and keeps its raw inputs; if the
    raw node has fewer than two output pins, Exec outputs "Then 0" and
    "Then 1" are appended and the Sequence contract holds; if it has two or
    more output pins, the outputs are left as they are. *)
Theorem sequence_repair node
    (Hlabel : labelOf node = "Sequence")
    (Hkind : typeIs (node_nodeType node) "event" = false) :
  let repaired := ensureDefaultPins node in
  (1 <= execCount (inputsOf repaired))%nat /\
  extends (inputsOf node) (inputsOf repaired) /\
  ((length (outputsOf node) < 2)%nat ->
     outputsOf repaired =
       outputsOf node ++ [injected node "Then0" "Then 0" "exec";
                          injected node "Then1" "Then 1" "exec"] /\
     sequenceContract repaired) /\
  ((2 <= length (outputsOf node))%nat -> outputsOf repaired = outputsOf node).
Proof.
  intros repaired. subst repaired.
  rewrite ensureDefaultPins_repair, (classify_sequence _ Hlabel Hkind). simpl.
  assert (Hin : (1 <= execCount (unshiftUnlessType "exec" (execIn node) (inputsOf node)))%nat).
  { rewrite execCount_unshift by reflexivity. lia. }
  unfold repairSequence, sequenceContract.
  change (inputsOf (withPins ?n ?i ?o)) with i.
  change (outputsOf (withPins ?n ?i ?o)) with o.
  split; [exact Hin|]. split; [apply extends_unshift|]. split.
  - intros Hlen. apply Nat.ltb_lt in Hlen. rewrite Hlen.
    rewrite <- app_assoc. simpl. split; [reflexivity|].
    split; [exact Hin|].
    rewrite execCount_app, !hasExecNamed_app. simpl.
    rewrite !orb_true_r. unfold execCount at 2. simpl. repeat split; lia.
  - intros Hlen. apply Nat.ltb_ge in Hlen. rewrite Hlen. reflexivity.
Qed.

Lemma sequence_repair_witness :
  labelOf sequenceBare = "Sequence" /\
  typeIs (node_nodeType sequenceBare) "event" = false /\
  (length (outputsOf sequenceBare) < 2)%nat /\
  sequenceContract (ensureDefaultPins sequenceBare).
Proof.
  assert (Hlen : (length (outputsOf sequenceBare) < 2)%nat)
    by (vm_compute; repeat constructor).
  repeat (split; [first [reflexivity | exact Hlen]|]).
  apply (sequence_repair sequenceBare eq_refl eq_refl). exact Hlen.
Defined.

(** C4, as stated, fails: a node labelled "Branch" that already carries two
    Exec inputs keeps both, so it does not have exactly one. *)
Lemma branch_two_exec_inputs_kept :
  labelOf branchTwoExec = "Branch" /\
  ~ branchContract (ensureDefaultPins branchTwoExec).
Proof.
  split; [reflexivity|].
  intros (H & _). vm_compute in H. discriminate.
Qed.

(** C4, amended: for a node labelled "Branch" or "If" the repair only adds
    pins; afterwards the number of Exec inputs is the raw number, or one if
    there was none, there is a Boolean input, and there are outputs named
    "True" and "False".  When the raw node has at most one Exec input, no
    Exec output and no output named "True" or "False", the repaired node has
    exactly one Exec input and exactly two Exec outputs, named "True" and
    "False".  The raw node of scenario C is repaired to exactly
    [Exec, Condition] and [True, False]. *)
Theorem branch_repair node
    (Hlabel : labelOf node = "Branch" \/ labelOf node = "If") :
  let repaired := ensureDefaultPins node in
  execCount (inputsOf repaired) = Nat.max 1 (execCount (inputsOf node)) /\
  someType "boolean" (inputsOf repaired) = true /\
  someName "True" (outputsOf repaired) = true /\
  someName "False" (outputsOf repaired) = true /\
  extends (inputsOf node) (inputsOf repaired) /\
  extends (outputsOf node) (outputsOf repaired) /\
  ((execCount (inputsOf node) <= 1)%nat ->
   execCount (outputsOf node) = 0%nat ->
   someName "True" (outputsOf node) = false ->
   someName "False" (outputsOf node) = false ->
   branchContract repaired) /\
  ensureDefaultPins scenarioC =
    mkRawNode "B1" (Some "Branch") None
      (Some [mkPin "B1_Exec" "Exec" "exec";
             mkPin "B1_Condition" "Condition" "boolean"])
      (Some [mkPin "B1_True" "True" "exec";
             mkPin "B1_False" "False" "exec"]).
Proof.
  intros repaired. subst repaired.
  rewrite ensureDefaultPins_repair, (classify_branch _ Hlabel). simpl.
  unfold repairBranch, branchContract.
  change (inputsOf (withPins ?n ?i ?o)) with i.
  change (outputsOf (withPins ?n ?i ?o)) with o.
  set (ins1 := unshiftUnlessType "exec" (execIn node) (inputsOf node)).
  set (cond := injected node "Condition" "Condition" "boolean").
  set (pT := injected node "True" "True" "exec").
  set (pF := injected node "False" "False" "exec").
  assert (Hins : execCount (pushUnlessType "boolean" cond ins1)
                 = Nat.max 1 (execCount (inputsOf node))).
  { unfold pushUnlessType. destruct (someType "boolean" ins1).
    - apply execCount_unshift. reflexivity.
    - rewrite execCount_snoc_data by reflexivity.
      apply execCount_unshift. reflexivity. }
  split; [exact Hins|].
  split; [apply someType_push; reflexivity|].
  split; [apply someName_push_mono, someName_push; reflexivity|].
  split; [apply someName_push; reflexivity|].
  split; [eapply extends_trans; [apply extends_unshift|apply extends_pushType]|].
  split; [eapply extends_trans; [apply extends_pushName|apply extends_pushName]|].
  split; [|reflexivity].
  intros Hle Hout HT HF.
  split; [rewrite Hins; lia|].
  unfold pushUnlessName at 2 4 6. rewrite HT.
  unfold pushUnlessName. rewrite someName_app, HF. simpl.
  rewrite <- app_assoc. simpl.
  rewrite execCount_app, !hasExecNamed_app, Hout. simpl.
  rewrite !orb_true_r. repeat split.
Qed.

Lemma branch_repair_witness :
  (labelOf scenarioC = "Branch" \/ labelOf scenarioC = "If") /\
  branchContract (ensureDefaultPins scenarioC).
Proof.
  split; [left; reflexivity|].
  apply (branch_repair scenarioC (or_introl eq_refl));
    vm_compute; first [reflexivity | repeat constructor].
Defined.


(** The kind [input_event] is tested nowhere: with a label that has none of
    the event prefixes such a node goes through the generic rule. *)
Lemma input_event_kind_is_generic :
  classify inputEventJump = GenericImpure /\
  inputsOf (ensureDefaultPins inputEventJump) = [mkPin "IE_Exec" "Exec" "exec"].
Proof. split; reflexivity. Qed.



Lemma repair_extends c node :
  c <> VariableGet ->
  extends (inputsOf node) (inputsOf (repair c node)) /\
  extends (outputsOf node) (outputsOf (repair c node)).
Proof.
  intros Hc. destruct c; try congruence; simpl;
    unfold repairBranch, repairEvent, repairSequence, repairExec,
      repairForLoop, repairNone;
    change (inputsOf (withPins ?n ?i ?o)) with i;
    change (outputsOf (withPins ?n ?i ?o)) with o;
    (split;
     [ first [ apply extends_refl | apply extends_unshift
             | eapply extends_trans; [apply extends_unshift|apply extends_pushType] ]
     | first [ apply extends_refl | apply extends_unshift
             | eapply extends_trans; [apply extends_pushName|apply extends_pushName]
             | idtac ] ]).
  destruct (_ <? _)%nat; [|apply extends_refl].
  exists [], [injected node "Then0" "Then 0" "exec"; injected node "Then1" "Then 1" "exec"].
  simpl. rewrite <- app_assoc. reflexivity.
Qed.

(** A node is classified VariableGet when its kind is [variable_get] and none
    of the earlier tests fires. *)
Lemma classify_variableGet node :
  classify node = VariableGet <->
  isVariableGet node = true /\ isBranch node = false /\ isEvent node = false /\
  isSequence node = false /\ isVariableSet node = false.
Proof.
  unfold classify.
  destruct (isBranch node), (isEvent node), (isSequence node),
    (isVariableSet node), (isVariableGet node), (isForLoop node),
    (isGenericExec node); split; try discriminate; try tauto;
    intros (? & ? & ? & ? & ?); discriminate.
Qed.

(** A node whose kind is not [variable_get] is not classified VariableGet. *)
Lemma classify_other_kind node :
  typeIs (node_nodeType node) "variable_get" = false -> classify node <> VariableGet.
Proof.
  intros Hk Hc. apply classify_variableGet in Hc as (Hg & _).
  unfold isVariableGet in Hg. congruence.
Qed.

(** C10: normalization only adds pins.  For a node that is not classified
    VariableGet the raw inputs and the raw outputs are kept, contiguous and
    in order, pins being added only in front or behind.  For a node
    classified VariableGet that has inputs and no outputs, the former inputs
    are the outputs, unchanged, and the inputs are empty. *)
Theorem normalizer_only_adds node :
  (classify node <> VariableGet ->
     extends (inputsOf node) (inputsOf (ensureDefaultPins node)) /\
     extends (outputsOf node) (outputsOf (ensureDefaultPins node))) /\
  (classify node = VariableGet ->
     inputsOf node <> [] -> outputsOf node = [] ->
     outputsOf (ensureDefaultPins node) = inputsOf node /\
     inputsOf (ensureDefaultPins node) = []).
Proof.
  rewrite ensureDefaultPins_repair. split.
  - apply repair_extends.
  - intros -> Hin Hout. simpl. unfold repairVariableGet.
    rewrite Hout. destruct (inputsOf node) as [|p ps]; [congruence|].
    split; reflexivity.
Qed.

Lemma normalizer_only_adds_witness :
  (extends (inputsOf printString) (inputsOf (ensureDefaultPins printString)) /\
   extends (outputsOf printString) (outputsOf (ensureDefaultPins printString))) /\
  (outputsOf (ensureDefaultPins getterMisplaced) = inputsOf getterMisplaced /\
   inputsOf (ensureDefaultPins getterMisplaced) = []).
Proof.
  split.
  - apply (proj1 (normalizer_only_adds printString)). discriminate.
  - apply (proj2 (normalizer_only_adds getterMisplaced));
      [reflexivity|discriminate|reflexivity].
Defined.

End NormalizerClaims.

(** * Properties of the edge resolver *)

Section ResolverClaims.

Implicit Types (nodes : list BPNode) (edge : RawEdge).

(** With no pin to fall back to, the handle stays as it was declared. *)
Lemma fallback_no_pins execLike handle : fallback execLike handle [] = handle.
Proof. destruct execLike; reflexivity. Qed.

Lemma finalSourceHandle_no_outputs edge sourceNode :
  data_outputs (bp_data sourceNode) = [] ->
  finalSourceHandle edge sourceNode = raw_sourceHandle edge.
Proof.
  intros H. unfold finalSourceHandle. rewrite H.
  unfold pinExists. simpl. rewrite andb_false_r. apply fallback_no_pins.
Qed.

Lemma finalTargetHandle_no_inputs edge targetNode :
  data_inputs (bp_data targetNode) = [] ->
  finalTargetHandle edge targetNode = raw_targetHandle edge.
Proof.
  intros H. unfold finalTargetHandle. rewrite H.
  unfold pinExists. simpl. rewrite andb_false_r. apply fallback_no_pins.
Qed.

(** An edge out of a node without output pins is dropped exactly when it
    declared no source handle (given that its other end resolves). *)
Lemma resolveEdge_no_outputs nodes index edge sourceNode targetNode :
  findNode nodes (raw_source edge) = Some sourceNode ->
  findNode nodes (raw_target edge) = Some targetNode ->
  data_outputs (bp_data sourceNode) = [] ->
  JS.truthy (finalTargetHandle edge targetNode) = true ->
  (JS.truthy (raw_sourceHandle edge) = false -> resolveEdge nodes index edge = None) /\
  (JS.truthy (raw_sourceHandle edge) = true ->
     exists resolved, resolveEdge nodes index edge = Some resolved /\
       e_sourceHandle resolved = default "" (raw_sourceHandle edge)).
Proof.
  intros Hs Ht Hout Hth. unfold resolveEdge. rewrite Hs, Ht.
  rewrite (finalSourceHandle_no_outputs _ _ Hout), Hth. simpl.
  split; intros ->; simpl; [reflexivity|].
  eexists. split; reflexivity.
Qed.

(** C5 on the code: an edge out of a node that has no output pins, with a
    declared source handle, is not dropped; it comes out of the resolver
    with the handle it declared, which names no pin.  The same holds for an
    edge into a node that has no input pins.  Without a declared handle the
    edge is dropped. *)
Theorem edge_with_declared_handle_survives_missing_pins :
  (let '(nodes, edges) := generateBlueprint [rawGetter; rawPrint] [edgeFromGetter] in
   (data_outputs ∘ bp_data <$> findNode nodes "N1") = Some [] /\
   edges = [mkBPEdge "e_N1_N2_0" "N1" "N2" "N1_Value" "N2_Exec"]) /\
  (let '(nodes, edges) := generateBlueprint [rawBeginPlay; rawPrint] [edgeIntoEvent] in
   (data_inputs ∘ bp_data <$> findNode nodes "N0") = Some [] /\
   edges = [mkBPEdge "e_N2_N0_0" "N2" "N0" "N2_Output" "N0_In"]) /\
  snd (generateBlueprint [rawGetter; rawPrint] [edgeFromGetterBare]) = [].
Proof. repeat split. Qed.

(** C7, as stated, fails: the generated id starts with "e_". *)
Lemma generated_edge_id_has_prefix :
  raw_id edgePlain = None /\
  exists resolved,
    snd (generateBlueprint [rawBeginPlay; rawPrint] [edgePlain]) = [resolved] /\
    e_id resolved = "e_N0_N2_0" /\
    e_id resolved <> unprefixedEdgeId 0 edgePlain.
Proof.
  split; [reflexivity|]. eexists. split; [reflexivity|].
  split; [reflexivity|]. discriminate.
Qed.

Lemma resolveEdge_id nodes index edge resolved :
  resolveEdge nodes index edge = Some resolved ->
  e_id resolved = edgeId index edge /\
  e_source resolved = raw_source edge /\
  e_target resolved = raw_target edge.
Proof.
  unfold resolveEdge.
  destruct (findNode nodes (raw_source edge)); [|discriminate].
  destruct (findNode nodes (raw_target edge)); [|discriminate].
  destruct (_ || _); [discriminate|].
  intros [= <-]. repeat split.
Qed.

(** C7, amended: every edge that the resolver returns comes from a raw edge
    at some position of the raw sequence and carries that edge's source and
    target; its id is the declared id if one was declared (and is not
    empty), and otherwise the string "e_" followed by
    [{source}_{target}_{index}], the index being that position. *)
Theorem resolved_edge_id nodes (edges : list RawEdge) (resolved : BPEdge)
    (Hin : resolved ∈ validEdges nodes edges) :
  exists index edge,
    edges !! index = Some edge /\
    resolveEdge nodes index edge = Some resolved /\
    e_id resolved =
      if JS.truthy (raw_id edge) then default "" (raw_id edge)
      else "e_" +:+ unprefixedEdgeId index edge.
Proof.
  unfold validEdges in Hin.
  apply list_elem_of_omap in Hin as (o & Ho & Hr). simpl in Hr. subst o.
  apply elem_of_lookup_imap in Ho as (index & edge & Hres & Hlook).
  exists index, edge. split; [exact Hlook|]. split; [symmetry; exact Hres|].
  symmetry in Hres. apply resolveEdge_id in Hres as (-> & _ & _).
  unfold edgeId, JS.orElse, JS.truthy, unprefixedEdgeId.
  destruct (raw_id edge) as [s|]; [|reflexivity].
  destruct (String.eqb s ""); reflexivity.
Qed.

Lemma resolved_edge_id_witness :
  mkBPEdge "e_N0_N2_0" "N0" "N2" "N0_Output" "N2_Exec"
    ∈ validEdges (transformedNodes [rawBeginPlay; rawPrint]) [edgePlain] /\
  exists index edge,
    [edgePlain] !! index = Some edge /\
    resolveEdge (transformedNodes [rawBeginPlay; rawPrint]) index edge
      = Some (mkBPEdge "e_N0_N2_0" "N0" "N2" "N0_Output" "N2_Exec") /\
    e_id (mkBPEdge "e_N0_N2_0" "N0" "N2" "N0_Output" "N2_Exec") =
      if JS.truthy (raw_id edge) then default "" (raw_id edge)
      else "e_" +:+ unprefixedEdgeId index edge.
Proof.
  assert (Hin : mkBPEdge "e_N0_N2_0" "N0" "N2" "N0_Output" "N2_Exec"
                  ∈ validEdges (transformedNodes [rawBeginPlay; rawPrint]) [edgePlain])
    by (vm_compute; left).
  split; [exact Hin|].
  exact (resolved_edge_id _ _ _ Hin).
Defined.

End ResolverClaims.

(** * Properties of the layout engine *)

(** ** The relaxation loop on a cycle *)

Section Cycle.

Variable adjacency : gmap string (list string).

(** Two nodes that point at each other keep raising each other's rank: from
    a queue that holds one of them, the loop never reaches the empty queue. *)
Lemma rankLoop_two_cycle (fuel : nat) : forall (a b : string) (k : Z) (ranks : gmap string Z),
  a <> b ->
  listAt adjacency a = [b] ->
  listAt adjacency b = [a] ->
  (forall ra, ranks !! a = Some ra -> (ra < k)%Z) ->
  (forall rb, ranks !! b = Some rb -> (rb < k + 1)%Z) ->
  rankLoop fuel adjacency [(a, k)] ranks = None.
Proof.
  induction fuel as [|fuel IH]; intros a b k ranks Hab Ha Hb Hra Hrb; [reflexivity|].
  simpl. unfold relax. rewrite Ha. simpl.
  assert (Hraise : raiseRank ranks a k = <[a := k]> ranks).
  { unfold raiseRank. destruct (ranks !! a) as [ra|] eqn:E; [|reflexivity].
    specialize (Hra ra eq_refl). apply Z.ltb_lt in Hra. rewrite Hra. reflexivity. }
  rewrite Hraise.
  assert (Hvisit : needsVisit (<[a := k]> ranks) k b = true).
  { unfold needsVisit. rewrite lookup_insert_ne by exact Hab.
    destruct (ranks !! b) as [rb|] eqn:E; [|reflexivity].
    apply Z.ltb_lt. apply Hrb. reflexivity. }
  rewrite Hvisit. simpl.
  apply (IH b a); auto.
  - intros rb. rewrite lookup_insert_ne by exact Hab. apply Hrb.
  - intros ra. rewrite lookup_insert_eq. intros [= <-]. lia.
Qed.

Lemma rankLoop_steps (fuel : nat) : forall queue ranks,
  rankLoop fuel adjacency queue ranks =
  match rankSteps fuel adjacency (queue, ranks) with
  | ([], result) => Some result
  | _ => None
  end.
Proof.
  induction fuel as [|fuel IH]; intros queue ranks.
  - destruct queue as [|[id rank] queue]; reflexivity.
  - destruct queue as [|[id rank] queue].
    + simpl. change (rankStep adjacency ([], ranks)) with (@nil (string * Z), ranks).
      rewrite <- IH. destruct fuel; reflexivity.
    + simpl. unfold rankStep. simpl. apply IH.
Qed.

(** After [n] iterations the queue holds exactly one entry, of rank [n] above
    the start: the ranks grow by one with every iteration. *)
Lemma rankSteps_two_cycle (n : nat) : forall (a b : string) (k : Z) (ranks : gmap string Z),
  a <> b ->
  listAt adjacency a = [b] ->
  listAt adjacency b = [a] ->
  (forall ra, ranks !! a = Some ra -> (ra < k)%Z) ->
  (forall rb, ranks !! b = Some rb -> (rb < k + 1)%Z) ->
  fst (rankSteps n adjacency ([(a, k)], ranks)) =
    [(if Nat.even n then a else b, (k + Z.of_nat n)%Z)].
Proof.
  induction n as [|n IH]; intros a b k ranks Hab Ha Hb Hra Hrb.
  - simpl. rewrite Z.add_0_r. reflexivity.
  - change (rankSteps (S n) adjacency ([(a, k)], ranks))
      with (rankSteps n adjacency (relax adjacency a k [] ranks)).
    unfold relax. rewrite Ha. simpl List.filter.
    assert (Hraise : raiseRank ranks a k = <[a := k]> ranks).
    { unfold raiseRank. destruct (ranks !! a) as [ra|] eqn:E; [|reflexivity].
      specialize (Hra ra eq_refl). apply Z.ltb_lt in Hra. rewrite Hra. reflexivity. }
    rewrite Hraise.
    assert (Hvisit : needsVisit (<[a := k]> ranks) k b = true).
    { unfold needsVisit. rewrite lookup_insert_ne by exact Hab.
      destruct (ranks !! b) as [rb|] eqn:E; [|reflexivity].
      apply Z.ltb_lt. apply Hrb. reflexivity. }
    rewrite Hvisit. simpl app. simpl map.
    rewrite (IH b a); auto.
    + rewrite Nat.even_succ, <- Nat.negb_even.
      destruct (Nat.even n); simpl; f_equal; f_equal; lia.
    + intros rb. rewrite lookup_insert_ne by exact Hab. apply Hrb.
    + intros ra. rewrite lookup_insert_eq. intros [= <-]. lia.
Qed.

End Cycle.

(** On the two-node cycle the queue after [n] iterations is the single entry
    [(A, n)] or [(B, n)]. *)
Lemma two_node_cycle_queue (n : nat) :
  fst (rankSteps n (adjacencyOf cycleNodes cycleEdges)
         (initialQueue (inverseAdjacencyOf cycleNodes cycleEdges) cycleNodes, ∅)) =
    [(if Nat.even n then "A" else "B", Z.of_nat n)].
Proof.
  replace (initialQueue _ _) with [("A", 0%Z)] by reflexivity.
  rewrite (rankSteps_two_cycle _ n "A" "B"); try reflexivity.
  - discriminate.
  - intros ra. rewrite lookup_empty. discriminate.
  - intros rb. rewrite lookup_empty. discriminate.
Qed.

(** C1 on the code: on the two-node cycle A -> B -> A the relaxation loop is
    never left, whatever the number of iterations allowed, so the layout
    returns nothing: there is no bound on the relaxation steps. *)
Theorem two_node_cycle_layout_never_returns (fuel : nat) :
  getLayoutedElements fuel cycleNodes cycleEdges = None.
Proof.
  unfold getLayoutedElements, assignRanks.
  replace (initialQueue _ _) with [("A", 0%Z)] by reflexivity.
  rewrite (rankLoop_two_cycle _ fuel "A" "B"); try reflexivity.
  - discriminate.
  - intros ra. rewrite lookup_empty. discriminate.
  - intros rb. rewrite lookup_empty. discriminate.
Qed.

(** ** Invariants of the relaxation loop *)

Section RankLoop.

Variable adjacency : gmap string (list string).

Implicit Types (queue : list (string * Z)) (ranks : gmap string Z) (id : string) (rank : Z).

Lemma rankLoop_nil fuel ranks : rankLoop fuel adjacency [] ranks = Some ranks.
Proof. destruct fuel; reflexivity. Qed.

Lemma rankLoop_cons fuel id rank queue ranks :
  rankLoop (S fuel) adjacency ((id, rank) :: queue) ranks =
  rankLoop fuel adjacency (fst (relax adjacency id rank queue ranks))
                          (snd (relax adjacency id rank queue ranks)).
Proof. reflexivity. Qed.

(** What holds before every iteration holds when the loop is left. *)
Lemma rankLoop_invariant (P : list (string * Z) -> gmap string Z -> Prop) :
  (forall id rank queue ranks,
      P ((id, rank) :: queue) ranks ->
      P (fst (relax adjacency id rank queue ranks))
        (snd (relax adjacency id rank queue ranks))) ->
  forall fuel queue ranks result,
    P queue ranks ->
    rankLoop fuel adjacency queue ranks = Some result ->
    P [] result.
Proof.
  intros Hstep fuel.
  induction fuel as [|fuel IH]; intros queue ranks result HP Hrun.
  - destruct queue as [|[id rank] queue]; simpl in Hrun; [|discriminate].
    injection Hrun as <-. exact HP.
  - destruct queue as [|[id rank] queue].
    + rewrite rankLoop_nil in Hrun. injection Hrun as <-. exact HP.
    + rewrite rankLoop_cons in Hrun. eapply IH; [|exact Hrun].
      apply Hstep. exact HP.
Qed.

(** More fuel does not change a result. *)
Lemma rankLoop_more_fuel fuel : forall fuel' queue ranks result,
  (fuel <= fuel')%nat ->
  rankLoop fuel adjacency queue ranks = Some result ->
  rankLoop fuel' adjacency queue ranks = Some result.
Proof.
  induction fuel as [|fuel IH]; intros fuel' queue ranks result Hle Hrun.
  - destruct queue as [|[id rank] queue]; simpl in Hrun; [|discriminate].
    rewrite rankLoop_nil. exact Hrun.
  - destruct queue as [|[id rank] queue].
    + rewrite rankLoop_nil in *. exact Hrun.
    + destruct fuel' as [|fuel']; [lia|]. rewrite rankLoop_cons in *.
      apply IH; [lia|exact Hrun].
Qed.

Lemma raiseRank_self ranks id rank :
  exists m, raiseRank ranks id rank !! id = Some m /\ (rank <= m)%Z.
Proof.
  unfold raiseRank. destruct (ranks !! id) as [r|] eqn:E.
  - destruct (r <? rank)%Z eqn:L.
    + exists rank. rewrite lookup_insert_eq. split; [reflexivity|lia].
    + exists r. apply Z.ltb_ge in L. split; [exact E|exact L].
  - exists rank. rewrite lookup_insert_eq. split; [reflexivity|lia].
Qed.

Lemma raiseRank_cases ranks id rank x v :
  raiseRank ranks id rank !! x = Some v ->
  (x = id /\ v = rank /\ forall r, ranks !! id = Some r -> (r < rank)%Z) \/
  ranks !! x = Some v.
Proof.
  unfold raiseRank. destruct (ranks !! id) as [r|] eqn:E.
  - destruct (r <? rank)%Z eqn:L; [|auto].
    apply Z.ltb_lt in L.
    destruct (decide (x = id)) as [->|Hne].
    + rewrite lookup_insert_eq. intros [= <-]. left. repeat split.
      intros r' [= <-]. exact L.
    + rewrite lookup_insert_ne by congruence. auto.
  - destruct (decide (x = id)) as [->|Hne].
    + rewrite lookup_insert_eq. intros [= <-]. left. repeat split. discriminate.
    + rewrite lookup_insert_ne by congruence. auto.
Qed.

Lemma raiseRank_mono ranks id rank x a :
  ranks !! x = Some a ->
  exists b, raiseRank ranks id rank !! x = Some b /\ (a <= b)%Z.
Proof.
  intros Hx. destruct (decide (x = id)) as [->|Hne].
  - unfold raiseRank. rewrite Hx. destruct (a <? rank)%Z eqn:L.
    + apply Z.ltb_lt in L. exists rank. rewrite lookup_insert_eq.
      split; [reflexivity|lia].
    + exists a. split; [exact Hx|lia].
  - exists a. split; [|lia]. unfold raiseRank.
    destruct (ranks !! id) as [r|]; [destruct (r <? rank)%Z|];
      rewrite ?lookup_insert_ne by congruence; exact Hx.
Qed.

Lemma relax_queue id rank queue ranks :
  fst (relax adjacency id rank queue ranks) =
  queue ++ map (fun target => (target, (rank + 1)%Z))
               (List.filter (needsVisit (raiseRank ranks id rank) rank)
                            (listAt adjacency id)).
Proof. reflexivity. Qed.

Lemma relax_ranks id rank queue ranks :
  snd (relax adjacency id rank queue ranks) = raiseRank ranks id rank.
Proof. reflexivity. Qed.

Lemma covered_step id rank queue ranks pushed v k :
  covered ((id, rank) :: queue) ranks v k ->
  covered (queue ++ pushed) (raiseRank ranks id rank) v k.
Proof.
  intros [(rv & Hv & Hle)|(k' & Hin & Hle)].
  - destruct (raiseRank_mono ranks id rank v rv Hv) as (b & Hb & Hab).
    left. exists b. split; [exact Hb|lia].
  - apply elem_of_cons in Hin as [[= -> ->]|Hin].
    + destruct (raiseRank_self ranks id rank) as (m & Hm & Hrm).
      left. exists m. split; [exact Hm|lia].
    + right. exists k'. split; [|exact Hle].
      apply elem_of_app. left. exact Hin.
Qed.

Lemma relaxed_step id rank queue ranks :
  relaxed adjacency ((id, rank) :: queue) ranks ->
  relaxed adjacency (fst (relax adjacency id rank queue ranks))
                    (snd (relax adjacency id rank queue ranks)).
Proof.
  intros Hrel. rewrite relax_queue, relax_ranks.
  intros u ru v Hu Hv.
  apply raiseRank_cases in Hu as [(-> & -> & _)|Hu].
  - destruct (needsVisit (raiseRank ranks id rank) rank v) eqn:Hn.
    + right. exists (rank + 1)%Z. split; [|lia].
      apply elem_of_app. right.
      apply list_elem_of_In, in_map_iff. exists v. split; [reflexivity|].
      apply filter_In. split; [apply list_elem_of_In; exact Hv|exact Hn].
    + left. unfold needsVisit in Hn.
      destruct (raiseRank ranks id rank !! v) as [rv|]; [|discriminate].
      exists rv. split; [reflexivity|]. apply Z.ltb_ge in Hn. exact Hn.
  - apply covered_step. eapply Hrel; eassumption.
Qed.

Lemma seeded_step seeds id rank queue ranks :
  seeded seeds ((id, rank) :: queue) ranks ->
  seeded seeds (fst (relax adjacency id rank queue ranks))
               (snd (relax adjacency id rank queue ranks)).
Proof.
  intros Hseed. rewrite relax_queue, relax_ranks. intros s Hs.
  destruct (Hseed s Hs) as [[a Ha]|(k & Hin)].
  - left. destruct (raiseRank_mono ranks id rank s a Ha) as (b & Hb & _). eauto.
  - apply elem_of_cons in Hin as [[= -> ->]|Hin].
    + left. destruct (raiseRank_self ranks id rank) as (m & Hm & _). eauto.
    + right. exists k. apply elem_of_app. left. exact Hin.
Qed.

Lemma nonneg_step id rank queue ranks :
  nonneg ((id, rank) :: queue) ranks ->
  nonneg (fst (relax adjacency id rank queue ranks))
         (snd (relax adjacency id rank queue ranks)).
Proof.
  intros [Hq Hr]. rewrite relax_queue, relax_ranks.
  assert (Hrank : (0 <= rank)%Z) by (apply (Hq id); left).
  split.
  - intros v k Hin. apply elem_of_app in Hin as [Hin|Hin].
    + apply (Hq v). right. exact Hin.
    + apply list_elem_of_In, in_map_iff in Hin as (t & [= <- <-] & _). lia.
  - intros v k Hv. apply raiseRank_cases in Hv as [(_ & -> & _)|Hv]; [exact Hrank|].
    eapply Hr; eassumption.
Qed.

(** *** Termination on a graph with a height *)

Section Termination.

Variables (h : string -> nat) (degree : nat).
Hypothesis Hheight : forall u v, v ∈ listAt adjacency u -> (h v < h u)%nat.
Hypothesis Hdegree : forall u, (length (listAt adjacency u) <= degree)%nat.

Let base := S degree.

Lemma queueWeight_app queue queue' :
  queueWeight base h (queue ++ queue') =
  (queueWeight base h queue + queueWeight base h queue')%nat.
Proof. unfold queueWeight. rewrite map_app, list_sum_app. reflexivity. Qed.

Lemma queueWeight_bound u rank (targets : list string) :
  (forall v, v ∈ targets -> (h v < h u)%nat) ->
  (queueWeight base h (map (fun target => (target, rank)) targets)
   <= length targets * base ^ (h u - 1))%nat.
Proof.
  unfold queueWeight.
  induction targets as [|t ts IH]; intros Hlt; simpl; [lia|].
  assert (h t < h u)%nat by (apply Hlt; left).
  assert (base ^ h t <= base ^ (h u - 1))%nat
    by (apply Nat.pow_le_mono_r; [discriminate|lia]).
  assert (forall v, v ∈ ts -> (h v < h u)%nat)
    by (intros v Hv; apply Hlt; right; exact Hv).
  specialize (IH ltac:(assumption)). lia.
Qed.

Lemma queueWeight_pushed u rank (targets : list string) :
  (forall v, v ∈ targets -> (h v < h u)%nat) ->
  (length targets <= degree)%nat ->
  (queueWeight base h (map (fun target => (target, rank)) targets) < base ^ h u)%nat.
Proof.
  intros Hlt Hlen.
  assert (Hb := queueWeight_bound u rank targets Hlt).
  assert (Hnz : forall n, (0 < base ^ n)%nat).
  { intros n. assert (base ^ n <> 0)%nat by (apply Nat.pow_nonzero; discriminate). lia. }
  destruct targets as [|t0 targets].
  - apply Hnz.
  - assert (h t0 < h u)%nat by (apply Hlt; left).
    assert (Hpow : (base ^ h u = base * base ^ (h u - 1))%nat).
    { replace (h u) with (S (h u - 1)) at 1 by lia. apply Nat.pow_succ_r'. }
    rewrite Hpow. specialize (Hnz (h u - 1)%nat).
    unfold base at 2. nia.
Qed.

(** Every iteration lowers the weight of the queue. *)
Lemma relax_decreases id rank queue ranks :
  (queueWeight base h (fst (relax adjacency id rank queue ranks))
   < queueWeight base h ((id, rank) :: queue))%nat.
Proof.
  rewrite relax_queue, queueWeight_app.
  assert (Hp := queueWeight_pushed id (rank + 1)%Z
                  (List.filter (needsVisit (raiseRank ranks id rank) rank)
                               (listAt adjacency id))).
  unfold queueWeight at 3. simpl. fold (queueWeight base h queue).
  assert (queueWeight base h
            (map (fun target => (target, (rank + 1)%Z))
               (List.filter (needsVisit (raiseRank ranks id rank) rank)
                  (listAt adjacency id))) < base ^ h id)%nat; [|lia].
  apply Hp.
  - intros v Hv. apply list_elem_of_In, filter_In in Hv as [Hv _].
    apply Hheight. apply list_elem_of_In. exact Hv.
  - etransitivity; [apply List.filter_length_le|apply Hdegree].
Qed.

(** With fuel for the weight of the queue the loop is left. *)
Lemma rankLoop_terminates fuel : forall queue ranks,
  (queueWeight base h queue <= fuel)%nat ->
  exists result, rankLoop fuel adjacency queue ranks = Some result.
Proof.
  induction fuel as [|fuel IH]; intros queue ranks Hw.
  - destruct queue as [|[id rank] queue]; [eexists; reflexivity|].
    exfalso. unfold queueWeight in Hw. simpl in Hw.
    assert (base ^ h id <> 0)%nat by (apply Nat.pow_nonzero; discriminate). lia.
  - destruct queue as [|[id rank] queue]; [eexists; reflexivity|].
    rewrite rankLoop_cons. apply IH.
    assert (Hd := relax_decreases id rank queue ranks). lia.
Qed.

End Termination.

End RankLoop.

(** ** The adjacency dictionaries *)

Section Adjacency.

Variables (nodes : list BPNode) (edges : list BPEdge).

Lemma emptyAdjacency_from (m : gmap string (list string)) (ns : list BPNode) (k : string) :
  foldl (fun m n => <[bp_id n := []]> m) m ns !! k =
  if decide (k ∈ ids ns) then Some [] else m !! k.
Proof.
  revert m. induction ns as [|n ns IH]; intros m; simpl.
  - destruct (decide (k ∈ ids [])) as [H|H]; [inversion H|reflexivity].
  - rewrite IH. unfold ids in *. simpl.
    destruct (decide (k ∈ map bp_id ns)) as [H|H].
    + rewrite decide_True by (right; exact H). reflexivity.
    + destruct (decide (k = bp_id n)) as [->|Hne].
      * rewrite decide_True by left. apply lookup_insert_eq.
      * rewrite decide_False.
        -- apply lookup_insert_ne. congruence.
        -- intros Hin. apply elem_of_cons in Hin as [?|?]; contradiction.
Qed.

Lemma emptyAdjacency_lookup (k : string) :
  emptyAdjacency nodes !! k = if decide (k ∈ ids nodes) then Some [] else None.
Proof. unfold emptyAdjacency. rewrite emptyAdjacency_from, lookup_empty. reflexivity. Qed.

Lemma pushIfPresent_fold (key value : BPEdge -> string) (es : list BPEdge) :
  forall (m : gmap string (list string)) (k : string),
    foldl (fun m e => pushIfPresent m (key e) (value e)) m es !! k =
    (fun l => l ++ map value (List.filter (fun e => String.eqb (key e) k) es)) <$> m !! k.
Proof.
  induction es as [|e es IH]; intros m k; simpl.
  - destruct (m !! k); simpl; [rewrite app_nil_r|]; reflexivity.
  - rewrite IH. unfold pushIfPresent.
    destruct (String.eqb (key e) k) eqn:E.
    + apply String.eqb_eq in E. subst k.
      destruct (m !! key e) as [l|] eqn:El; simpl.
      * rewrite lookup_insert_eq. simpl. rewrite <- app_assoc. reflexivity.
      * rewrite El. reflexivity.
    + apply String.eqb_neq in E.
      destruct (m !! key e) as [l|] eqn:El; [|reflexivity].
      rewrite lookup_insert_ne by exact E. reflexivity.
Qed.

Lemma adjacencyOf_listAt (u : string) :
  listAt (adjacencyOf nodes edges) u =
  if decide (u ∈ ids nodes)
  then map e_target (List.filter (fun e => String.eqb (e_source e) u) edges)
  else [].
Proof.
  unfold listAt, adjacencyOf. rewrite pushIfPresent_fold, emptyAdjacency_lookup.
  destruct (decide (u ∈ ids nodes)); reflexivity.
Qed.

Lemma inverseAdjacencyOf_listAt (v : string) :
  listAt (inverseAdjacencyOf nodes edges) v =
  if decide (v ∈ ids nodes)
  then map e_source (List.filter (fun e => String.eqb (e_target e) v) edges)
  else [].
Proof.
  unfold listAt, inverseAdjacencyOf. rewrite pushIfPresent_fold, emptyAdjacency_lookup.
  destruct (decide (v ∈ ids nodes)); reflexivity.
Qed.

Lemma adjacencyOf_elem (u v : string) :
  v ∈ listAt (adjacencyOf nodes edges) u <-> u ∈ ids nodes /\ edgeOf edges u v.
Proof.
  rewrite adjacencyOf_listAt. destruct (decide (u ∈ ids nodes)) as [Hu|Hu].
  - rewrite list_elem_of_In, in_map_iff. split.
    + intros (e & <- & He). apply filter_In in He as [He Hs].
      apply String.eqb_eq in Hs. split; [exact Hu|].
      exists e. rewrite list_elem_of_In. auto.
    + intros (_ & e & He & Hs & Ht). exists e. split; [exact Ht|].
      apply filter_In. split; [apply list_elem_of_In; exact He|].
      apply String.eqb_eq. exact Hs.
  - split; [intros H; inversion H|intros [? _]; contradiction].
Qed.

Lemma inverseAdjacencyOf_elem (u v : string) :
  u ∈ listAt (inverseAdjacencyOf nodes edges) v <-> v ∈ ids nodes /\ edgeOf edges u v.
Proof.
  rewrite inverseAdjacencyOf_listAt. destruct (decide (v ∈ ids nodes)) as [Hv|Hv].
  - rewrite list_elem_of_In, in_map_iff. split.
    + intros (e & <- & He). apply filter_In in He as [He Ht].
      apply String.eqb_eq in Ht. split; [exact Hv|].
      exists e. rewrite list_elem_of_In. auto.
    + intros (_ & e & He & Hs & Ht). exists e. split; [exact Hs|].
      apply filter_In. split; [apply list_elem_of_In; exact He|].
      apply String.eqb_eq. exact Ht.
  - split; [intros H; inversion H|intros [? _]; contradiction].
Qed.

Lemma adjacencyOf_degree (u : string) :
  (length (listAt (adjacencyOf nodes edges) u) <= length edges)%nat.
Proof.
  rewrite adjacencyOf_listAt. destruct (decide (u ∈ ids nodes)); simpl; [|lia].
  rewrite length_map. apply List.filter_length_le.
Qed.

(** The nodes that seed the queue: those without an incoming edge. *)
Lemma initialQueue_seeds (v : string) :
  v ∈ ids nodes ->
  listAt (inverseAdjacencyOf nodes edges) v = [] ->
  (v, 0%Z) ∈ initialQueue (inverseAdjacencyOf nodes edges) nodes.
Proof.
  intros Hv Hnil.
  assert (Hq : (v, 0%Z) ∈ map (fun n => (bp_id n, 0%Z))
                            (sourcesOf (inverseAdjacencyOf nodes edges) nodes)).
  { unfold ids in Hv. apply list_elem_of_In, in_map_iff in Hv as (n & <- & Hn).
    apply list_elem_of_In, in_map_iff. exists n. split; [reflexivity|].
    apply filter_In. split; [exact Hn|]. rewrite Hnil. reflexivity. }
  unfold initialQueue.
  destruct (map _ (sourcesOf _ nodes)) as [|q qs]; [inversion Hq|].
  exact Hq.
Qed.

Lemma initialQueue_ranks (v : string) (k : Z) :
  (v, k) ∈ initialQueue (inverseAdjacencyOf nodes edges) nodes -> k = 0%Z.
Proof.
  unfold initialQueue.
  destruct (map _ (sourcesOf _ nodes)) as [|q qs] eqn:E.
  - destruct nodes as [|n0 ns]; [intros H; inversion H|].
    intros H. apply list_elem_of_singleton in H. congruence.
  - rewrite <- E. intros H.
    apply list_elem_of_In, in_map_iff in H as (n & [= _ <-] & _). reflexivity.
Qed.

End Adjacency.

(** ** What the rank assignment establishes *)

Section Ranking.

Variables (nodes : list BPNode) (edges : list BPEdge).

Let adjacency := adjacencyOf nodes edges.
Let inverse := inverseAdjacencyOf nodes edges.
Let seeds := map fst (initialQueue inverse nodes).

(** When the loop is left, every ranked node has passed its rank on, every
    seed is ranked, and no rank is negative. *)
Lemma assignRanks_result fuel ranks :
  assignRanks fuel nodes edges = Some ranks ->
  relaxed adjacency [] ranks /\ seeded seeds [] ranks /\ nonneg [] ranks.
Proof.
  unfold assignRanks. intros Hrun.
  apply (rankLoop_invariant adjacency
           (fun q r => relaxed adjacency q r /\ seeded seeds q r /\ nonneg q r))
    in Hrun; [exact Hrun| |].
  - intros id rank queue r (H1 & H2 & H3).
    split; [apply relaxed_step; exact H1|].
    split; [apply seeded_step; exact H2|apply nonneg_step; exact H3].
  - split; [|split].
    + intros u ru v Hu. rewrite lookup_empty in Hu. discriminate.
    + intros s Hs. right. subst seeds.
      apply list_elem_of_In, in_map_iff in Hs as ([s' k] & <- & Hin).
      exists k. apply list_elem_of_In. exact Hin.
    + split.
      * intros v k Hin. apply initialQueue_ranks in Hin. lia.
      * intros v k Hv. rewrite lookup_empty in Hv. discriminate.
Qed.

Lemma rankOf_nonneg fuel ranks id :
  assignRanks fuel nodes edges = Some ranks -> (0 <= rankOf ranks id)%Z.
Proof.
  intros Hrun. apply assignRanks_result in Hrun as (_ & _ & _ & Hr).
  unfold rankOf. destruct (ranks !! id) as [k|] eqn:E; simpl; [|lia].
  eapply Hr; eassumption.
Qed.

Section WithHeight.

Variable h : string -> nat.
Hypothesis Hheight : heightOn edges h.

Lemma adjacency_height u v : v ∈ listAt adjacency u -> (h v < h u)%nat.
Proof.
  intros Hv. apply adjacencyOf_elem in Hv as (_ & e & He & <- & <-).
  apply Hheight. exact He.
Qed.

(** On a graph with a height the loop is left. *)
Lemma assignRanks_terminates :
  exists fuel ranks, assignRanks fuel nodes edges = Some ranks.
Proof.
  exists (queueWeight (S (length edges)) h (initialQueue inverse nodes)).
  apply (rankLoop_terminates adjacency h (length edges)).
  - exact adjacency_height.
  - intros u. apply adjacencyOf_degree.
  - apply Nat.le_refl.
Qed.

Hypothesis Hknown : sourcesKnown nodes edges.

(** Every given node is reached. *)
Lemma assignRanks_all_ranked fuel ranks :
  assignRanks fuel nodes edges = Some ranks ->
  forall v, v ∈ ids nodes -> is_Some (ranks !! v).
Proof.
  intros Hrun. apply assignRanks_result in Hrun as (Hrel & Hseed & _).
  set (top := list_max (map h (ids nodes))).
  assert (Htop : forall v, v ∈ ids nodes -> (h v <= top)%nat).
  { intros v Hv. subst top.
    assert (Hall := proj1 (list_max_le (map h (ids nodes)) _) (Nat.le_refl _)).
    rewrite List.Forall_forall in Hall. apply Hall.
    apply in_map. apply list_elem_of_In. exact Hv. }
  assert (Hind : forall n v, v ∈ ids nodes -> (top - h v < n)%nat -> is_Some (ranks !! v)).
  { induction n as [|n IH]; intros v Hv Hn; [lia|].
    destruct (listAt inverse v) as [|u us] eqn:Einv.
    - assert (Hq := initialQueue_seeds nodes edges v Hv Einv).
      destruct (Hseed v) as [Hs|(k & Hk)]; [|exact Hs|inversion Hk].
      subst seeds. apply list_elem_of_In, in_map_iff.
      exists (v, 0%Z). split; [reflexivity|]. apply list_elem_of_In. exact Hq.
    - assert (Hu : u ∈ listAt inverse v) by (rewrite Einv; left).
      apply inverseAdjacencyOf_elem in Hu as (_ & e & He & Hs & Ht).
      assert (Hun : u ∈ ids nodes).
      { rewrite <- Hs. apply Hknown; [exact He|]. rewrite Ht. exact Hv. }
      assert (Hlt : (h v < h u)%nat).
      { rewrite <- Hs, <- Ht. apply Hheight. exact He. }
      specialize (Htop u Hun).
      destruct (IH u Hun ltac:(lia)) as [ru Hru].
      destruct (Hrel u ru v Hru) as [(rv & Hrv & _)|(k & Hk & _)];
        [|eauto|inversion Hk].
      apply adjacencyOf_elem. split; [exact Hun|]. exists e. auto. }
  intros v Hv. apply (Hind (S (top - h v)) v Hv). lia.
Qed.

(** Along every edge between given nodes the rank grows. *)
Lemma assignRanks_edges fuel ranks :
  assignRanks fuel nodes edges = Some ranks ->
  forall e, e ∈ edges -> e_source e ∈ ids nodes ->
    (rankOf ranks (e_source e) + 1 <= rankOf ranks (e_target e))%Z.
Proof.
  intros Hrun e He Hs.
  destruct (assignRanks_all_ranked fuel ranks Hrun _ Hs) as [ru Hru].
  apply assignRanks_result in Hrun as (Hrel & _ & _).
  destruct (Hrel (e_source e) ru (e_target e) Hru) as [(rv & Hrv & Hle)|(k & Hk & _)];
    [| |inversion Hk].
  - apply adjacencyOf_elem. split; [exact Hs|]. exists e. auto.
  - unfold rankOf. rewrite Hru, Hrv. simpl. exact Hle.
Qed.

End WithHeight.

End Ranking.

(** ** Acyclic graphs have a height *)

Section Acyclic.

Variable edges : list BPEdge.

Lemma heightOn_walk (h : string -> nat) u v :
  heightOn edges h -> walk edges u v -> (h v < h u)%nat.
Proof.
  intros Hh Hw. induction Hw as [u v (e & He & <- & <-)|u v w (e & He & <- & <-) _ IH].
  - apply Hh. exact He.
  - specialize (Hh e He). lia.
Qed.

(** A graph with a height has no cycle. *)
Lemma heightOn_acyclic (h : string -> nat) : heightOn edges h -> acyclic edges.
Proof.
  intros Hh u Hw. apply (heightOn_walk h) in Hw; [lia|exact Hh].
Qed.

Lemma chain_app u vs ws :
  chain edges u (vs ++ ws) -> chain edges u vs.
Proof.
  revert u. induction vs as [|v vs IH]; intros u; simpl; [trivial|].
  intros [He Hc]. split; [exact He|]. apply IH. exact Hc.
Qed.

Lemma chain_walk u vs w : chain edges u (vs ++ [w]) -> walk edges u w.
Proof.
  revert u. induction vs as [|v vs IH]; intros u; simpl.
  - intros [He _]. apply walk_edge. exact He.
  - intros [He Hc]. eapply walk_step; [exact He|]. apply IH. exact Hc.
Qed.

Lemma chain_targets u vs :
  chain edges u vs -> forall v, v ∈ vs -> v ∈ map e_target edges.
Proof.
  revert u. induction vs as [|w vs IH]; intros u Hc v Hv; [inversion Hv|].
  destruct Hc as [(e & He & _ & Ht) Hc].
  apply elem_of_cons in Hv as [->|Hv].
  - rewrite <- Ht. apply list_elem_of_In, in_map, list_elem_of_In. exact He.
  - eapply IH; eassumption.
Qed.

Hypothesis Hacyclic : acyclic edges.

(** Without a cycle a chain visits no vertex twice, so it is no longer than
    the edge list. *)
Lemma chain_NoDup u vs : chain edges u vs -> NoDup vs.
Proof.
  revert u. induction vs as [|v vs IH]; intros u Hc; [constructor|].
  destruct Hc as [_ Hc]. apply NoDup_cons. split; [|eapply IH; exact Hc].
  intros Hin. apply list_elem_of_split in Hin as (l1 & l2 & ->).
  apply (Hacyclic v). apply (chain_walk v l1).
  apply (chain_app v (l1 ++ [v]) l2). rewrite <- app_assoc. exact Hc.
Qed.

Lemma chain_length u vs : chain edges u vs -> (length vs <= length edges)%nat.
Proof.
  intros Hc. rewrite <- (length_map e_target edges).
  apply submseteq_length, NoDup_submseteq.
  - eapply chain_NoDup. exact Hc.
  - eapply chain_targets. exact Hc.
Qed.

Lemma list_max_attained (l : list nat) : l <> [] -> In (list_max l) l.
Proof.
  induction l as [|x l IH]; [congruence|]. intros _.
  destruct l as [|y l].
  - left. simpl. lia.
  - change (list_max (x :: y :: l)) with (Nat.max x (list_max (y :: l))).
    destruct (Nat.max_spec x (list_max (y :: l))) as [[_ ->]|[_ ->]].
    + right. apply IH. discriminate.
    + left. reflexivity.
Qed.

Lemma list_max_ge (l : list nat) x : In x l -> (x <= list_max l)%nat.
Proof.
  intros Hx.
  assert (H := proj1 (list_max_le l (list_max l)) (Nat.le_refl _)).
  rewrite List.Forall_forall in H. apply H. exact Hx.
Qed.

(** [longest k u] is the length of some chain out of [u]. *)
Lemma longest_chain k : forall u,
  exists vs, length vs = longest edges k u /\ chain edges u vs.
Proof.
  induction k as [|k IH]; intros u; [exists []; split; [reflexivity|exact I]|].
  simpl. set (out := List.filter (fun e => String.eqb (e_source e) u) edges).
  destruct out as [|e0 out0] eqn:E.
  - exists []. split; [reflexivity|exact I].
  - rewrite <- E.
    assert (Hne : map (fun e => S (longest edges k (e_target e))) out <> [])
      by (rewrite E; discriminate).
    apply list_max_attained in Hne.
    apply in_map_iff in Hne as (e & Hval & He).
    subst out. apply filter_In in He as [He Hs]. apply String.eqb_eq in Hs.
    destruct (IH (e_target e)) as (vs & Hlen & Hc).
    exists (e_target e :: vs). split.
    + simpl. rewrite Hlen. exact Hval.
    + split; [|exact Hc]. exists e. rewrite list_elem_of_In. auto.
Qed.

(** [longest k u] dominates every chain of at most [k] edges out of [u]. *)
Lemma chain_le_longest k : forall u vs,
  chain edges u vs -> (length vs <= k)%nat -> (length vs <= longest edges k u)%nat.
Proof.
  induction k as [|k IH]; intros u vs Hc Hlen; [simpl; lia|].
  destruct vs as [|v vs]; [simpl; lia|].
  destruct Hc as [(e & He & Hs & Ht) Hc]. simpl in Hlen.
  assert (Hvs := IH v vs Hc ltac:(lia)).
  change (longest edges (S k) u) with
    (list_max (map (fun e => S (longest edges k (e_target e)))
                   (List.filter (fun e => String.eqb (e_source e) u) edges))).
  etransitivity; [|apply list_max_ge].
  2:{ apply in_map_iff. exists e. split; [reflexivity|].
      apply filter_In. split; [apply list_elem_of_In; exact He|].
      apply String.eqb_eq. exact Hs. }
  rewrite Ht. simpl. lia.
Qed.

(** The longest walk out of a vertex is a height. *)
Lemma acyclic_height : heightOn edges (longest edges (length edges)).
Proof.
  intros e He.
  destruct (longest_chain (length edges) (e_target e)) as (vs & Hlen & Hc).
  assert (Hc' : chain edges (e_source e) (e_target e :: vs)).
  { split; [|exact Hc]. exists e. auto. }
  assert (Hb := chain_length _ _ Hc').
  assert (Hl := chain_le_longest (length edges) _ _ Hc' Hb).
  simpl in Hl. lia.
Qed.

End Acyclic.

(** ** Rounding to the nearest double *)

Section DoubleFacts.

Local Open Scope Q_scope.


Lemma pow2_pos e : 0 < Double.pow2 e.
Proof. apply Qpower_0_lt. reflexivity. Qed.

Lemma pow2_succ e : Double.pow2 (e + 1) == 2 * Double.pow2 e.
Proof. unfold Double.pow2. rewrite Qpower_plus by discriminate. simpl (2 ^ 1). ring. Qed.

Lemma pow2_plus a b : Double.pow2 (a + b) == Double.pow2 a * Double.pow2 b.
Proof. unfold Double.pow2. apply Qpower_plus. discriminate. Qed.

Lemma pow2_le a b : (a <= b)%Z -> Double.pow2 a <= Double.pow2 b.
Proof. intros H. apply Qpower_le_compat_l; [exact H|discriminate]. Qed.

Lemma pow2_lt a b : (a < b)%Z -> Double.pow2 a < Double.pow2 b.
Proof. intros H. apply Qpower_lt_compat_l; [exact H|reflexivity]. Qed.

Lemma pow2_lt_inv a b : Double.pow2 a < Double.pow2 b -> (a < b)%Z.
Proof. intros H. apply (Qpower_lt_compat_l_inv 2); [exact H|reflexivity]. Qed.

Lemma pow2_Z a : (0 <= a)%Z -> inject_Z (2 ^ a) == Double.pow2 a.
Proof. intros H. unfold Double.pow2. rewrite Zpower_Qpower by exact H. reflexivity. Qed.

Lemma ilog2_spec x : 0 < x ->
  Double.pow2 (Double.ilog2 x) <= x /\ x < Double.pow2 (Double.ilog2 x + 1).
Proof.
  intros Hx. unfold Double.ilog2.
  set (n := Qnum x). set (d := Zpos (Qden x)).
  assert (Hn : (0 < n)%Z).
  { subst n. destruct x as [xn xd]. unfold Qlt in Hx. simpl in *. lia. }
  assert (Hd : (0 < d)%Z) by (subst d; lia).
  set (a := Z.log2 n). set (b := Z.log2 d).
  destruct (Z.log2_spec n Hn) as [Ha1 Ha2]. fold a in Ha1, Ha2.
  destruct (Z.log2_spec d Hd) as [Hb1 Hb2]. fold b in Hb1, Hb2.
  assert (Ha0 : (0 <= a)%Z) by apply Z.log2_nonneg.
  assert (Hb0 : (0 <= b)%Z) by apply Z.log2_nonneg.
  assert (HxQ : x == inject_Z n / inject_Z d).
  { subst n d. destruct x as [xn xd]. simpl. apply Qmake_Qdiv. }
  set (N := inject_Z n) in *. set (D := inject_Z d) in *.
  assert (HA1 : Double.pow2 a <= N).
  { rewrite <- pow2_Z by exact Ha0. subst N. rewrite <- Zle_Qle. exact Ha1. }
  assert (HA2 : N < 2 * Double.pow2 a).
  { rewrite <- pow2_succ, <- pow2_Z by lia. subst N. rewrite <- Zlt_Qlt.
    replace (a + 1)%Z with (Z.succ a) by lia. exact Ha2. }
  assert (HB1 : Double.pow2 b <= D).
  { rewrite <- pow2_Z by exact Hb0. subst D. rewrite <- Zle_Qle. exact Hb1. }
  assert (HB2 : D < 2 * Double.pow2 b).
  { rewrite <- pow2_succ, <- pow2_Z by lia. subst D. rewrite <- Zlt_Qlt.
    replace (b + 1)%Z with (Z.succ b) by lia. exact Hb2. }
  assert (HD : 0 < D) by (subst D; rewrite <- (Zlt_Qlt 0); exact Hd).
  assert (HK : Double.pow2 a == Double.pow2 (a - b) * Double.pow2 b).
  { rewrite <- pow2_plus. replace (a - b + b)%Z with a by lia. reflexivity. }
  assert (HPa := pow2_pos a). assert (HPb := pow2_pos b). assert (HPk := pow2_pos (a - b)).
  assert (HxD : x * D == N).
  { rewrite HxQ. field. intros H0. rewrite H0 in HD. discriminate. }
  destruct (Qle_bool (Double.pow2 (a - b)) x) eqn:E.
  - apply Qle_bool_iff in E. split; [exact E|].
    rewrite pow2_succ. nra.
  - assert (E' : x < Double.pow2 (a - b)).
    { apply Qnot_le_lt. intros H. apply Qle_bool_iff in H. congruence. }
    split.
    + assert (Hs : Double.pow2 (a - b) == 2 * Double.pow2 (a - b - 1)).
      { rewrite <- pow2_succ. replace (a - b - 1 + 1)%Z with (a - b)%Z by lia. reflexivity. }
      assert (HPk1 := pow2_pos (a - b - 1)). nra.
    + replace (a - b - 1 + 1)%Z with (a - b)%Z by lia. exact E'.
Qed.

Lemma ilog2_unique x k :
  Double.pow2 k <= x -> x < Double.pow2 (k + 1) -> Double.ilog2 x = k.
Proof.
  intros H1 H2.
  assert (Hx : 0 < x) by (eapply Qlt_le_trans; [apply (pow2_pos k)|exact H1]).
  destruct (ilog2_spec x Hx) as [H3 H4].
  assert (Double.ilog2 x < k + 1)%Z
    by (apply pow2_lt_inv; eapply Qle_lt_trans; eassumption).
  assert (k < Double.ilog2 x + 1)%Z
    by (apply pow2_lt_inv; eapply Qle_lt_trans; eassumption).
  lia.
Qed.

Lemma ilog2_comp x y : 0 < x -> x == y -> Double.ilog2 x = Double.ilog2 y.
Proof.
  intros Hx Hxy. destruct (ilog2_spec x Hx) as [H1 H2].
  symmetry. apply ilog2_unique; rewrite <- Hxy; assumption.
Qed.

Lemma ilog2_mono x y : 0 < x -> x <= y -> (Double.ilog2 x <= Double.ilog2 y)%Z.
Proof.
  intros Hx Hxy.
  assert (Hy : 0 < y) by (eapply Qlt_le_trans; eassumption).
  destruct (ilog2_spec x Hx) as [H1 _]. destruct (ilog2_spec y Hy) as [_ H2].
  assert (Double.ilog2 x < Double.ilog2 y + 1)%Z; [|lia].
  apply pow2_lt_inv. eapply Qle_lt_trans; [exact H1|].
  eapply Qle_lt_trans; eassumption.
Qed.

Lemma nearestEven_error z :
  inject_Z (Double.nearestEven z) - (1 # 2) <= z /\
  z <= inject_Z (Double.nearestEven z) + (1 # 2).
Proof.
  unfold Double.nearestEven.
  assert (H1 := Qfloor_le z). assert (H2 := Qlt_floor z).
  rewrite inject_Z_plus in H2. change (inject_Z 1) with 1 in H2.
  destruct (Qcompare_spec (z - inject_Z (Qfloor z)) (1 # 2)) as [E|E|E].
  - destruct (Z.even (Qfloor z)); rewrite ?inject_Z_plus; change (inject_Z 1) with 1; lra.
  - lra.
  - rewrite inject_Z_plus. change (inject_Z 1) with 1. lra.
Qed.

Lemma nearestEven_comp x y : x == y -> Double.nearestEven x = Double.nearestEven y.
Proof.
  intros H. unfold Double.nearestEven.
  rewrite (Qfloor_comp x y H).
  assert (Hc : (x - inject_Z (Qfloor y) ?= 1 # 2) = (y - inject_Z (Qfloor y) ?= 1 # 2)).
  { apply Qcompare_comp; [rewrite H; reflexivity|reflexivity]. }
  rewrite Hc. reflexivity.
Qed.

Lemma nearestEven_mono x y : x <= y -> (Double.nearestEven x <= Double.nearestEven y)%Z.
Proof.
  intros Hxy.
  destruct (Z.le_gt_cases (Double.nearestEven x) (Double.nearestEven y)) as [H|H];
    [exact H|exfalso].
  destruct (nearestEven_error x) as [Hx _]. destruct (nearestEven_error y) as [_ Hy].
  assert (Hz : inject_Z (Double.nearestEven y) + 1 <= inject_Z (Double.nearestEven x)).
  { change 1 with (inject_Z 1). rewrite <- inject_Z_plus, <- Zle_Qle. lia. }
  assert (Heq : x == y) by (apply Qle_antisym; lra).
  apply nearestEven_comp in Heq. lia.
Qed.

Lemma nearestEven_Z n : Double.nearestEven (inject_Z n) = n.
Proof.
  unfold Double.nearestEven. rewrite Qfloor_Z.
  assert (H : inject_Z n - inject_Z n < 1 # 2).
  { unfold Qminus. rewrite Qplus_opp_r. reflexivity. }
  destruct (Qcompare_spec (inject_Z n - inject_Z n) (1 # 2)) as [E|E|E];
    [rewrite E in H; discriminate|reflexivity|].
  exfalso. exact (Qlt_irrefl _ (Qlt_trans _ _ _ H E)).
Qed.

(** The significand of a positive number has 53 bits. *)
Lemma significand_range x : 0 < x ->
  let e := (Double.ilog2 x - 52)%Z in
  Double.pow2 52 <= x / Double.pow2 e /\ x / Double.pow2 e < Double.pow2 53 /\
  (2 ^ 52 <= Double.nearestEven (x / Double.pow2 e) <= 2 ^ 53)%Z.
Proof.
  intros Hx e. destruct (ilog2_spec x Hx) as [H1 H2].
  assert (Hp := pow2_pos e).
  assert (Ha : Double.pow2 (Double.ilog2 x) == Double.pow2 52 * Double.pow2 e).
  { rewrite <- pow2_plus. subst e. replace (52 + (Double.ilog2 x - 52))%Z
      with (Double.ilog2 x) by lia. reflexivity. }
  assert (Hb : Double.pow2 (Double.ilog2 x + 1) == Double.pow2 53 * Double.pow2 e).
  { rewrite <- pow2_plus. subst e. replace (53 + (Double.ilog2 x - 52))%Z
      with (Double.ilog2 x + 1)%Z by lia. reflexivity. }
  assert (Hlo : Double.pow2 52 <= x / Double.pow2 e).
  { apply Qle_shift_div_l; [exact Hp|]. rewrite <- Ha. exact H1. }
  assert (Hhi : x / Double.pow2 e < Double.pow2 53).
  { apply Qlt_shift_div_r; [exact Hp|]. rewrite <- Hb. exact H2. }
  split; [exact Hlo|]. split; [exact Hhi|].
  destruct (nearestEven_error (x / Double.pow2 e)) as [E1 E2].
  set (m := Double.nearestEven (x / Double.pow2 e)) in *.
  rewrite <- (pow2_Z 52) in Hlo by lia. rewrite <- (pow2_Z 53) in Hhi by lia.
  split.
  - assert (H : inject_Z (2 ^ 52 + -1) < inject_Z m).
    { rewrite inject_Z_plus. change (inject_Z (-1)) with (-1). lra. }
    rewrite <- Zlt_Qlt in H. lia.
  - assert (H : inject_Z m < inject_Z (2 ^ 53 + 1)).
    { rewrite inject_Z_plus. change (inject_Z 1) with 1. lra. }
    rewrite <- Zlt_Qlt in H. lia.
Qed.

Lemma scaled_bounds x : 0 < x ->
  Double.pow2 (Double.ilog2 x) <= Double.scaled x /\
  Double.scaled x <= Double.pow2 (Double.ilog2 x + 1).
Proof.
  intros Hx. destruct (significand_range x Hx) as (_ & _ & Hm1 & Hm2).
  unfold Double.scaled. rewrite Qred_correct. set (e := (Double.ilog2 x - 52)%Z) in *.
  set (m := Double.nearestEven (x / Double.pow2 e)) in *.
  assert (Hp := pow2_pos e).
  assert (Ha : Double.pow2 (Double.ilog2 x) == Double.pow2 52 * Double.pow2 e).
  { rewrite <- pow2_plus. subst e. replace (52 + (Double.ilog2 x - 52))%Z
      with (Double.ilog2 x) by lia. reflexivity. }
  assert (Hb : Double.pow2 (Double.ilog2 x + 1) == Double.pow2 53 * Double.pow2 e).
  { rewrite <- pow2_plus. subst e. replace (53 + (Double.ilog2 x - 52))%Z
      with (Double.ilog2 x + 1)%Z by lia. reflexivity. }
  rewrite Ha, Hb, <- (pow2_Z 52), <- (pow2_Z 53) by lia.
  rewrite Zle_Qle in Hm1, Hm2.
  split; apply Qmult_le_compat_r; auto using Qlt_le_weak.
Qed.

Lemma scaled_pos x : 0 < x -> 0 < Double.scaled x.
Proof.
  intros Hx. eapply Qlt_le_trans; [apply (pow2_pos (Double.ilog2 x))|].
  apply scaled_bounds. exact Hx.
Qed.

Lemma scaled_error x : 0 < x ->
  x * (1 - Double.epsilon) <= Double.scaled x /\ Double.scaled x <= x * (1 + Double.epsilon).
Proof.
  intros Hx. destruct (significand_range x Hx) as (Hlo & _ & _).
  unfold Double.scaled. rewrite Qred_correct. set (e := (Double.ilog2 x - 52)%Z) in *.
  destruct (nearestEven_error (x / Double.pow2 e)) as [E1 E2].
  set (m := inject_Z (Double.nearestEven (x / Double.pow2 e))) in *.
  assert (Hp := pow2_pos e). set (p := Double.pow2 e) in *.
  assert (H52 : Double.pow2 52 == 4503599627370496) by reflexivity.
  rewrite H52 in Hlo.
  assert (Hz : x / p * p == x) by (field; intros H0; rewrite H0 in Hp; discriminate).
  set (z := x / p) in *. unfold Double.epsilon.
  split; nra.
Qed.

Lemma scaled_comp x y : 0 < x -> x == y -> Double.scaled x == Double.scaled y.
Proof.
  intros Hx Hxy. unfold Double.scaled. rewrite !Qred_correct.
  rewrite <- (ilog2_comp x y Hx Hxy).
  rewrite (nearestEven_comp (x / Double.pow2 (Double.ilog2 x - 52))
             (y / Double.pow2 (Double.ilog2 x - 52)))
    by (unfold Qdiv; apply Qmult_comp; [exact Hxy|reflexivity]).
  reflexivity.
Qed.

Lemma scaled_mono x y : 0 < x -> x <= y -> Double.scaled x <= Double.scaled y.
Proof.
  intros Hx Hxy.
  assert (Hy : 0 < y) by (eapply Qlt_le_trans; eassumption).
  assert (He := ilog2_mono x y Hx Hxy).
  destruct (Z.eq_dec (Double.ilog2 x) (Double.ilog2 y)) as [Heq|Hne].
  - unfold Double.scaled. rewrite !Qred_correct, <- Heq.
    assert (Hp := pow2_pos (Double.ilog2 x - 52)).
    apply Qmult_le_compat_r; [|apply Qlt_le_weak; exact Hp].
    rewrite <- Zle_Qle. apply nearestEven_mono.
    apply Qmult_le_compat_r; [exact Hxy|].
    apply Qlt_le_weak, Qinv_lt_0_compat. exact Hp.
  - destruct (scaled_bounds x Hx) as [_ H1]. destruct (scaled_bounds y Hy) as [H2 _].
    eapply Qle_trans; [exact H1|]. eapply Qle_trans; [|exact H2].
    apply pow2_le. lia.
Qed.

Lemma scaled_exact m e : (2 ^ 52 <= m <= 2 ^ 53)%Z ->
  Double.scaled (inject_Z m * Double.pow2 e) == inject_Z m * Double.pow2 e.
Proof.
  intros [Hm1 Hm2]. assert (Hp := pow2_pos e).
  assert (Hne : ~ Double.pow2 e == 0) by (intros H0; rewrite H0 in Hp; discriminate).
  destruct (Z.eq_dec m (2 ^ 53)%Z) as [->|Hlt].
  - assert (Hv : inject_Z (2 ^ 53) * Double.pow2 e == Double.pow2 (e + 53)).
    { rewrite pow2_plus, (pow2_Z 53) by lia. ring. }
    assert (Hlog : Double.ilog2 (inject_Z (2 ^ 53) * Double.pow2 e) = (e + 53)%Z).
    { apply ilog2_unique; rewrite Hv; [apply Qle_refl|apply pow2_lt; lia]. }
    unfold Double.scaled. rewrite Qred_correct, Hlog.
    replace (e + 53 - 52)%Z with (e + 1)%Z by lia.
    assert (Hp1 := pow2_pos (e + 1)).
    rewrite (nearestEven_comp _ (inject_Z (2 ^ 52))).
    + rewrite nearestEven_Z, pow2_succ.
      change (inject_Z (2 ^ 52)) with 4503599627370496.
      change (inject_Z (2 ^ 53)) with 9007199254740992. ring.
    + rewrite pow2_succ.
      change (inject_Z (2 ^ 52)) with 4503599627370496.
      change (inject_Z (2 ^ 53)) with 9007199254740992. field. exact Hne.
  - assert (Hlog : Double.ilog2 (inject_Z m * Double.pow2 e) = (e + 52)%Z).
    { apply ilog2_unique.
      - rewrite pow2_plus, (Qmult_comm (Double.pow2 e)), <- (pow2_Z 52) by lia.
        apply Qmult_le_compat_r; [rewrite <- Zle_Qle; exact Hm1|apply Qlt_le_weak; exact Hp].
      - replace (e + 52 + 1)%Z with (53 + e)%Z by lia.
        rewrite pow2_plus, <- (pow2_Z 53) by lia.
        apply Qmult_lt_compat_r; [exact Hp|]. rewrite <- Zlt_Qlt. lia. }
    unfold Double.scaled. rewrite Qred_correct, Hlog.
    replace (e + 52 - 52)%Z with e by lia.
    rewrite (nearestEven_comp _ (inject_Z m)) by (field; exact Hne).
    rewrite nearestEven_Z. reflexivity.
Qed.

Lemma scaled_idem x : 0 < x -> Double.scaled (Double.scaled x) == Double.scaled x.
Proof.
  intros Hx. destruct (significand_range x Hx) as (_ & _ & Hm).
  rewrite (scaled_comp (Double.scaled x)
             (inject_Z (Double.nearestEven (x / Double.pow2 (Double.ilog2 x - 52)))
              * Double.pow2 (Double.ilog2 x - 52))).
  - rewrite scaled_exact by exact Hm. unfold Double.scaled. rewrite Qred_correct. reflexivity.
  - apply scaled_pos. exact Hx.
  - unfold Double.scaled. apply Qred_correct.
Qed.

Lemma round_zero x : x == 0 -> Double.round x = 0.
Proof.
  intros H. unfold Double.round.
  destruct (Qcompare_spec x 0) as [E|E|E]; [reflexivity|lra|lra].
Qed.

Lemma round_positive x : 0 < x -> Double.round x = Double.scaled x.
Proof.
  intros H. unfold Double.round.
  destruct (Qcompare_spec x 0) as [E|E|E]; [lra|lra|reflexivity].
Qed.

Lemma round_negative x : x < 0 -> Double.round x = - Double.scaled (- x).
Proof.
  intros H. unfold Double.round.
  destruct (Qcompare_spec x 0) as [E|E|E]; [lra|reflexivity|lra].
Qed.

Lemma round_cases x :
  (x == 0 /\ Double.round x = 0) \/
  (0 < x /\ Double.round x = Double.scaled x) \/
  (x < 0 /\ Double.round x = - Double.scaled (- x)).
Proof.
  destruct (Qcompare_spec x 0) as [E|E|E].
  - left. split; [exact E|apply round_zero; exact E].
  - right. right. split; [exact E|apply round_negative; exact E].
  - right. left. split; [exact E|apply round_positive; exact E].
Qed.

Lemma round_comp x y : x == y -> Double.round x == Double.round y.
Proof.
  intros Hxy. destruct (round_cases x) as [[Hx ->]|[[Hx ->]|[Hx ->]]].
  - rewrite round_zero by (rewrite <- Hxy; exact Hx). reflexivity.
  - rewrite round_positive by (rewrite <- Hxy; exact Hx).
    apply scaled_comp; assumption.
  - rewrite round_negative by (rewrite <- Hxy; exact Hx).
    apply Qopp_comp, scaled_comp; [lra|rewrite Hxy; reflexivity].
Qed.

Lemma round_nonneg x : 0 <= x -> 0 <= Double.round x.
Proof.
  intros H. destruct (round_cases x) as [[Hx ->]|[[Hx ->]|[Hx _]]].
  - apply Qle_refl.
  - apply Qlt_le_weak, scaled_pos. exact Hx.
  - lra.
Qed.

(** The sign of a number is the sign of its rounding. *)
Lemma round_sign x : Double.round x <= 0 <-> x <= 0.
Proof.
  destruct (round_cases x) as [[Hx ->]|[[Hx ->]|[Hx ->]]].
  - split; intros _; lra.
  - assert (H := scaled_pos x Hx). split; intros; lra.
  - assert (H : 0 < Double.scaled (- x)) by (apply scaled_pos; lra). split; intros; lra.
Qed.

(** Rounding loses at most the relative error [2^-53]. *)
Lemma round_lower x : 0 <= x -> x * (1 - Double.epsilon) <= Double.round x.
Proof.
  intros H. destruct (round_cases x) as [[Hx ->]|[[Hx ->]|[Hx _]]].
  - rewrite Hx. unfold Double.epsilon. lra.
  - apply scaled_error. exact Hx.
  - lra.
Qed.

Lemma round_upper x : 0 <= x -> Double.round x <= x * (1 + Double.epsilon).
Proof.
  intros H. destruct (round_cases x) as [[Hx ->]|[[Hx ->]|[Hx _]]].
  - rewrite Hx. unfold Double.epsilon. lra.
  - apply scaled_error. exact Hx.
  - lra.
Qed.

Lemma round_mono x y : 0 <= x -> x <= y -> Double.round x <= Double.round y.
Proof.
  intros Hx Hxy. destruct (round_cases x) as [[Hx0 ->]|[[Hx0 ->]|[Hx0 _]]].
  - apply round_nonneg. lra.
  - rewrite round_positive by lra. apply scaled_mono; assumption.
  - lra.
Qed.

(** A rounded number is a double: rounding leaves it as it is. *)
Lemma round_idem x : Double.round (Double.round x) == Double.round x.
Proof.
  destruct (round_cases x) as [[Hx ->]|[[Hx ->]|[Hx ->]]].
  - reflexivity.
  - rewrite round_positive by (apply scaled_pos; exact Hx). apply scaled_idem. exact Hx.
  - assert (Hs : 0 < Double.scaled (- x)) by (apply scaled_pos; lra).
    rewrite round_negative by lra.
    apply Qopp_comp.
    rewrite (scaled_comp (- - Double.scaled (- x)) (Double.scaled (- x))) by
      (try lra; ring).
    apply scaled_idem. lra.
Qed.

(** Integers up to [2^53] are doubles. *)
Lemma round_Z n : (0 <= n <= 2 ^ 53)%Z -> Double.round (inject_Z n) == inject_Z n.
Proof.
  intros [Hn0 Hn]. destruct (Z.eq_dec n 0%Z) as [->|Hne]; [reflexivity|].
  assert (Hpos : (0 < n)%Z) by lia.
  assert (HposQ : 0 < inject_Z n) by (rewrite <- (Zlt_Qlt 0); exact Hpos).
  rewrite round_positive by exact HposQ.
  destruct (Z.eq_dec n (2 ^ 53)%Z) as [->|Hlt].
  - rewrite (scaled_comp _ (inject_Z (2 ^ 53) * Double.pow2 0)) by
      (try exact HposQ; unfold Double.pow2; simpl; ring).
    rewrite scaled_exact by lia. unfold Double.pow2. simpl. ring.
  - set (k := Z.log2 n).
    destruct (Z.log2_spec n Hpos) as [Hk1 Hk2]. fold k in Hk1, Hk2.
    assert (Hk0 : (0 <= k)%Z) by apply Z.log2_nonneg.
    assert (Hk : (k < 53)%Z).
    { apply (Z.pow_lt_mono_r_iff 2); lia. }
    assert (Hv : inject_Z n == inject_Z (n * 2 ^ (52 - k)) * Double.pow2 (k - 52)).
    { rewrite inject_Z_mult, (pow2_Z (52 - k)) by lia.
      rewrite <- Qmult_assoc, <- pow2_plus.
      replace (52 - k + (k - 52))%Z with 0%Z by lia. unfold Double.pow2. simpl. ring. }
    rewrite (scaled_comp _ _ HposQ Hv), scaled_exact; [symmetry; exact Hv|].
    replace (2 ^ 52)%Z with (2 ^ k * 2 ^ (52 - k))%Z
      by (rewrite <- Z.pow_add_r by lia; f_equal; lia).
    replace (2 ^ 53)%Z with (2 ^ (Z.succ k) * 2 ^ (52 - k))%Z
      by (rewrite <- Z.pow_add_r by lia; f_equal; lia).
    assert (0 < 2 ^ (52 - k))%Z by (apply Z.pow_pos_nonneg; lia).
    nia.
Qed.

Lemma isDouble_round x : isDouble (Double.round x).
Proof. apply round_idem. Qed.

Lemma isDouble_zero : isDouble 0.
Proof. reflexivity. Qed.

Lemma isDouble_sentinel : isDouble MAX_SAFE_INTEGER.
Proof. apply (round_Z 9007199254740991). split; [discriminate|]. vm_compute. discriminate. Qed.

(** Advancing the cursor: one node height and one gap, each addition
    rounded. *)
Lemma advance_clears y : 0 <= y ->
  clears y (Double.add (Double.add y nodeHeight) gap).
Proof.
  intros Hy. unfold clears, Double.add, nodeHeight, gap.
  assert (H1 := round_lower (y + 150) ltac:(lra)).
  assert (H2 := round_lower (Double.round (y + 150) + 50)
                  ltac:(assert (H0 := round_nonneg (y + 150) ltac:(lra)); lra)).
  unfold Double.epsilon in *. lra.
Qed.

Lemma advance_ge y : 0 <= y -> isDouble y ->
  y <= Double.add (Double.add y nodeHeight) gap.
Proof.
  intros Hy Hd. unfold Double.add, nodeHeight, gap.
  assert (H1 : y <= Double.round (y + 150)).
  { eapply Qle_trans; [|apply (round_mono y (y + 150)); lra].
    unfold isDouble in Hd. rewrite Hd. apply Qle_refl. }
  assert (H2 : Double.round (y + 150) <= Double.round (Double.round (y + 150) + 50)).
  { eapply Qle_trans;
      [|apply (round_mono (Double.round (y + 150)) (Double.round (y + 150) + 50)); lra].
    rewrite round_idem. apply Qle_refl. }
  lra.
Qed.

Lemma clears_le y1 y2 y3 : clears y1 y2 -> y2 <= y3 -> clears y1 y3.
Proof. unfold clears. intros H1 H2. lra. Qed.

(** Below [2^53] a cleared height leaves room for the node: the spans do not
    overlap. *)
Lemma clears_span y1 y2 :
  y1 <= 9007199254740992 -> clears y1 y2 -> y1 + nodeHeight <= y2.
Proof. unfold clears, nodeHeight, gap, Double.epsilon. intros H1 H2. lra. Qed.

End DoubleFacts.

(** ** Position assignment *)

Section Placement.

Implicit Types (positions : gmap string Position) (item : Weighted) (r : Z).

(** The cursor never lets a node be placed above it. *)
Lemma place_spec r currentY positions item :
  exists y,
    (currentY <= y)%Q /\ (y = currentY \/ y = w_avgY item) /\
    place r (currentY, positions) item =
      (Double.add (Double.add y nodeHeight) gap,
       <[w_id item := mkPosition (inject_Z (r * RANK_SPACING)) y]> positions).
Proof.
  unfold place.
  set (ideal := if Qeq_bool (w_avgY item) MAX_SAFE_INTEGER then currentY else w_avgY item).
  destruct (Qltb ideal currentY) eqn:E.
  - exists currentY. split; [apply Qle_refl|]. split; [left|]; reflexivity.
  - exists ideal. split; [|split; [|reflexivity]].
    + unfold Qltb in E. apply negb_false_iff, Qle_bool_iff in E. exact E.
    + subst ideal. destruct (Qeq_bool _ _); [left|right]; reflexivity.
Qed.

Lemma column_lt r : (inject_Z (r * RANK_SPACING) < inject_Z ((r + 1) * RANK_SPACING))%Q.
Proof. rewrite <- Zlt_Qlt. unfold RANK_SPACING. lia. Qed.

Lemma leftOf_next r positions : leftOf r positions -> leftOf (r + 1) positions.
Proof.
  intros H a pa Ha. eapply Qlt_trans; [apply (H a pa Ha)|apply column_lt].
Qed.

Lemma leftOf_aboveCursor r currentY positions :
  leftOf r positions -> aboveCursor r currentY positions.
Proof.
  intros H a pa Ha Hx. apply H in Ha. apply Qlt_not_eq in Ha. contradiction.
Qed.

(** The invariant of the walk down column [r]: the cursor is a double that
    is not negative, and every position of the column clears it. *)
Lemma place_invariant r currentY positions item :
  separated positions -> aboveCursor r currentY positions -> leftOf (r + 1) positions ->
  (0 <= currentY)%Q -> isDouble currentY -> isDouble (w_avgY item) ->
  let st := place r (currentY, positions) item in
  separated (snd st) /\ aboveCursor r (fst st) (snd st) /\ leftOf (r + 1) (snd st) /\
  (0 <= fst st)%Q /\ isDouble (fst st).
Proof.
  intros Hsep Habove Hleft Hc0 Hcd Hwd.
  destruct (place_spec r currentY positions item) as (y & Hy & Hwhich & ->). simpl.
  assert (Hy0 : (0 <= y)%Q) by (eapply Qle_trans; eassumption).
  assert (Hyd : isDouble y) by (destruct Hwhich as [->| ->]; assumption).
  assert (Hself : forall b pb, b <> w_id item -> positions !! b = Some pb ->
            (inject_Z (r * RANK_SPACING) == pos_x pb)%Q ->
            clears (pos_y pb) y).
  { intros b pb _ Hb Hx. apply (clears_le _ currentY); [|exact Hy].
    apply (Habove b pb Hb). symmetry. exact Hx. }
  split; [|split; [|split; [|split]]].
  - intros a b pa pb Hab Ha Hb Hx.
    destruct (decide (a = w_id item)) as [->|Hna];
      destruct (decide (b = w_id item)) as [->|Hnb]; [congruence| | |].
    + rewrite lookup_insert_eq in Ha. injection Ha as <-.
      rewrite lookup_insert_ne in Hb by congruence.
      right. simpl in *. apply (Hself b pb); auto.
    + rewrite lookup_insert_eq in Hb. injection Hb as <-.
      rewrite lookup_insert_ne in Ha by congruence.
      left. simpl in *. apply (Hself a pa); auto. symmetry. exact Hx.
    + rewrite lookup_insert_ne in Ha, Hb by congruence.
      exact (Hsep a b pa pb Hab Ha Hb Hx).
  - intros a pa Ha Hx.
    destruct (decide (a = w_id item)) as [->|Hna].
    + rewrite lookup_insert_eq in Ha. injection Ha as <-. simpl.
      apply advance_clears. exact Hy0.
    + rewrite lookup_insert_ne in Ha by congruence.
      apply (clears_le _ currentY); [exact (Habove a pa Ha Hx)|].
      eapply Qle_trans; [exact Hy|]. apply advance_ge; assumption.
  - intros a pa Ha.
    destruct (decide (a = w_id item)) as [->|Hna].
    + rewrite lookup_insert_eq in Ha. injection Ha as <-. simpl. apply column_lt.
    + rewrite lookup_insert_ne in Ha by congruence. eapply Hleft; eassumption.
  - eapply Qle_trans; [exact Hy0|]. apply advance_ge; assumption.
  - apply isDouble_round.
Qed.

Lemma foldl_step {A B} (f : A -> B -> A) (a : A) (x : B) (l : list B) :
  foldl f a (x :: l) = foldl f (f a x) l.
Proof. reflexivity. Qed.

Lemma place_fold_invariant r (items : list Weighted) : forall currentY positions,
  separated positions -> aboveCursor r currentY positions -> leftOf (r + 1) positions ->
  (0 <= currentY)%Q -> isDouble currentY ->
  (forall item, item ∈ items -> isDouble (w_avgY item)) ->
  let st := foldl (place r) (currentY, positions) items in
  separated (snd st) /\ leftOf (r + 1) (snd st).
Proof.
  induction items as [|item items IH];
    intros currentY positions Hsep Habove Hleft Hc0 Hcd Hitems; cbv zeta.
  - split; assumption.
  - rewrite foldl_step.
    destruct (place_invariant r currentY positions item Hsep Habove Hleft Hc0 Hcd)
      as (Hsep' & Habove' & Hleft' & Hc0' & Hcd'); [apply Hitems; left|].
    destruct (place r (currentY, positions) item) as [currentY' positions'].
    apply IH; try assumption. intros item' H. apply Hitems. right. exact H.
Qed.

(** Placing keeps what was placed and places its item. *)
Lemma place_fold_placed r (items : list Weighted) : forall currentY positions,
  let st := foldl (place r) (currentY, positions) items in
  (forall a, is_Some (positions !! a) -> is_Some (snd st !! a)) /\
  (forall item, item ∈ items -> is_Some (snd st !! w_id item)).
Proof.
  induction items as [|item items IH]; intros currentY positions; cbv zeta.
  - split; [auto|]. intros item H. inversion H.
  - rewrite foldl_step.
    destruct (place_spec r currentY positions item) as (y & _ & _ & ->).
    destruct (IH (Double.add (Double.add y nodeHeight) gap)
                (<[w_id item := mkPosition (inject_Z (r * RANK_SPACING)) y]> positions))
      as [Hkeep Hnew].
    split.
    + intros a Ha. apply Hkeep.
      destruct (decide (a = w_id item)) as [->|Hne].
      * rewrite lookup_insert_eq. eauto.
      * rewrite lookup_insert_ne by congruence. exact Ha.
    + intros item' Hin. apply elem_of_cons in Hin as [->|Hin].
      * apply Hkeep. rewrite lookup_insert_eq. eauto.
      * apply Hnew. exact Hin.
Qed.

(** Placing items whose nodes have rank [r] keeps every position in the
    column of its rank. *)
Lemma place_fold_column ranks r (items : list Weighted) : forall currentY positions,
  (forall item, item ∈ items -> rankOf ranks (w_id item) = r) ->
  inRankColumn ranks positions ->
  inRankColumn ranks (snd (foldl (place r) (currentY, positions) items)).
Proof.
  induction items as [|item items IH]; intros currentY positions Hr Hin; [exact Hin|].
  rewrite foldl_step.
  destruct (place_spec r currentY positions item) as (y & _ & _ & ->).
  apply IH.
  - intros item' H. apply Hr. right. exact H.
  - intros a pa Ha. destruct (decide (a = w_id item)) as [->|Hne].
    + rewrite lookup_insert_eq in Ha. injection Ha as <-. simpl.
      rewrite (Hr item) by left. reflexivity.
    + rewrite lookup_insert_ne in Ha by congruence. apply Hin. exact Ha.
Qed.

(** The sort rearranges its input. *)
Lemma insertSorted_elem x l y : y ∈ insertSorted x l <-> y = x \/ y ∈ l.
Proof.
  induction l as [|z l IH]; simpl.
  - rewrite list_elem_of_singleton. split; [auto|]. intros [?|H]; [auto|inversion H].
  - destruct (Qle_bool (compareWeighted x z) 0).
    + rewrite elem_of_cons. reflexivity.
    + rewrite !elem_of_cons, IH. tauto.
Qed.

Lemma sortWeighted_elem l y : y ∈ sortWeighted l <-> y ∈ l.
Proof.
  unfold sortWeighted. induction l as [|x l IH]; simpl; [reflexivity|].
  rewrite insertSorted_elem, IH, elem_of_cons. reflexivity.
Qed.

Lemma weigh_id nodeMap inverse positions id :
  w_id (weigh nodeMap inverse positions id) = id.
Proof. unfold weigh. destruct (parentSum _ _). reflexivity. Qed.

(** Every weight is a double: a rounded quotient or the sentinel. *)
Lemma weigh_double nodeMap inverse positions id :
  isDouble (w_avgY (weigh nodeMap inverse positions id)).
Proof.
  unfold weigh. destruct (parentSum _ _) as [weight parentCount]. simpl.
  destruct (0 <? parentCount)%Z; [apply isDouble_round|apply isDouble_sentinel].
Qed.

End Placement.

Section Columns.

Variables (nodes : list BPNode) (edges : list BPEdge) (ranks : gmap string Z).

Let nodeMap := nodeMapOf nodes.
Let inverse := inverseAdjacencyOf nodes edges.
Let rankMap := rankMapOf ranks nodes.
Let column := layoutColumn nodeMap inverse rankMap.

(** The rank dictionary: a node is filed under its rank, and only there. *)
Lemma rankMapOf_fold (ns : list BPNode) : forall (m : gmap Z (list string)),
  let result :=
    foldl (fun m n =>
             let r := rankOf ranks (bp_id n) in
             <[r := default [] (m !! r) ++ [bp_id n]]> m) m ns in
  (forall r id, id ∈ default [] (m !! r) -> id ∈ default [] (result !! r)) /\
  (forall n, n ∈ ns -> bp_id n ∈ default [] (result !! rankOf ranks (bp_id n))) /\
  ((forall r id, id ∈ default [] (m !! r) -> rankOf ranks id = r) ->
   forall r id, id ∈ default [] (result !! r) -> rankOf ranks id = r).
Proof.
  induction ns as [|n ns IH]; intros m; simpl.
  - split; [auto|]. split; [|auto]. intros n H. inversion H.
  - set (r0 := rankOf ranks (bp_id n)).
    set (m' := <[r0 := default [] (m !! r0) ++ [bp_id n]]> m).
    destruct (IH m') as (Hkeep & Hnew & Hrank).
    assert (Hm' : forall r id, id ∈ default [] (m !! r) -> id ∈ default [] (m' !! r)).
    { intros r id Hid. subst m'. destruct (decide (r = r0)) as [->|Hne].
      - rewrite lookup_insert_eq. simpl. apply elem_of_app. left. exact Hid.
      - rewrite lookup_insert_ne by congruence. exact Hid. }
    split; [|split].
    + intros r id Hid. apply Hkeep, Hm'. exact Hid.
    + intros n' Hin. apply elem_of_cons in Hin as [->|Hin].
      * apply Hkeep. subst m'. fold r0. rewrite lookup_insert_eq. simpl.
        apply elem_of_app. right. left.
      * apply Hnew. exact Hin.
    + intros Hm. apply Hrank. intros r id Hid. subst m'.
      destruct (decide (r = r0)) as [->|Hne].
      * rewrite lookup_insert_eq in Hid. simpl in Hid.
        apply elem_of_app in Hid as [Hid|Hid]; [apply Hm; exact Hid|].
        apply list_elem_of_singleton in Hid. subst id. reflexivity.
      * rewrite lookup_insert_ne in Hid by congruence. apply Hm. exact Hid.
Qed.

Lemma rankMapOf_elem n :
  n ∈ nodes -> bp_id n ∈ default [] (rankMap !! rankOf ranks (bp_id n)).
Proof. intros Hn. apply (rankMapOf_fold nodes ∅). exact Hn. Qed.

Lemma rankMapOf_rank r id : id ∈ default [] (rankMap !! r) -> rankOf ranks id = r.
Proof.
  apply (rankMapOf_fold nodes ∅). intros r' id'. rewrite lookup_empty. simpl.
  intros H. inversion H.
Qed.

Lemma maxRankOf_fold (ns : list BPNode) : forall (mx : Z),
  let result := foldl (fun mx n => Z.max mx (rankOf ranks (bp_id n))) mx ns in
  (mx <= result)%Z /\ forall n, n ∈ ns -> (rankOf ranks (bp_id n) <= result)%Z.
Proof.
  induction ns as [|n ns IH]; intros mx; simpl.
  - split; [lia|]. intros n H. inversion H.
  - destruct (IH (Z.max mx (rankOf ranks (bp_id n)))) as [Hle Hall].
    split; [lia|]. intros n' Hin. apply elem_of_cons in Hin as [->|Hin]; [lia|].
    apply Hall. exact Hin.
Qed.

Lemma maxRankOf_ge n :
  n ∈ nodes -> (rankOf ranks (bp_id n) <= maxRankOf ranks nodes)%Z.
Proof. intros Hn. apply (maxRankOf_fold nodes 0%Z). exact Hn. Qed.

Lemma columnsUpTo_elem r maxRank :
  (0 <= r <= maxRank)%Z -> r ∈ columnsUpTo maxRank.
Proof.
  intros Hr. unfold columnsUpTo. apply list_elem_of_In, in_map_iff.
  exists (Z.to_nat r). split; [lia|]. apply in_seq. lia.
Qed.

(** One column. *)
Lemma layoutColumn_invariant positions r :
  separated positions -> leftOf r positions ->
  separated (column positions r) /\ leftOf (r + 1) (column positions r).
Proof.
  intros Hsep Hleft. subst column. unfold layoutColumn.
  apply place_fold_invariant.
  - exact Hsep.
  - apply leftOf_aboveCursor. exact Hleft.
  - apply leftOf_next. exact Hleft.
  - apply Qle_refl.
  - apply isDouble_zero.
  - intros item Hitem. apply (proj1 (sortWeighted_elem _ _)) in Hitem.
    apply list_elem_of_In, in_map_iff in Hitem as (id & <- & _).
    apply weigh_double.
Qed.

Lemma layoutColumn_placed positions r :
  (forall a, is_Some (positions !! a) -> is_Some (column positions r !! a)) /\
  (forall id, id ∈ default [] (rankMap !! r) -> is_Some (column positions r !! id)).
Proof.
  subst column. unfold layoutColumn.
  set (items := sortWeighted _).
  destruct (place_fold_placed r items 0%Q positions) as [Hkeep Hnew].
  split; [exact Hkeep|].
  intros id Hid.
  rewrite <- (weigh_id nodeMap inverse positions id).
  apply Hnew. subst items. apply sortWeighted_elem.
  apply list_elem_of_In, in_map, list_elem_of_In. exact Hid.
Qed.

Lemma layoutColumn_column positions r :
  inRankColumn ranks positions -> inRankColumn ranks (column positions r).
Proof.
  intros Hin. subst column. unfold layoutColumn.
  apply place_fold_column; [|exact Hin].
  intros item Hitem. apply (proj1 (sortWeighted_elem _ _)) in Hitem.
  apply list_elem_of_In, in_map_iff in Hitem as (id & <- & Hid).
  rewrite weigh_id. apply rankMapOf_rank, list_elem_of_In. exact Hid.
Qed.

(** All columns, left to right. *)
Lemma columns_invariant (n : nat) : forall (start : nat) positions,
  separated positions -> leftOf (Z.of_nat start) positions ->
  separated (foldl column positions (map Z.of_nat (seq start n))).
Proof.
  induction n as [|n IH]; intros start positions Hsep Hleft; simpl; [exact Hsep|].
  destruct (layoutColumn_invariant positions (Z.of_nat start) Hsep Hleft) as [Hsep' Hleft'].
  apply (IH (S start)); [exact Hsep'|].
  replace (Z.of_nat (S start)) with (Z.of_nat start + 1)%Z by lia. exact Hleft'.
Qed.

Lemma columns_keep (rs : list Z) : forall positions a,
  is_Some (positions !! a) -> is_Some (foldl column positions rs !! a).
Proof.
  induction rs as [|r rs IH]; intros positions a Ha; simpl; [exact Ha|].
  apply IH. apply (proj1 (layoutColumn_placed positions r)). exact Ha.
Qed.

Lemma columns_placed (rs : list Z) r id positions :
  r ∈ rs -> id ∈ default [] (rankMap !! r) ->
  is_Some (foldl column positions rs !! id).
Proof.
  intros Hr Hid. apply list_elem_of_split in Hr as (l1 & l2 & ->).
  rewrite foldl_app, foldl_step. apply columns_keep.
  apply (proj2 (layoutColumn_placed _ r)). exact Hid.
Qed.

Lemma columns_column (rs : list Z) : forall positions,
  inRankColumn ranks positions -> inRankColumn ranks (foldl column positions rs).
Proof.
  induction rs as [|r rs IH]; intros positions Hin; simpl; [exact Hin|].
  apply IH. apply layoutColumn_column. exact Hin.
Qed.

Lemma positionsOf_separated : separated (positionsOf nodes edges ranks).
Proof.
  unfold positionsOf, columnsUpTo. apply columns_invariant.
  - intros a b pa pb _ Ha. rewrite lookup_empty in Ha. discriminate.
  - intros a pa Ha. rewrite lookup_empty in Ha. discriminate.
Qed.

Lemma positionsOf_column : inRankColumn ranks (positionsOf nodes edges ranks).
Proof.
  unfold positionsOf. apply columns_column.
  intros a pa Ha. rewrite lookup_empty in Ha. discriminate.
Qed.

(** Every node is placed, provided that no rank is negative. *)
Lemma positionsOf_placed n :
  (forall id, (0 <= rankOf ranks id)%Z) ->
  n ∈ nodes -> is_Some (positionsOf nodes edges ranks !! bp_id n).
Proof.
  intros Hpos Hn. unfold positionsOf.
  apply (columns_placed _ (rankOf ranks (bp_id n))).
  - apply columnsUpTo_elem. split; [apply Hpos|apply maxRankOf_ge; exact Hn].
  - apply rankMapOf_elem. exact Hn.
Qed.

End Columns.

(** ** The layout as a whole *)

Section LayoutClaims.

Lemma applyPositions_elem positions (nodes : list BPNode) (a : BPNode) :
  a ∈ applyPositions positions nodes ->
  exists n, n ∈ nodes /\ bp_id a = bp_id n /\
    bp_position a = default (mkPosition 0 0) (positions !! bp_id n).
Proof.
  unfold applyPositions. intros Ha.
  apply list_elem_of_In, in_map_iff in Ha as (n & <- & Hn).
  exists n. rewrite list_elem_of_In. auto.
Qed.

(** Every node of the result sits where the position dictionary puts it. *)
Lemma layout_position fuel nodes edges out outEdges (a : BPNode) :
  getLayoutedElements fuel nodes edges = Some (out, outEdges) ->
  a ∈ out ->
  exists ranks,
    assignRanks fuel nodes edges = Some ranks /\
    positionsOf nodes edges ranks !! bp_id a = Some (bp_position a).
Proof.
  unfold getLayoutedElements. intros Hrun Ha.
  destruct (assignRanks fuel nodes edges) as [ranks|] eqn:Hranks; [|discriminate].
  injection Hrun as <- <-. exists ranks. split; [reflexivity|].
  apply applyPositions_elem in Ha as (n & Hn & Hid & Hpos).
  destruct (positionsOf_placed nodes edges ranks n) as [p Hp]; [|exact Hn|].
  - intros id. eapply rankOf_nonneg. exact Hranks.
  - rewrite Hid, Hpos, Hp. reflexivity.
Qed.

(** The column of a node is its rank. *)
Lemma layout_column fuel nodes edges out outEdges :
  getLayoutedElements fuel nodes edges = Some (out, outEdges) ->
  exists ranks,
    assignRanks fuel nodes edges = Some ranks /\
    forall a, a ∈ out ->
      pos_x (bp_position a) = inject_Z (rankOf ranks (bp_id a) * RANK_SPACING).
Proof.
  intros Hrun.
  destruct (assignRanks fuel nodes edges) as [ranks|] eqn:Hranks.
  - exists ranks. split; [reflexivity|]. intros a Ha.
    destruct (layout_position _ _ _ _ _ a Hrun Ha) as (ranks' & Hr & Hp).
    rewrite Hranks in Hr. injection Hr as <-.
    apply (positionsOf_column nodes edges ranks) in Hp. exact Hp.
  - unfold getLayoutedElements in Hrun. rewrite Hranks in Hrun. discriminate.
Qed.

(** C9, as stated, fails twice.  The heights are doubles: [P] is put at the
    double next to 1000/3, the cursor is advanced by two rounded additions,
    and [Q], clamped to the cursor, ends [2^-44] short of 200 below [P].  And
    the positions are filed under the id: two nodes that share their id share
    their position. *)
Lemma column_gap_below_200 :
  (getLayoutedElements 9 thirdsNodes thirdsEdges = Some (thirdsLayout, thirdsEdges) /\
   exists a b, a ∈ thirdsLayout /\ b ∈ thirdsLayout /\ bp_id a <> bp_id b /\
     (pos_x (bp_position a) == pos_x (bp_position b))%Q /\
     (pos_y (bp_position b) - pos_y (bp_position a) == 200 - (1 # 17592186044416))%Q /\
     ~ ((pos_y (bp_position a) + (150 + 50) <= pos_y (bp_position b))%Q \/
        (pos_y (bp_position b) + (150 + 50) <= pos_y (bp_position a))%Q)) /\
  (getLayoutedElements 2 twinNodes [] = Some (twinLayout, []) /\
   exists a b, a ∈ twinLayout /\ b ∈ twinLayout /\ a <> b /\
     bp_position a = bp_position b).
Proof.
  split.
  - split; [vm_compute; reflexivity|].
    exists (placed "P" "function" 450 (5864062014805333 # 17592186044416)),
           (placed "Q" "function" 450 (2345624805922133 # 4398046511104)).
    split; [do 5 right; left|]. split; [do 6 right; left|].
    split; [discriminate|]. split; [reflexivity|]. split; [reflexivity|].
    simpl. intros [H|H]; vm_compute in H; apply H; reflexivity.
  - split; [vm_compute; reflexivity|].
    exists (placed "T" "event" 0 200), (placed "T" "function" 0 200).
    split; [left|]. split; [right; left|]. split; [discriminate|reflexivity].
Qed.

(** C9, amended: whenever the layout returns for a graph with plain keys,
    any two nodes of the result with different ids that share a column (the
    same x, that is the same rank) have one of them 150 + 50 below the other,
    up to the rounding of the two additions that advance the cursor (a
    relative error of [2^-52]); and while the heights stay below [2^53] that
    is at least the node height 150, so their vertical spans do not
    overlap. *)
Theorem columns_do_not_overlap fuel nodes edges out outEdges (a b : BPNode)
    (Hplain : plainKeys nodes edges = true)
    (Hrun : getLayoutedElements fuel nodes edges = Some (out, outEdges))
    (Ha : a ∈ out) (Hb : b ∈ out)
    (Hid : bp_id a <> bp_id b)
    (Hcolumn : (pos_x (bp_position a) == pos_x (bp_position b))%Q) :
  (((pos_y (bp_position a) + (150 + 50)) * (1 - (1 # 4503599627370496))
      <= pos_y (bp_position b))%Q \/
   ((pos_y (bp_position b) + (150 + 50)) * (1 - (1 # 4503599627370496))
      <= pos_y (bp_position a))%Q) /\
  ((pos_y (bp_position a) <= 9007199254740992)%Q ->
   (pos_y (bp_position b) <= 9007199254740992)%Q ->
   (pos_y (bp_position a) + 150 <= pos_y (bp_position b))%Q \/
   (pos_y (bp_position b) + 150 <= pos_y (bp_position a))%Q).
Proof.
  destruct (layout_position _ _ _ _ _ a Hrun Ha) as (ranks & Hr & Hpa).
  destruct (layout_position _ _ _ _ _ b Hrun Hb) as (ranks' & Hr' & Hpb).
  rewrite Hr in Hr'. injection Hr' as <-.
  assert (Hapart := positionsOf_separated nodes edges ranks _ _ _ _ Hid Hpa Hpb Hcolumn).
  split.
  - destruct Hapart as [H|H]; [left|right];
      unfold clears, nodeHeight, gap, Double.epsilon in H; lra.
  - intros Hya Hyb. change 150%Q with nodeHeight.
    destruct Hapart as [H|H]; [left|right]; apply clears_span; assumption.
Qed.

Lemma columns_do_not_overlap_witness :
  plainKeys scenarioB_nodes scenarioB_edges = true /\
  getLayoutedElements 4 scenarioB_nodes scenarioB_edges
    = Some (scenarioB_layout, scenarioB_edges) /\
  placed "FuncB" "function" 900 0 ∈ scenarioB_layout /\
  placed "FuncC" "function" 900 200 ∈ scenarioB_layout /\
  "FuncB" <> "FuncC" /\
  (900 == 900)%Q /\
  ((((0 + (150 + 50)) * (1 - (1 # 4503599627370496)) <= 200)%Q \/
    ((200 + (150 + 50)) * (1 - (1 # 4503599627370496)) <= 0)%Q) /\
   ((0 <= 9007199254740992)%Q -> (200 <= 9007199254740992)%Q ->
    (0 + 150 <= 200)%Q \/ (200 + 150 <= 0)%Q)).
Proof.
  assert (Hplain : plainKeys scenarioB_nodes scenarioB_edges = true) by reflexivity.
  assert (Hrun : getLayoutedElements 4 scenarioB_nodes scenarioB_edges
                 = Some (scenarioB_layout, scenarioB_edges)) by (vm_compute; reflexivity).
  assert (Ha : placed "FuncB" "function" 900 0 ∈ scenarioB_layout)
    by (right; right; left).
  assert (Hb : placed "FuncC" "function" 900 200 ∈ scenarioB_layout)
    by (right; right; right; left).
  assert (Hid : "FuncB" <> "FuncC") by discriminate.
  assert (Hx : (900 == 900)%Q) by reflexivity.
  repeat (split; [assumption|]).
  exact (columns_do_not_overlap 4 scenarioB_nodes scenarioB_edges
           scenarioB_layout scenarioB_edges _ _ Hplain Hrun Ha Hb Hid Hx).
Defined.

(** Scenario A: one Event node and no edge: alone in column 0. *)
Example scenarioA_layout :
  getLayoutedElements 1 [nd "Event" "event"] []
    = Some ([placed "Event" "event" 0 0], []).
Proof. reflexivity. Qed.

(** Scenario B: the ranks are Event 0, Branch 1, FuncB 2, FuncC 2. *)
Example scenarioB_ranks :
  exists ranks,
    assignRanks 4 scenarioB_nodes scenarioB_edges = Some ranks /\
    map (rankOf ranks) (ids scenarioB_nodes) = [0; 1; 2; 2]%Z.
Proof. eexists. split; reflexivity. Qed.

Lemma scenarioB_acyclic : acyclic scenarioB_edges.
Proof.
  apply (heightOn_acyclic _
           (fun s => if String.eqb s "Event" then 2
                     else if String.eqb s "Branch" then 1 else 0)%nat).
  intros e He. unfold scenarioB_edges in He.
  repeat (apply elem_of_cons in He as [->|He]); [simpl; lia..|inversion He].
Qed.

Lemma scenarioB_sourcesKnown : sourcesKnown scenarioB_nodes scenarioB_edges.
Proof.
  intros e He _. unfold scenarioB_edges in He.
  repeat (apply elem_of_cons in He as [->|He]);
    [left|right; left|right; left|inversion He].
Qed.

End LayoutClaims.

(** ** Rank order *)

(** C8, as stated, fails: in this acyclic graph the edge V -> W joins two
    given nodes, but V is entered by an edge whose source is not a node; V is
    therefore no seed of the ranking, neither V nor W is ever reached, and both
    keep the default rank 0. *)
Lemma dangling_edge_breaks_rank_order :
  acyclic danglingEdges /\
  ed "V" "W" ∈ danglingEdges /\
  "V" ∈ ids danglingNodes /\ "W" ∈ ids danglingNodes /\
  exists ranks,
    (forall fuel, (1 <= fuel)%nat ->
       assignRanks fuel danglingNodes danglingEdges = Some ranks) /\
    rankOf ranks "V" = 0%Z /\ rankOf ranks "W" = 0%Z /\
    ~ (rankOf ranks "V" + 1 <= rankOf ranks "W")%Z.
Proof.
  split.
  { apply (heightOn_acyclic _
             (fun s => if String.eqb s "X" then 2 else if String.eqb s "V" then 1 else 0)%nat).
    intros e He. unfold danglingEdges in He.
    repeat (apply elem_of_cons in He as [->|He]); [simpl; lia..|inversion He]. }
  split; [right; left|].
  split; [right; left|].
  split; [right; right; left|].
  exists {["S" := 0%Z]}.
  split; [|split; [reflexivity|split; [reflexivity|]]].
  - intros fuel Hfuel. unfold assignRanks.
    apply (rankLoop_more_fuel _ 1); [exact Hfuel|]. reflexivity.
  - vm_compute. intros H. apply H. reflexivity.
Qed.

(** C8, amended: for every acyclic node/edge set with plain keys in which no
    edge enters a given node from a source outside the node set, the layout
    terminates, the column of every node is its rank, and for every edge whose
    endpoints are among the given nodes the rank of the target is at least the
    rank of the source plus one. *)
Theorem ranks_grow_along_edges (nodes : list BPNode) (edges : list BPEdge)
    (Hplain : plainKeys nodes edges = true)
    (Hacyclic : acyclic edges) (Hknown : sourcesKnown nodes edges) :
  exists fuel ranks out,
    assignRanks fuel nodes edges = Some ranks /\
    getLayoutedElements fuel nodes edges = Some (out, edges) /\
    (forall a, a ∈ out ->
       pos_x (bp_position a) = inject_Z (rankOf ranks (bp_id a) * RANK_SPACING)) /\
    forall e, e ∈ edges -> e_source e ∈ ids nodes -> e_target e ∈ ids nodes ->
      (rankOf ranks (e_target e) >= rankOf ranks (e_source e) + 1)%Z.
Proof.
  assert (Hh := acyclic_height edges Hacyclic).
  destruct (assignRanks_terminates nodes edges _ Hh) as (fuel & ranks & Hrun).
  assert (Hlayout : getLayoutedElements fuel nodes edges
                    = Some (applyPositions (positionsOf nodes edges ranks) nodes, edges)).
  { unfold getLayoutedElements. rewrite Hrun. reflexivity. }
  exists fuel, ranks, (applyPositions (positionsOf nodes edges ranks) nodes).
  split; [exact Hrun|]. split; [exact Hlayout|]. split.
  - destruct (layout_column _ _ _ _ _ Hlayout) as (ranks' & Hr & Hx).
    rewrite Hrun in Hr. injection Hr as <-. exact Hx.
  - intros e He Hs _.
    assert (H := assignRanks_edges nodes edges _ Hh Hknown fuel ranks Hrun e He Hs).
    lia.
Qed.

Lemma ranks_grow_along_edges_witness :
  plainKeys scenarioB_nodes scenarioB_edges = true /\
  acyclic scenarioB_edges /\ sourcesKnown scenarioB_nodes scenarioB_edges /\
  exists fuel ranks out,
    assignRanks fuel scenarioB_nodes scenarioB_edges = Some ranks /\
    getLayoutedElements fuel scenarioB_nodes scenarioB_edges = Some (out, scenarioB_edges) /\
    (forall a, a ∈ out ->
       pos_x (bp_position a) = inject_Z (rankOf ranks (bp_id a) * RANK_SPACING)) /\
    forall e, e ∈ scenarioB_edges ->
      e_source e ∈ ids scenarioB_nodes -> e_target e ∈ ids scenarioB_nodes ->
      (rankOf ranks (e_target e) >= rankOf ranks (e_source e) + 1)%Z.
Proof.
  split; [reflexivity|].
  split; [exact scenarioB_acyclic|]. split; [exact scenarioB_sourcesKnown|].
  exact (ranks_grow_along_edges scenarioB_nodes scenarioB_edges eq_refl
           scenarioB_acyclic scenarioB_sourcesKnown).
Defined.

(** * Further properties of the schema normalizer *)

Section NormalizerMore.

Implicit Types (node : RawNode) (pins : list Pin) (pin : Pin).

(** X1: the normalizer leaves the id, the label, the kind and the comment of a
    node as they are, always returns defined pin lists, and the repaired node
    falls into the same category as the raw one. *)
Theorem ensureDefaultPins_keeps_identity node :
  node_id (ensureDefaultPins node) = node_id node /\
  node_label (ensureDefaultPins node) = node_label node /\
  node_nodeType (ensureDefaultPins node) = node_nodeType node /\
  node_comment (ensureDefaultPins node) = node_comment node /\
  is_Some (node_inputs (ensureDefaultPins node)) /\
  is_Some (node_outputs (ensureDefaultPins node)) /\
  classify (ensureDefaultPins node) = classify node.
Proof.
  rewrite ensureDefaultPins_repair.
  destruct (repair_withPins (classify node) node) as (ins & outs & ->).
  simpl. repeat split; eauto.
Qed.

Lemma someType_repair_input node :
  repairsExecInput (classify node) = true ->
  someType "exec" (inputsOf (ensureDefaultPins node)) = true.
Proof.
  rewrite ensureDefaultPins_repair.
  destruct (classify node); simpl; try discriminate; intros _;
    unfold repairBranch, repairSequence, repairExec, repairForLoop;
    change (inputsOf (withPins ?n ?i ?o)) with i;
    try apply someType_push_mono; apply someType_unshift; reflexivity.
Qed.

Lemma someType_repair_output node :
  repairsExecOutput (classify node) = true ->
  someType "exec" (outputsOf (ensureDefaultPins node)) = true.
Proof.
  rewrite ensureDefaultPins_repair.
  destruct (classify node); simpl; try discriminate; intros _;
    unfold repairEvent, repairExec;
    change (outputsOf (withPins ?n ?i ?o)) with o;
    apply someType_unshift; reflexivity.
Qed.

(** X2: after the repair, a node classified Branch, Sequence, VariableSet,
    ForLoop or generic impure has an Exec input, and a node classified Event,
    VariableSet or generic impure has an Exec output. *)
Theorem exec_pins_guaranteed node :
  (repairsExecInput (classify node) = true ->
     someType "exec" (inputsOf (ensureDefaultPins node)) = true) /\
  (repairsExecOutput (classify node) = true ->
     someType "exec" (outputsOf (ensureDefaultPins node)) = true).
Proof. split; [apply someType_repair_input|apply someType_repair_output]. Qed.

Lemma exec_pins_guaranteed_witness :
  someType "exec" (inputsOf (ensureDefaultPins rawPrint)) = true /\
  someType "exec" (outputsOf (ensureDefaultPins rawPrint)) = true.
Proof.
  split.
  - apply (proj1 (exec_pins_guaranteed rawPrint)). reflexivity.
  - apply (proj2 (exec_pins_guaranteed rawPrint)). reflexivity.
Defined.

(** X3: a node classified ForLoop ends with an Exec input and with outputs
    named "Loop Body" and "Completed"; its raw pins are kept; when the raw
    node has neither output, both are appended, in this order, as Exec pins
    with the ids [id_LoopBody] and [id_Completed]. *)
Theorem for_loop_repair node (Hc : classify node = ForLoop) :
  someType "exec" (inputsOf (ensureDefaultPins node)) = true /\
  someName "Loop Body" (outputsOf (ensureDefaultPins node)) = true /\
  someName "Completed" (outputsOf (ensureDefaultPins node)) = true /\
  extends (inputsOf node) (inputsOf (ensureDefaultPins node)) /\
  extends (outputsOf node) (outputsOf (ensureDefaultPins node)) /\
  (someName "Loop Body" (outputsOf node) = false ->
   someName "Completed" (outputsOf node) = false ->
   outputsOf (ensureDefaultPins node) =
     outputsOf node ++ [mkPin (node_id node +:+ "_LoopBody") "Loop Body" "exec";
                        mkPin (node_id node +:+ "_Completed") "Completed" "exec"]).
Proof.
  rewrite ensureDefaultPins_repair, Hc. simpl. unfold repairForLoop.
  change (inputsOf (withPins ?n ?i ?o)) with i.
  change (outputsOf (withPins ?n ?i ?o)) with o.
  split; [apply someType_unshift; reflexivity|].
  split; [apply someName_push_mono, someName_push; reflexivity|].
  split; [apply someName_push; reflexivity|].
  split; [apply extends_unshift|].
  split; [eapply extends_trans; apply extends_pushName|].
  intros HL HC. unfold pushUnlessName at 2. rewrite HL.
  unfold pushUnlessName. rewrite someName_app, HC. simpl.
  rewrite <- app_assoc. reflexivity.
Qed.

Lemma for_loop_repair_witness :
  classify forLoopBare = ForLoop /\
  outputsOf (ensureDefaultPins forLoopBare) =
    outputsOf forLoopBare ++ [mkPin ("F1" +:+ "_LoopBody") "Loop Body" "exec";
                              mkPin ("F1" +:+ "_Completed") "Completed" "exec"].
Proof.
  split; [reflexivity|].
  apply (for_loop_repair forLoopBare eq_refl); reflexivity.
Defined.

(** X4: a variable getter always ends with at least one output.  When it has
    outputs already, its pins are left as they are; when it has no pin at all,
    it gets the single Boolean output "Value" and no input. *)
Theorem variable_get_repair node (Hc : classify node = VariableGet) :
  outputsOf (ensureDefaultPins node) <> [] /\
  (outputsOf node <> [] ->
     inputsOf (ensureDefaultPins node) = inputsOf node /\
     outputsOf (ensureDefaultPins node) = outputsOf node) /\
  (inputsOf node = [] -> outputsOf node = [] ->
     inputsOf (ensureDefaultPins node) = [] /\
     outputsOf (ensureDefaultPins node) =
       [mkPin (node_id node +:+ "_Value") "Value" "boolean"]).
Proof.
  rewrite ensureDefaultPins_repair, Hc. simpl. unfold repairVariableGet.
  destruct (inputsOf node) as [|i ins]; destruct (outputsOf node) as [|o outs];
    simpl; repeat split; intros; first [reflexivity | discriminate | congruence].
Qed.

Lemma variable_get_repair_witness :
  classify getterMisplaced = VariableGet /\
  outputsOf (ensureDefaultPins getterMisplaced) <> [].
Proof.
  split; [reflexivity|].
  apply (variable_get_repair getterMisplaced eq_refl).
Defined.

Lemma append_cons (x : ascii) (a b : string) :
  String x a +:+ b = String x (a +:+ b).
Proof. reflexivity. Qed.

Lemma prefix_append (a b : string) : String.prefix a (a +:+ b) = true.
Proof.
  induction a as [|c a IH]; [destruct b; reflexivity|].
  rewrite append_cons. simpl.
  destruct (ascii_dec c c); [exact IH|congruence].
Qed.

Lemma append_assoc (a b c : string) : (a +:+ b) +:+ c = a +:+ (b +:+ c).
Proof.
  induction a as [|x a IH]; [reflexivity|].
  rewrite !append_cons. f_equal. exact IH.
Qed.

Lemma injected_prefix node suffix name type :
  String.prefix (node_id node +:+ "_") (pin_id (injected node suffix name type)) = true.
Proof.
  unfold injected. simpl.
  first [ apply prefix_append | rewrite <- append_assoc; apply prefix_append ].
Qed.

Lemma elem_unshift t pin pins p :
  p ∈ unshiftUnlessType t pin pins -> p = pin \/ p ∈ pins.
Proof.
  unfold unshiftUnlessType. destruct (someType t pins); [auto|].
  intros H. apply elem_of_cons in H. exact H.
Qed.

Lemma elem_pushType t pin pins p :
  p ∈ pushUnlessType t pin pins -> p = pin \/ p ∈ pins.
Proof.
  unfold pushUnlessType. destruct (someType t pins); [auto|].
  intros H. apply elem_of_app in H as [H|H]; [auto|].
  apply list_elem_of_singleton in H. auto.
Qed.

Lemma elem_pushName n pin pins p :
  p ∈ pushUnlessName n pin pins -> p = pin \/ p ∈ pins.
Proof.
  unfold pushUnlessName. destruct (someName n pins); [auto|].
  intros H. apply elem_of_app in H as [H|H]; [auto|].
  apply list_elem_of_singleton in H. auto.
Qed.

(** X5: every pin of a repaired node is a pin of the raw node or a pin that
    the normalizer made, whose id starts with the id of the node followed by
    an underscore. *)
Theorem repaired_pins_origin node (p : Pin)
    (Hp : p ∈ pinsOf (ensureDefaultPins node)) :
  p ∈ pinsOf node \/ String.prefix (node_id node +:+ "_") (pin_id p) = true.
Proof.
  revert Hp. rewrite ensureDefaultPins_repair. unfold pinsOf.
  assert (Hraw_in : forall q, q ∈ inputsOf node -> q ∈ inputsOf node ++ outputsOf node)
    by (intros q Hq; apply elem_of_app; auto).
  assert (Hraw_out : forall q, q ∈ outputsOf node -> q ∈ inputsOf node ++ outputsOf node)
    by (intros q Hq; apply elem_of_app; auto).
  destruct (classify node); simpl;
    unfold repairBranch, repairEvent, repairSequence, repairExec,
      repairVariableGet, repairForLoop, repairNone, execIn, execOut;
    try (destruct (_ && _));
    change (inputsOf (withPins ?n ?i ?o)) with i;
    change (outputsOf (withPins ?n ?i ?o)) with o;
    intros Hp; apply elem_of_app in Hp as [Hp|Hp];
    repeat match goal with
      | H : _ ∈ unshiftUnlessType _ _ _ |- _ => apply elem_unshift in H as [->|H]
      | H : _ ∈ pushUnlessType _ _ _ |- _ => apply elem_pushType in H as [->|H]
      | H : _ ∈ pushUnlessName _ _ _ |- _ => apply elem_pushName in H as [->|H]
      | H : _ ∈ (if ?b then _ else _) |- _ => destruct b
      | H : _ ∈ _ ++ _ |- _ => apply elem_of_app in H as [H|H]
      | H : _ ∈ [_] |- _ => apply list_elem_of_singleton in H; subst
      | H : _ ∈ [] |- _ => inversion H
      end;
    first [ left; auto; fail | right; apply injected_prefix ].
Qed.

Lemma repaired_pins_origin_witness :
  mkPin "N2_Exec" "Exec" "exec" ∈ pinsOf (ensureDefaultPins rawPrint) /\
  (mkPin "N2_Exec" "Exec" "exec" ∈ pinsOf rawPrint \/
   String.prefix (node_id rawPrint +:+ "_") (pin_id (mkPin "N2_Exec" "Exec" "exec")) = true).
Proof.
  assert (Hp : mkPin "N2_Exec" "Exec" "exec" ∈ pinsOf (ensureDefaultPins rawPrint))
    by (vm_compute; left).
  split; [exact Hp|]. exact (repaired_pins_origin rawPrint _ Hp).
Defined.

End NormalizerMore.

(** * The node component *)

Section Rendering.

Implicit Types (node : RawNode).

Lemma transformNode_inputs node :
  data_inputs (bp_data (transformNode node)) = inputsOf (ensureDefaultPins node).
Proof. reflexivity. Qed.

Lemma transformNode_outputs node :
  data_outputs (bp_data (transformNode node)) = outputsOf (ensureDefaultPins node).
Proof. reflexivity. Qed.

(** X6: the component finds a generated node pure (no Exec pin on either
    side) exactly when the normalizer classified it as generic pure or as a
    variable getter and the raw node came without Exec pins: the normalizer
    never makes such a node impure, and it makes every other node impure. *)
Theorem pure_nodes_stay_pure node :
  isPure (bp_data (transformNode node)) = true <->
  (classify node = GenericPure \/ classify node = VariableGet) /\
  someType "exec" (inputsOf node) = false /\
  someType "exec" (outputsOf node) = false.
Proof.
  unfold isPure. rewrite transformNode_inputs, transformNode_outputs.
  destruct (classify node) eqn:Hc.
  1-4,6-7:
    (split; [|intros ([?|?] & _); discriminate]);
    intros H; apply andb_true_iff in H as [Hi Ho];
    apply negb_true_iff in Hi, Ho;
    first [ rewrite someType_repair_input in Hi by (rewrite Hc; reflexivity);
            discriminate
          | rewrite someType_repair_output in Ho by (rewrite Hc; reflexivity);
            discriminate ].
  - rewrite ensureDefaultPins_repair, Hc. simpl. unfold repairVariableGet.
    destruct (inputsOf node) as [|i ins]; destruct (outputsOf node) as [|o outs];
      simpl; rewrite ?andb_true_iff, ?negb_true_iff; intuition congruence.
  - rewrite ensureDefaultPins_repair, Hc. simpl. unfold repairNone.
    change (inputsOf (withPins ?n ?i ?o)) with i.
    change (outputsOf (withPins ?n ?i ?o)) with o.
    rewrite andb_true_iff, !negb_true_iff. intuition congruence.
Qed.

Lemma pure_nodes_stay_pure_witness :
  ((classify mathNode = GenericPure \/ classify mathNode = VariableGet) /\
   someType "exec" (inputsOf mathNode) = false /\
   someType "exec" (outputsOf mathNode) = false) /\
  isPure (bp_data (transformNode mathNode)) = true.
Proof.
  assert (H : (classify mathNode = GenericPure \/ classify mathNode = VariableGet) /\
              someType "exec" (inputsOf mathNode) = false /\
              someType "exec" (outputsOf mathNode) = false)
    by (split; [left; reflexivity|split; reflexivity]).
  split; [exact H|].
  exact (proj2 (pure_nodes_stay_pure mathNode) H).
Defined.

Lemma eventPrefix_not_branch node :
  JS.startsWith "Event" (labelOf node) || JS.startsWith "Input" (labelOf node)
    || JS.startsWith "On " (labelOf node) = true ->
  isBranch node = false.
Proof.
  unfold isBranch. intros H.
  destruct (String.eqb (labelOf node) "Branch") eqn:E1.
  { apply String.eqb_eq in E1. rewrite E1 in H. discriminate. }
  destruct (String.eqb (labelOf node) "If") eqn:E2.
  { apply String.eqb_eq in E2. rewrite E2 in H. discriminate. }
  reflexivity.
Qed.

(** X7: a node whose label starts with "Event", "Input" or "On " is repaired by
    the Event rule, whatever its kind: its inputs are left as they are and it
    has an Exec output; and the component draws it with the event header,
    whatever else the label contains. *)
Theorem event_label_repair_and_style node
    (Hlabel : JS.startsWith "Event" (labelOf node) || JS.startsWith "Input" (labelOf node)
                || JS.startsWith "On " (labelOf node) = true) :
  classify node = Event /\
  eventRule node (ensureDefaultPins node) /\
  someType "exec" (outputsOf (ensureDefaultPins node)) = true /\
  headerStyle (bp_data (transformNode node)) = EventHeader.
Proof.
  assert (Hc : classify node = Event).
  { unfold classify. rewrite (eventPrefix_not_branch node Hlabel).
    unfold isEvent.
    destruct (JS.startsWith "Event" (labelOf node)),
      (JS.startsWith "Input" (labelOf node)),
      (JS.startsWith "On " (labelOf node));
      try discriminate; rewrite ?orb_true_r; reflexivity. }
  split; [exact Hc|].
  split; [rewrite ensureDefaultPins_repair, Hc; split; reflexivity|].
  split; [apply someType_repair_output; rewrite Hc; reflexivity|].
  unfold headerStyle, effectiveNodeType.
  assert (Hl : JS.orElse (data_label (bp_data (transformNode node))) "" = labelOf node).
  { unfold transformNode. simpl. rewrite ensureDefaultPins_repair.
    destruct (repair_withPins (classify node) node) as (ins & outs & ->). reflexivity. }
  rewrite Hl, Hlabel.
  destruct (JS.includes "Input Action" (labelOf node) || JS.includes "InputAxis" (labelOf node));
    reflexivity.
Qed.

Lemma event_label_repair_and_style_witness :
  JS.startsWith "Event" (labelOf inputActionNode)
    || JS.startsWith "Input" (labelOf inputActionNode)
    || JS.startsWith "On " (labelOf inputActionNode) = true /\
  classify inputActionNode = Event /\
  headerStyle (bp_data (transformNode inputActionNode)) = EventHeader.
Proof.
  assert (H : JS.startsWith "Event" (labelOf inputActionNode)
                || JS.startsWith "Input" (labelOf inputActionNode)
                || JS.startsWith "On " (labelOf inputActionNode) = true) by reflexivity.
  split; [exact H|].
  destruct (event_label_repair_and_style inputActionNode H) as (Hc & _ & _ & Hs).
  split; [exact Hc|exact Hs].
Defined.

End Rendering.

(** * Further properties of the edge resolver *)

Section ResolverMore.

Implicit Types (nodes : list BPNode) (edge : RawEdge) (pins : list Pin).

Lemma findNode_Some nodes id n :
  findNode nodes id = Some n -> n ∈ nodes /\ bp_id n = id.
Proof.
  unfold findNode. intros H. apply find_some in H as [Hin Heq].
  apply String.eqb_eq in Heq. split; [apply list_elem_of_In; exact Hin|exact Heq].
Qed.

Lemma truthy_default (o : option string) :
  JS.truthy o = true -> o = Some (default "" o) /\ default "" o <> "".
Proof.
  destruct o as [s|]; simpl; [|discriminate].
  intros H. apply negb_true_iff, String.eqb_neq in H. auto.
Qed.

Lemma validEdges_elem nodes (edges : list RawEdge) (resolved : BPEdge) :
  resolved ∈ validEdges nodes edges <->
  exists index edge, edges !! index = Some edge /\
                     resolveEdge nodes index edge = Some resolved.
Proof.
  unfold validEdges. rewrite list_elem_of_omap. split.
  - intros (o & Ho & Hr). simpl in Hr. subst o.
    apply elem_of_lookup_imap in Ho as (index & edge & Hres & Hlook). eauto.
  - intros (index & edge & Hlook & Hres). exists (Some resolved). split; [|reflexivity].
    rewrite <- Hres. apply elem_of_lookup_imap_2. exact Hlook.
Qed.

Lemma resolveEdge_inv nodes index edge resolved :
  resolveEdge nodes index edge = Some resolved ->
  exists sourceNode targetNode,
    findNode nodes (raw_source edge) = Some sourceNode /\
    findNode nodes (raw_target edge) = Some targetNode /\
    JS.truthy (finalSourceHandle edge sourceNode) = true /\
    JS.truthy (finalTargetHandle edge targetNode) = true /\
    resolved = {| e_id := edgeId index edge;
                  e_source := raw_source edge;
                  e_target := raw_target edge;
                  e_sourceHandle := default "" (finalSourceHandle edge sourceNode);
                  e_targetHandle := default "" (finalTargetHandle edge targetNode) |}.
Proof.
  unfold resolveEdge.
  destruct (findNode nodes (raw_source edge)) as [s|]; [|discriminate].
  destruct (findNode nodes (raw_target edge)) as [t|]; [|discriminate].
  destruct (JS.truthy (finalSourceHandle edge s)) eqn:Hs; [|discriminate].
  destruct (JS.truthy (finalTargetHandle edge t)) eqn:Ht; [|discriminate].
  simpl. intros [= <-]. exists s, t. repeat split; assumption.
Qed.

(** X8: every edge that the resolver returns joins two of the given nodes,
    and both of its handles are non-empty strings. *)
Theorem resolved_edges_join_nodes nodes (edges : list RawEdge) (resolved : BPEdge)
    (Hin : resolved ∈ validEdges nodes edges) :
  e_source resolved ∈ ids nodes /\ e_target resolved ∈ ids nodes /\
  e_sourceHandle resolved <> "" /\ e_targetHandle resolved <> "".
Proof.
  apply validEdges_elem in Hin as (index & edge & _ & Hres).
  apply resolveEdge_inv in Hres as (s & t & Hs & Ht & Hsh & Hth & ->). simpl.
  apply findNode_Some in Hs as [Hs <-]. apply findNode_Some in Ht as [Ht <-].
  unfold ids. repeat split.
  - apply list_elem_of_In, in_map, list_elem_of_In. exact Hs.
  - apply list_elem_of_In, in_map, list_elem_of_In. exact Ht.
  - apply truthy_default. exact Hsh.
  - apply truthy_default. exact Hth.
Qed.

Lemma resolved_edges_join_nodes_witness :
  mkBPEdge "e_N0_N2_0" "N0" "N2" "N0_Output" "N2_Exec"
    ∈ validEdges (transformedNodes [rawBeginPlay; rawPrint]) [edgePlain] /\
  "N0" ∈ ids (transformedNodes [rawBeginPlay; rawPrint]) /\
  "N2" ∈ ids (transformedNodes [rawBeginPlay; rawPrint]) /\
  "N0_Output" <> "" /\ "N2_Exec" <> "".
Proof.
  assert (Hin : mkBPEdge "e_N0_N2_0" "N0" "N2" "N0_Output" "N2_Exec"
                  ∈ validEdges (transformedNodes [rawBeginPlay; rawPrint]) [edgePlain])
    by (vm_compute; left).
  split; [exact Hin|].
  exact (resolved_edges_join_nodes _ _ _ Hin).
Defined.

Lemma pinExists_names handle pins :
  pinExists handle pins = true ->
  exists p, p ∈ pins /\ pin_id p = default "" handle.
Proof.
  unfold pinExists. intros H. apply andb_true_iff in H as [_ H].
  apply existsb_exists in H as (p & Hp & Heq). apply String.eqb_eq in Heq.
  exists p. split; [apply list_elem_of_In; exact Hp|exact Heq].
Qed.

Lemma firstPin_names handle pins :
  pins <> [] -> exists p, p ∈ pins /\ firstPin handle pins = Some (pin_id p).
Proof.
  destruct pins as [|p pins]; [congruence|]. intros _.
  exists p. split; [left|reflexivity].
Qed.

Lemma fallback_names execLike handle pins :
  pins <> [] -> exists p, p ∈ pins /\ fallback execLike handle pins = Some (pin_id p).
Proof.
  intros Hne. unfold fallback. destruct execLike; [|apply firstPin_names; exact Hne].
  destruct (List.find isExec pins) as [p|] eqn:E; [|apply firstPin_names; exact Hne].
  apply find_some in E as [Hp _]. exists p. split; [apply list_elem_of_In; exact Hp|reflexivity].
Qed.

(** X9: the handles of a resolved edge name pins whenever there are pins to
    name.  The source handle is the declared one if that is the id of an
    output pin of the source node; otherwise, if the source node has an output
    pin at all, it is the id of one of its output pins.  The same holds for
    the target handle and the input pins of the target node. *)
Theorem resolved_handles_name_pins nodes (index : nat) edge (resolved : BPEdge)
    (Hres : resolveEdge nodes index edge = Some resolved) :
  exists sourceNode targetNode,
    findNode nodes (e_source resolved) = Some sourceNode /\
    findNode nodes (e_target resolved) = Some targetNode /\
    (pinExists (raw_sourceHandle edge) (data_outputs (bp_data sourceNode)) = true ->
       raw_sourceHandle edge = Some (e_sourceHandle resolved)) /\
    (pinExists (raw_targetHandle edge) (data_inputs (bp_data targetNode)) = true ->
       raw_targetHandle edge = Some (e_targetHandle resolved)) /\
    (data_outputs (bp_data sourceNode) <> [] ->
       exists p, p ∈ data_outputs (bp_data sourceNode) /\
                 pin_id p = e_sourceHandle resolved) /\
    (data_inputs (bp_data targetNode) <> [] ->
       exists p, p ∈ data_inputs (bp_data targetNode) /\
                 pin_id p = e_targetHandle resolved).
Proof.
  apply resolveEdge_inv in Hres as (s & t & Hs & Ht & Hsh & Hth & ->). simpl.
  exists s, t. split; [exact Hs|]. split; [exact Ht|].
  unfold finalSourceHandle, finalTargetHandle in *.
  destruct (pinExists (raw_sourceHandle edge) (data_outputs (bp_data s))) eqn:Es;
    destruct (pinExists (raw_targetHandle edge) (data_inputs (bp_data t))) eqn:Et;
    repeat split; try discriminate; intros H;
    try (apply truthy_default; assumption);
    try (apply pinExists_names; assumption);
    match goal with
    | |- exists p, p ∈ ?pins /\ pin_id p = default "" (fallback ?b ?h ?pins) =>
        destruct (fallback_names b h pins H) as (p & Hp & ->); exists p; auto
    end.
Qed.

Lemma resolved_handles_name_pins_witness :
  resolveEdge (transformedNodes [rawBeginPlay; rawPrint]) 0 edgeDeclared
    = Some (mkBPEdge "e_N0_N2_0" "N0" "N2" "N0_Output" "N2_Exec") /\
  exists sourceNode targetNode,
    findNode (transformedNodes [rawBeginPlay; rawPrint]) "N0" = Some sourceNode /\
    findNode (transformedNodes [rawBeginPlay; rawPrint]) "N2" = Some targetNode /\
    (pinExists (Some "N0_Output") (data_outputs (bp_data sourceNode)) = true ->
       Some "N0_Output" = Some "N0_Output") /\
    (pinExists (Some "N2_Exec") (data_inputs (bp_data targetNode)) = true ->
       Some "N2_Exec" = Some "N2_Exec") /\
    (data_outputs (bp_data sourceNode) <> [] ->
       exists p, p ∈ data_outputs (bp_data sourceNode) /\ pin_id p = "N0_Output") /\
    (data_inputs (bp_data targetNode) <> [] ->
       exists p, p ∈ data_inputs (bp_data targetNode) /\ pin_id p = "N2_Exec").
Proof.
  assert (Hres : resolveEdge (transformedNodes [rawBeginPlay; rawPrint]) 0 edgeDeclared
                 = Some (mkBPEdge "e_N0_N2_0" "N0" "N2" "N0_Output" "N2_Exec"))
    by reflexivity.
  split; [exact Hres|].
  exact (resolved_handles_name_pins _ _ _ _ Hres).
Defined.

Lemma find_unshift_exec pin pins :
  isExec pin = true -> someType "exec" pins = false ->
  List.find isExec (unshiftUnlessType "exec" pin pins) = Some pin.
Proof.
  intros Hpin Hnone. unfold unshiftUnlessType. rewrite Hnone. simpl.
  rewrite Hpin. reflexivity.
Qed.

Lemma find_app_data pins pin :
  isExec pin = false ->
  List.find isExec (pins ++ [pin]) = List.find isExec pins.
Proof.
  intros Hpin. induction pins as [|p pins IH]; simpl; [rewrite Hpin; reflexivity|].
  destruct (isExec p); [reflexivity|exact IH].
Qed.

Lemma find_repaired_input (node : RawNode) :
  repairsExecInput (classify node) = true ->
  someType "exec" (inputsOf node) = false ->
  List.find isExec (inputsOf (ensureDefaultPins node)) = Some (execIn node).
Proof.
  rewrite ensureDefaultPins_repair.
  destruct (classify node); simpl; try discriminate; intros _ Hnone;
    unfold repairBranch, repairSequence, repairExec, repairForLoop;
    change (inputsOf (withPins ?n ?i ?o)) with i;
    try (unfold pushUnlessType;
         destruct (someType "boolean" _); [|rewrite find_app_data by reflexivity]);
    apply find_unshift_exec; auto.
Qed.

Lemma find_repaired_output (node : RawNode) :
  repairsExecOutput (classify node) = true ->
  someType "exec" (outputsOf node) = false ->
  List.find isExec (outputsOf (ensureDefaultPins node)) = Some (execOut node).
Proof.
  rewrite ensureDefaultPins_repair.
  destruct (classify node); simpl; try discriminate; intros _ Hnone;
    unfold repairEvent, repairExec;
    change (outputsOf (withPins ?n ?i ?o)) with o;
    apply find_unshift_exec; auto.
Qed.

Lemma pinExists_absent handle pins :
  JS.truthy handle = false -> pinExists handle pins = false.
Proof. intros H. unfold pinExists. rewrite H. reflexivity. Qed.

(** X10: normalizer and resolver together.  Take an edge that declares no
    handles, from a raw node whose category gets an Exec output to a raw node
    whose category gets an Exec input, neither of which came with an Exec pin
    on that side.  The edge is kept and is wired from the Exec output that
    the normalizer made ([source_Output]) to the Exec input that it made
    ([target_Exec]). *)
Theorem bare_edge_wired_exec_to_exec (rawNodes : list RawNode) (index : nat) edge
    (source target : RawNode)
    (Hsource : findNode (transformedNodes rawNodes) (raw_source edge)
               = Some (transformNode source))
    (Htarget : findNode (transformedNodes rawNodes) (raw_target edge)
               = Some (transformNode target))
    (Hout : repairsExecOutput (classify source) = true)
    (Hin : repairsExecInput (classify target) = true)
    (HnoOut : someType "exec" (outputsOf source) = false)
    (HnoIn : someType "exec" (inputsOf target) = false)
    (Hsh : JS.truthy (raw_sourceHandle edge) = false)
    (Hth : JS.truthy (raw_targetHandle edge) = false) :
  resolveEdge (transformedNodes rawNodes) index edge =
    Some {| e_id := edgeId index edge;
            e_source := raw_source edge;
            e_target := raw_target edge;
            e_sourceHandle := node_id source +:+ "_Output";
            e_targetHandle := node_id target +:+ "_Exec" |}.
Proof.
  assert (Hfs : finalSourceHandle edge (transformNode source)
                = Some (node_id source +:+ "_Output")).
  { unfold finalSourceHandle. rewrite pinExists_absent by exact Hsh.
    unfold isExecLikeSource. rewrite Hsh. cbn [negb orb]. unfold fallback.
    rewrite transformNode_outputs, (find_repaired_output source Hout HnoOut).
    reflexivity. }
  assert (Hft : finalTargetHandle edge (transformNode target)
                = Some (node_id target +:+ "_Exec")).
  { unfold finalTargetHandle. rewrite pinExists_absent by exact Hth.
    unfold isExecLikeTarget. rewrite Hth. cbn [negb orb]. unfold fallback.
    rewrite transformNode_inputs, (find_repaired_input target Hin HnoIn).
    reflexivity. }
  assert (Ht : forall s, JS.truthy (Some (s +:+ "_Output")) = true
                         /\ JS.truthy (Some (s +:+ "_Exec")) = true).
  { intros s. destruct s as [|c s]; [split; reflexivity|].
    rewrite !append_cons. split; reflexivity. }
  unfold resolveEdge. rewrite Hsource, Htarget, Hfs, Hft.
  rewrite (proj1 (Ht (node_id source))), (proj2 (Ht (node_id target))).
  reflexivity.
Qed.

Lemma bare_edge_wired_exec_to_exec_witness :
  resolveEdge (transformedNodes [rawBeginPlay; rawPrint]) 0 edgePlain =
    Some {| e_id := edgeId 0 edgePlain;
            e_source := "N0"; e_target := "N2";
            e_sourceHandle := "N0" +:+ "_Output";
            e_targetHandle := "N2" +:+ "_Exec" |}.
Proof.
  exact (bare_edge_wired_exec_to_exec [rawBeginPlay; rawPrint] 0 edgePlain
           rawBeginPlay rawPrint eq_refl eq_refl eq_refl eq_refl eq_refl eq_refl
           eq_refl eq_refl).
Defined.

Lemma validEdges_sublist (f : nat -> RawEdge -> option BPEdge) (edges : list RawEdge) :
  (forall i e r, f i e = Some r ->
     (e_source r, e_target r) = (raw_source e, raw_target e)) ->
  ((fun r => (e_source r, e_target r)) <$> omap id (imap f edges))
    `sublist_of` ((fun e => (raw_source e, raw_target e)) <$> edges).
Proof.
  revert f. induction edges as [|e edges IH]; intros f Hf; [constructor|].
  rewrite imap_cons. simpl.
  destruct (f 0%nat e) as [r|] eqn:E; simpl.
  - rewrite (Hf _ _ _ E). apply sublist_skip. apply IH.
    intros i e' r'. apply Hf.
  - apply sublist_cons. apply IH. intros i e' r'. apply Hf.
Qed.

(** X11: the resolver neither reorders nor duplicates: the (source, target)
    pairs of the edges it returns form a subsequence of those of the raw
    edges; in particular it returns no more edges than it was given. *)
Theorem resolver_keeps_order nodes (edges : list RawEdge) :
  ((fun r => (e_source r, e_target r)) <$> validEdges nodes edges)
    `sublist_of` ((fun e => (raw_source e, raw_target e)) <$> edges) /\
  (length (validEdges nodes edges) <= length edges)%nat.
Proof.
  assert (H : ((fun r => (e_source r, e_target r)) <$> validEdges nodes edges)
                `sublist_of` ((fun e => (raw_source e, raw_target e)) <$> edges)).
  { apply validEdges_sublist. intros i e r Hr.
    apply resolveEdge_id in Hr as (_ & -> & ->). reflexivity. }
  split; [exact H|].
  apply sublist_length in H. rewrite !length_fmap in H. exact H.
Qed.

(** *** Generated ids *)

Lemma list_ascii_app (a b : string) :
  list_ascii_of_string (a +:+ b) = list_ascii_of_string a ++ list_ascii_of_string b.
Proof.
  induction a as [|c a IH]; [reflexivity|].
  rewrite append_cons. simpl. f_equal. exact IH.
Qed.

Lemma digits_no_underscore (d : Decimal.uint) :
  "_"%char ∉ list_ascii_of_string (NilEmpty.string_of_uint d).
Proof.
  induction d; simpl; [intros H; inversion H|..];
    (intros H; apply elem_of_cons in H as [H|H]; [discriminate|contradiction]).
Qed.

Lemma ofIndex_no_underscore (n : nat) :
  "_"%char ∉ list_ascii_of_string (JS.ofIndex n).
Proof.
  unfold JS.ofIndex, NilZero.string_of_uint.
  destruct (Nat.to_uint n) eqn:E; try (rewrite <- E; apply digits_no_underscore).
  simpl. intros H. apply elem_of_cons in H as [H|H]; [discriminate|inversion H].
Qed.

Lemma ofIndex_inj (n m : nat) : JS.ofIndex n = JS.ofIndex m -> n = m.
Proof.
  unfold JS.ofIndex. intros H.
  assert (Hnn : forall k, Nat.to_uint k <> Decimal.Nil).
  { intros k Hk.
    assert (Hu := DecimalNat.Unsigned.to_of (Nat.to_uint k)).
    rewrite DecimalNat.Unsigned.of_to, Hk in Hu.
    symmetry in Hu. revert Hu. apply DecimalFacts.unorm_nonnil. }
  apply (f_equal NilZero.uint_of_string) in H.
  rewrite !NilZero.usu in H by apply Hnn.
  injection H as H. apply DecimalNat.Unsigned.to_uint_inj. exact H.
Qed.

Lemma last_segment_unique (l1 l2 d1 d2 : list ascii) :
  "_"%char ∉ d1 -> "_"%char ∉ d2 ->
  l1 ++ "_"%char :: d1 = l2 ++ "_"%char :: d2 -> d1 = d2.
Proof.
  intros H1 H2. revert l2. induction l1 as [|c l1 IH]; intros [|c' l2] Heq; simpl in Heq.
  - congruence.
  - injection Heq as _ Hd. exfalso. apply H1. rewrite Hd.
    apply elem_of_app. right. left.
  - injection Heq as _ Hd. exfalso. apply H2. rewrite <- Hd.
    apply elem_of_app. right. left.
  - injection Heq as _ Heq. eapply IH. exact Heq.
Qed.

Lemma edgeId_generated index edge :
  JS.truthy (raw_id edge) = false ->
  exists front, list_ascii_of_string (edgeId index edge)
                = front ++ "_"%char :: list_ascii_of_string (JS.ofIndex index).
Proof.
  intros H. unfold edgeId, JS.orElse. unfold JS.truthy in H.
  exists (list_ascii_of_string ("e_" +:+ raw_source edge +:+ "_" +:+ raw_target edge)).
  assert (Hgen : list_ascii_of_string
                   ("e_" +:+ raw_source edge +:+ "_" +:+ raw_target edge +:+ "_"
                      +:+ JS.ofIndex index)
                 = list_ascii_of_string ("e_" +:+ raw_source edge +:+ "_" +:+ raw_target edge)
                     ++ "_"%char :: list_ascii_of_string (JS.ofIndex index)).
  { rewrite !list_ascii_app. rewrite <- !app_assoc. reflexivity. }
  destruct (raw_id edge) as [s|]; [|exact Hgen].
  destruct (String.eqb s ""); [exact Hgen|discriminate].
Qed.

(** X12: two edges that declare no id and stand at different positions of
    the raw sequence come out of the resolver with different ids, whatever
    their sources and targets are. *)
Theorem generated_edge_ids_differ nodes (i j : nat) (ei ej : RawEdge) (ri rj : BPEdge)
    (Hi : resolveEdge nodes i ei = Some ri)
    (Hj : resolveEdge nodes j ej = Some rj)
    (Hdi : JS.truthy (raw_id ei) = false)
    (Hdj : JS.truthy (raw_id ej) = false)
    (Hij : i <> j) :
  e_id ri <> e_id rj.
Proof.
  apply resolveEdge_id in Hi as (-> & _). apply resolveEdge_id in Hj as (-> & _).
  intros Heq. apply Hij.
  destruct (edgeId_generated i ei Hdi) as (fi & Hfi).
  destruct (edgeId_generated j ej Hdj) as (fj & Hfj).
  rewrite Heq, Hfj in Hfi.
  apply last_segment_unique in Hfi; try apply ofIndex_no_underscore.
  apply ofIndex_inj. apply (f_equal string_of_list_ascii) in Hfi.
  rewrite !string_of_list_ascii_of_string in Hfi. congruence.
Qed.

Lemma generated_edge_ids_differ_witness :
  resolveEdge (transformedNodes [rawBeginPlay; rawPrint]) 0 edgePlain
    = Some (mkBPEdge "e_N0_N2_0" "N0" "N2" "N0_Output" "N2_Exec") /\
  resolveEdge (transformedNodes [rawBeginPlay; rawPrint]) 1 edgePlain
    = Some (mkBPEdge "e_N0_N2_1" "N0" "N2" "N0_Output" "N2_Exec") /\
  JS.truthy (raw_id edgePlain) = false /\ 0%nat <> 1%nat /\
  "e_N0_N2_0" <> "e_N0_N2_1".
Proof.
  assert (H0 : resolveEdge (transformedNodes [rawBeginPlay; rawPrint]) 0 edgePlain
               = Some (mkBPEdge "e_N0_N2_0" "N0" "N2" "N0_Output" "N2_Exec"))
    by reflexivity.
  assert (H1 : resolveEdge (transformedNodes [rawBeginPlay; rawPrint]) 1 edgePlain
               = Some (mkBPEdge "e_N0_N2_1" "N0" "N2" "N0_Output" "N2_Exec"))
    by reflexivity.
  assert (Hne : 0%nat <> 1%nat) by discriminate.
  repeat (split; [first [assumption | reflexivity]|]).
  exact (generated_edge_ids_differ _ 0 1 edgePlain edgePlain _ _ H0 H1 eq_refl eq_refl Hne).
Defined.

End ResolverMore.

(** * Further properties of the layout engine *)

Section LayoutMore.

Variables (nodes : list BPNode) (edges : list BPEdge).

Let adjacency := adjacencyOf nodes edges.
Let inverse := inverseAdjacencyOf nodes edges.
Let seeds := initialQueue inverse nodes.

Lemma layout_ids fuel out outEdges :
  getLayoutedElements fuel nodes edges = Some (out, outEdges) ->
  map bp_id out = map bp_id nodes.
Proof.
  unfold getLayoutedElements. intros Hrun.
  destruct (assignRanks fuel nodes edges) as [ranks|]; [|discriminate].
  injection Hrun as <- _. unfold applyPositions. rewrite map_map. reflexivity.
Qed.

(** X13: whenever the layout returns for a graph with plain keys, it returns
    the edges it was given and the nodes it was given, in the same order and
    with the same ids, types and data.  New are the sides of the handles
    (targets on the left, sources on the right) and the positions, each the
    entry of the position dictionary for the node's id. *)
Theorem layout_keeps_nodes_and_edges fuel out outEdges
    (Hplain : plainKeys nodes edges = true)
    (Hrun : getLayoutedElements fuel nodes edges = Some (out, outEdges)) :
  outEdges = edges /\
  map bp_id out = map bp_id nodes /\
  map bp_type out = map bp_type nodes /\
  map bp_data out = map bp_data nodes /\
  (forall a, a ∈ out ->
     bp_targetPosition a = Some PositionLeft /\
     bp_sourcePosition a = Some PositionRight) /\
  exists ranks,
    assignRanks fuel nodes edges = Some ranks /\
    map (fun a => Some (bp_position a)) out
      = map (fun n => positionsOf nodes edges ranks !! bp_id n) nodes.
Proof.
  unfold getLayoutedElements in Hrun.
  destruct (assignRanks fuel nodes edges) as [ranks|] eqn:Hranks; [|discriminate].
  injection Hrun as <- <-. unfold applyPositions. rewrite !map_map. simpl.
  split; [reflexivity|]. split; [reflexivity|]. split; [reflexivity|].
  split; [reflexivity|]. split.
  { intros a Ha. apply list_elem_of_In, in_map_iff in Ha as (n & <- & _).
    split; reflexivity. }
  exists ranks. split; [reflexivity|].
  apply map_ext_in. intros n Hn. simpl.
  destruct (positionsOf_placed nodes edges ranks n) as [p Hp].
  - intros id. eapply rankOf_nonneg. exact Hranks.
  - apply list_elem_of_In. exact Hn.
  - rewrite Hp. reflexivity.
Qed.

(** X14: on every acyclic edge set with plain keys the layout returns, for
    any node list (edges between unknown nodes included), with one positioned
    node for each given node. *)
Theorem layout_terminates_on_acyclic
    (Hplain : plainKeys nodes edges = true) (Hacyclic : acyclic edges) :
  exists fuel out,
    getLayoutedElements fuel nodes edges = Some (out, edges) /\
    length out = length nodes.
Proof.
  destruct (assignRanks_terminates nodes edges _ (acyclic_height edges Hacyclic))
    as (fuel & ranks & Hrun).
  exists fuel, (applyPositions (positionsOf nodes edges ranks) nodes).
  unfold getLayoutedElements. rewrite Hrun. split; [reflexivity|].
  unfold applyPositions. apply length_map.
Qed.

Lemma chain_snoc u vs w t :
  chain edges u vs -> endsAt u vs w -> edgeOf edges w t -> chain edges u (vs ++ [t]).
Proof.
  revert u. induction vs as [|v vs IH]; intros u Hc He Hedge.
  - unfold endsAt in He. simpl in He. injection He as <-. simpl. auto.
  - destruct Hc as [Huv Hc]. split; [exact Huv|].
    apply IH; [exact Hc| |exact Hedge]. exact He.
Qed.

Lemma endsAt_snoc u vs t : endsAt u (vs ++ [t]) t.
Proof. unfold endsAt. rewrite app_comm_cons. apply last_snoc. Qed.

Lemma chain_last_edge u vs v :
  chain edges u vs -> vs <> [] -> endsAt u vs v -> exists w, edgeOf edges w v.
Proof.
  revert u. induction vs as [|x vs IH]; intros u Hc Hne He; [congruence|].
  destruct Hc as [Hux Hc]. destruct vs as [|y vs].
  - unfold endsAt in He. simpl in He. injection He as <-. eauto.
  - apply (IH x); [exact Hc|discriminate|exact He].
Qed.

Lemma walked_step id rank t :
  walked edges seeds id rank -> t ∈ listAt adjacency id ->
  walked edges seeds t (rank + 1).
Proof.
  intros (s & vs & Hs & Hc & He & ->) Ht.
  apply adjacencyOf_elem in Ht as [_ Hedge].
  exists s, (vs ++ [t]). split; [exact Hs|].
  split; [eapply chain_snoc; eassumption|].
  split; [apply endsAt_snoc|]. rewrite length_app. simpl. lia.
Qed.

Lemma ranksWalked_step id rank queue ranks :
  ranksWalked edges seeds ((id, rank) :: queue) ranks ->
  ranksWalked edges seeds (fst (relax adjacency id rank queue ranks))
                          (snd (relax adjacency id rank queue ranks)).
Proof.
  intros [Hq Hr]. rewrite relax_queue, relax_ranks.
  assert (Hid : walked edges seeds id rank) by (apply Hq; left).
  split.
  - intros v k Hin. apply elem_of_app in Hin as [Hin|Hin].
    + apply Hq. right. exact Hin.
    + apply list_elem_of_In, in_map_iff in Hin as (t & [= <- <-] & Ht).
      apply filter_In in Ht as [Ht _].
      apply (walked_step id); [exact Hid|apply list_elem_of_In; exact Ht].
  - intros v k Hv. apply raiseRank_cases in Hv as [(-> & -> & _)|Hv]; [exact Hid|].
    apply Hr. exact Hv.
Qed.

(** Every rank is the length of a walk from a seed of the queue. *)
Lemma assignRanks_walked fuel ranks v k :
  assignRanks fuel nodes edges = Some ranks ->
  ranks !! v = Some k -> walked edges seeds v k.
Proof.
  unfold assignRanks. intros Hrun.
  apply (rankLoop_invariant adjacency (ranksWalked edges seeds)) in Hrun.
  - apply Hrun.
  - intros id rank queue r. apply ranksWalked_step.
  - split.
    + intros x y Hin. assert (Hy := initialQueue_ranks nodes edges x y Hin). subst y.
      exists x, []. repeat split. exact Hin.
    + intros x y Hx. rewrite lookup_empty in Hx. discriminate.
Qed.

Lemma rankOf_source fuel ranks v :
  assignRanks fuel nodes edges = Some ranks ->
  (forall e, e ∈ edges -> e_target e <> v) ->
  rankOf ranks v = 0%Z.
Proof.
  intros Hrun Hno. unfold rankOf.
  destruct (ranks !! v) as [k|] eqn:E; [|reflexivity]. simpl.
  destruct (assignRanks_walked fuel ranks v k Hrun E) as (s & vs & _ & Hc & He & ->).
  destruct vs as [|x vs]; [reflexivity|].
  destruct (chain_last_edge s (x :: vs) v Hc ltac:(discriminate) He)
    as (w & e & Hin & _ & Ht).
  exfalso. exact (Hno e Hin Ht).
Qed.

(** X15: whenever the layout returns for a graph with plain keys, every node
    that no edge points at is placed in column 0. *)
Theorem sources_in_first_column fuel out outEdges (a : BPNode)
    (Hplain : plainKeys nodes edges = true)
    (Hrun : getLayoutedElements fuel nodes edges = Some (out, outEdges))
    (Ha : a ∈ out)
    (Hsource : forall e, e ∈ edges -> e_target e <> bp_id a) :
  pos_x (bp_position a) = 0%Q.
Proof.
  destruct (layout_column _ _ _ _ _ Hrun) as (ranks & Hranks & Hx).
  rewrite (Hx a Ha), (rankOf_source fuel ranks _ Hranks Hsource). reflexivity.
Qed.

Section LongestWalk.

Hypothesis Hacyclic : acyclic edges.
Hypothesis Hknown : sourcesKnown nodes edges.

Lemma chain_ranks fuel ranks :
  assignRanks fuel nodes edges = Some ranks ->
  forall vs u v, chain edges u vs -> endsAt u vs v -> v ∈ ids nodes ->
    u ∈ ids nodes /\ (rankOf ranks u + Z.of_nat (length vs) <= rankOf ranks v)%Z.
Proof.
  intros Hrun. induction vs as [|w vs IH]; intros u v Hc He Hv.
  - unfold endsAt in He. simpl in He. injection He as <-. split; [exact Hv|simpl; lia].
  - destruct Hc as [(e & Hin & Hs & Ht) Hc].
    destruct (IH w v Hc He Hv) as [Hw Hle].
    assert (Hu : u ∈ ids nodes).
    { rewrite <- Hs. apply Hknown; [exact Hin|]. rewrite Ht. exact Hw. }
    split; [exact Hu|].
    assert (Hedge := assignRanks_edges nodes edges _ (acyclic_height edges Hacyclic)
                       Hknown fuel ranks Hrun e Hin).
    rewrite Hs, Ht in Hedge. specialize (Hedge Hu).
    simpl length. lia.
Qed.

(** The rank of a node is the length of the longest walk that ends in it. *)
Lemma rank_is_longest_walk fuel ranks v :
  assignRanks fuel nodes edges = Some ranks -> v ∈ ids nodes ->
  (exists u vs, chain edges u vs /\ endsAt u vs v /\
                rankOf ranks v = Z.of_nat (length vs)) /\
  (forall u vs, chain edges u vs -> endsAt u vs v ->
                (Z.of_nat (length vs) <= rankOf ranks v)%Z).
Proof.
  intros Hrun Hv. split.
  - destruct (assignRanks_all_ranked nodes edges _ (acyclic_height edges Hacyclic)
                Hknown fuel ranks Hrun v Hv) as [k Hk].
    destruct (assignRanks_walked fuel ranks v k Hrun Hk) as (s & vs & _ & Hc & He & ->).
    exists s, vs. unfold rankOf. rewrite Hk. auto.
  - intros u vs Hc He.
    destruct (chain_ranks fuel ranks Hrun vs u v Hc He Hv) as [_ Hle].
    assert (H0 := rankOf_nonneg nodes edges fuel ranks u Hrun). lia.
Qed.

End LongestWalk.

End LayoutMore.

Lemma layout_keeps_nodes_and_edges_witness :
  plainKeys scenarioB_nodes scenarioB_edges = true /\
  getLayoutedElements 4 scenarioB_nodes scenarioB_edges
    = Some (scenarioB_layout, scenarioB_edges) /\
  map bp_id scenarioB_layout = map bp_id scenarioB_nodes.
Proof.
  assert (Hrun : getLayoutedElements 4 scenarioB_nodes scenarioB_edges
                 = Some (scenarioB_layout, scenarioB_edges)) by (vm_compute; reflexivity).
  split; [reflexivity|]. split; [exact Hrun|].
  apply (layout_keeps_nodes_and_edges scenarioB_nodes scenarioB_edges 4
           scenarioB_layout scenarioB_edges eq_refl Hrun).
Defined.

Lemma sources_in_first_column_witness :
  plainKeys scenarioB_nodes scenarioB_edges = true /\
  getLayoutedElements 4 scenarioB_nodes scenarioB_edges
    = Some (scenarioB_layout, scenarioB_edges) /\
  placed "Event" "event" 0 0 ∈ scenarioB_layout /\
  (forall e, e ∈ scenarioB_edges -> e_target e <> "Event") /\
  pos_x (bp_position (placed "Event" "event" 0 0)) = 0%Q.
Proof.
  assert (Hrun : getLayoutedElements 4 scenarioB_nodes scenarioB_edges
                 = Some (scenarioB_layout, scenarioB_edges)) by (vm_compute; reflexivity).
  assert (Ha : placed "Event" "event" 0 0 ∈ scenarioB_layout) by left.
  assert (Hs : forall e, e ∈ scenarioB_edges -> e_target e <> "Event").
  { intros e He. unfold scenarioB_edges in He.
    repeat (apply elem_of_cons in He as [->|He]); [discriminate..|inversion He]. }
  split; [reflexivity|].
  split; [exact Hrun|]. split; [exact Ha|]. split; [exact Hs|].
  exact (sources_in_first_column scenarioB_nodes scenarioB_edges 4 scenarioB_layout
           scenarioB_edges _ eq_refl Hrun Ha Hs).
Defined.


(** X16: longest-path layering.  On an acyclic graph with plain keys in
    which no edge enters a given node from outside the node set, the column of
    every node is the length of the longest walk that ends in it: some walk of
    that many edges ends in the node, and no walk that ends in it is longer. *)
Theorem column_is_longest_walk (nodes : list BPNode) (edges : list BPEdge)
    fuel out outEdges (a : BPNode)
    (Hplain : plainKeys nodes edges = true)
    (Hacyclic : acyclic edges) (Hknown : sourcesKnown nodes edges)
    (Hrun : getLayoutedElements fuel nodes edges = Some (out, outEdges))
    (Ha : a ∈ out) :
  exists k : nat,
    pos_x (bp_position a) = inject_Z (Z.of_nat k * RANK_SPACING) /\
    (exists u vs, chain edges u vs /\ endsAt u vs (bp_id a) /\ length vs = k) /\
    (forall u vs, chain edges u vs -> endsAt u vs (bp_id a) -> (length vs <= k)%nat).
Proof.
  destruct (layout_column _ _ _ _ _ Hrun) as (ranks & Hranks & Hx).
  assert (Hid : bp_id a ∈ ids nodes).
  { unfold ids. rewrite <- (layout_ids nodes edges fuel out outEdges Hrun).
    apply list_elem_of_In, in_map, list_elem_of_In. exact Ha. }
  destruct (rank_is_longest_walk nodes edges Hacyclic Hknown fuel ranks _ Hranks Hid)
    as [(u & vs & Hc & He & Hlen) Hmax].
  exists (length vs). rewrite (Hx a Ha), Hlen.
  split; [reflexivity|]. split; [eauto|].
  intros u' vs' Hc' He'. specialize (Hmax u' vs' Hc' He'). lia.
Qed.

Lemma column_is_longest_walk_witness :
  plainKeys scenarioB_nodes scenarioB_edges = true /\
  acyclic scenarioB_edges /\ sourcesKnown scenarioB_nodes scenarioB_edges /\
  getLayoutedElements 4 scenarioB_nodes scenarioB_edges
    = Some (scenarioB_layout, scenarioB_edges) /\
  placed "FuncC" "function" 900 200 ∈ scenarioB_layout /\
  exists k : nat,
    (900 : Q) = inject_Z (Z.of_nat k * RANK_SPACING) /\
    (exists u vs, chain scenarioB_edges u vs /\ endsAt u vs "FuncC" /\ length vs = k) /\
    (forall u vs, chain scenarioB_edges u vs -> endsAt u vs "FuncC" -> (length vs <= k)%nat).
Proof.
  assert (Hrun : getLayoutedElements 4 scenarioB_nodes scenarioB_edges
                 = Some (scenarioB_layout, scenarioB_edges)) by (vm_compute; reflexivity).
  assert (Ha : placed "FuncC" "function" 900 200 ∈ scenarioB_layout)
    by (right; right; right; left).
  split; [reflexivity|].
  split; [exact scenarioB_acyclic|]. split; [exact scenarioB_sourcesKnown|].
  split; [exact Hrun|]. split; [exact Ha|].
  exact (column_is_longest_walk scenarioB_nodes scenarioB_edges 4 scenarioB_layout
           scenarioB_edges _ eq_refl scenarioB_acyclic scenarioB_sourcesKnown Hrun Ha).
Defined.

Lemma danglingEdges_acyclic : acyclic danglingEdges.
Proof.
  apply (heightOn_acyclic _
           (fun s => if String.eqb s "X" then 2 else if String.eqb s "V" then 1 else 0)%nat).
  intros e He. unfold danglingEdges in He.
  repeat (apply elem_of_cons in He as [->|He]); [simpl; lia..|inversion He].
Qed.

Lemma layout_terminates_on_acyclic_witness :
  plainKeys danglingNodes danglingEdges = true /\
  acyclic danglingEdges /\
  exists fuel out,
    getLayoutedElements fuel danglingNodes danglingEdges = Some (out, danglingEdges) /\
    length out = length danglingNodes.
Proof.
  split; [reflexivity|]. split; [exact danglingEdges_acyclic|].
  exact (layout_terminates_on_acyclic danglingNodes danglingEdges eq_refl
           danglingEdges_acyclic).
Defined.

(** ** Where the nodes are put *)

Section Quadrant.

Implicit Types (positions : gmap string Position) (item : Weighted) (r : Z).

Lemma place_quadrant r currentY positions item :
  (0 <= r)%Z -> (0 <= currentY)%Q -> inQuadrant positions ->
  (0 <= fst (place r (currentY, positions) item))%Q /\
  inQuadrant (snd (place r (currentY, positions) item)).
Proof.
  intros Hr Hc Hq.
  destruct (place_spec r currentY positions item) as (y & Hy & _ & ->). simpl.
  assert (H0 : (0 <= y)%Q) by (eapply Qle_trans; eassumption).
  split.
  { apply round_nonneg.
    assert (H1 := round_nonneg (y + nodeHeight) ltac:(unfold nodeHeight; lra)).
    unfold Double.add, gap. lra. }
  intros a pa Ha. destruct (decide (a = w_id item)) as [->|Hne].
  - rewrite lookup_insert_eq in Ha. injection Ha as <-. simpl. split; [|exact H0].
    change 0%Q with (inject_Z 0). rewrite <- Zle_Qle. unfold RANK_SPACING. lia.
  - rewrite lookup_insert_ne in Ha by congruence. apply Hq in Ha. exact Ha.
Qed.

Lemma place_fold_quadrant r (items : list Weighted) : forall currentY positions,
  (0 <= r)%Z -> (0 <= currentY)%Q -> inQuadrant positions ->
  inQuadrant (snd (foldl (place r) (currentY, positions) items)).
Proof.
  induction items as [|item items IH]; intros currentY positions Hr Hc Hq; [exact Hq|].
  rewrite foldl_step.
  destruct (place_quadrant r currentY positions item Hr Hc Hq) as [Hc' Hq'].
  destruct (place r (currentY, positions) item) as [currentY' positions'].
  apply IH; assumption.
Qed.

Lemma columns_quadrant nodeMap inverse rankMap (n : nat) : forall (start : nat) positions,
  inQuadrant positions ->
  inQuadrant (foldl (layoutColumn nodeMap inverse rankMap) positions
                    (map Z.of_nat (seq start n))).
Proof.
  induction n as [|n IH]; intros start positions Hq; [exact Hq|].
  simpl. apply IH. unfold layoutColumn.
  apply place_fold_quadrant; [lia|apply Qle_refl|exact Hq].
Qed.

Lemma positionsOf_quadrant nodes edges ranks :
  inQuadrant (positionsOf nodes edges ranks).
Proof.
  unfold positionsOf, columnsUpTo. apply columns_quadrant.
  intros a pa Ha. rewrite lookup_empty in Ha. discriminate.
Qed.

(** X17: whenever the layout returns, no coordinate of a node is negative:
    the drawing lies right of and below the origin. *)
Theorem layout_in_quadrant fuel nodes edges out outEdges (a : BPNode)
    (Hrun : getLayoutedElements fuel nodes edges = Some (out, outEdges))
    (Ha : a ∈ out) :
  (0 <= pos_x (bp_position a))%Q /\ (0 <= pos_y (bp_position a))%Q.
Proof.
  destruct (layout_position _ _ _ _ _ a Hrun Ha) as (ranks & _ & Hp).
  exact (positionsOf_quadrant nodes edges ranks _ _ Hp).
Qed.

Lemma layout_in_quadrant_witness :
  getLayoutedElements 4 scenarioB_nodes scenarioB_edges
    = Some (scenarioB_layout, scenarioB_edges) /\
  placed "FuncC" "function" 900 200 ∈ scenarioB_layout /\
  (0 <= 900)%Q /\ (0 <= 200)%Q.
Proof.
  assert (Hrun : getLayoutedElements 4 scenarioB_nodes scenarioB_edges
                 = Some (scenarioB_layout, scenarioB_edges)) by (vm_compute; reflexivity).
  assert (Ha : placed "FuncC" "function" 900 200 ∈ scenarioB_layout)
    by (right; right; right; left).
  split; [exact Hrun|]. split; [exact Ha|].
  exact (layout_in_quadrant 4 scenarioB_nodes scenarioB_edges scenarioB_layout
           scenarioB_edges _ Hrun Ha).
Defined.

End Quadrant.

(** ** Events come first *)

Section EventsFirst.

Variable nodes : list BPNode.

Implicit Types (positions : gmap string Position) (item : Weighted) (r : Z).

Lemma compare_event_data x z :
  w_isEvent x = true -> w_isEvent z = false ->
  Qle_bool (compareWeighted x z) 0 = true.
Proof. intros Hx Hz. unfold compareWeighted. rewrite Hx, Hz. reflexivity. Qed.

Lemma compare_data_event x z :
  w_isEvent x = false -> w_isEvent z = true ->
  Qle_bool (compareWeighted x z) 0 = false.
Proof. intros Hx Hz. unfold compareWeighted. rewrite Hx, Hz. reflexivity. Qed.

Lemma insertSorted_eventsFirst x (l : list Weighted) :
  eventsFirst l -> eventsFirst (insertSorted x l).
Proof.
  induction l as [|z l IH]; intros Hl.
  - simpl. split; [|exact I]. intros _ y Hy. inversion Hy.
  - destruct Hl as [Hz Hl]. simpl.
    destruct (Qle_bool (compareWeighted x z) 0) eqn:E.
    + split; [|split; assumption].
      intros Hx y Hy.
      destruct (w_isEvent z) eqn:Ez.
      { rewrite (compare_data_event x z Hx Ez) in E. discriminate. }
      apply elem_of_cons in Hy as [->|Hy]; [exact Ez|]. apply Hz; [reflexivity|exact Hy].
    + split; [|apply IH; exact Hl].
      intros Ez y Hy. apply insertSorted_elem in Hy as [->|Hy]; [|apply Hz; assumption].
      destruct (w_isEvent x) eqn:Ex; [|reflexivity].
      rewrite (compare_event_data x z Ex Ez) in E. discriminate.
Qed.

Lemma sortWeighted_eventsFirst (l : list Weighted) : eventsFirst (sortWeighted l).
Proof.
  unfold sortWeighted. induction l as [|x l IH]; simpl; [exact I|].
  apply insertSorted_eventsFirst. exact IH.
Qed.

Lemma weigh_isEvent inverse positions id :
  w_isEvent (weigh (nodeMapOf nodes) inverse positions id) = isEventId nodes id.
Proof. unfold weigh, isEventId. destruct (parentSum _ _). reflexivity. Qed.

Lemma aboveCursor_place r currentY positions id y :
  aboveCursor r currentY positions -> (currentY <= y)%Q ->
  (0 <= y)%Q -> isDouble y ->
  aboveCursor r (Double.add (Double.add y nodeHeight) gap)
    (<[id := mkPosition (inject_Z (r * RANK_SPACING)) y]> positions).
Proof.
  intros Habove Hy Hy0 Hyd a pa Ha Hx.
  destruct (decide (a = id)) as [->|Hne].
  - rewrite lookup_insert_eq in Ha. injection Ha as <-. simpl.
    apply advance_clears. exact Hy0.
  - rewrite lookup_insert_ne in Ha by congruence.
    apply (clears_le _ currentY); [exact (Habove a pa Ha Hx)|].
    eapply Qle_trans; [exact Hy|]. apply advance_ge; assumption.
Qed.

(** The walk down a column whose items are sorted, events first. *)
Lemma place_fold_events r (items : list Weighted) : forall currentY positions,
  (forall item, item ∈ items -> w_isEvent item = isEventId nodes (w_id item)) ->
  eventsFirst items ->
  eventsAbove nodes positions ->
  aboveCursor r currentY positions ->
  ((exists item, item ∈ items /\ w_isEvent item = true) ->
   onlyEventsPlaced nodes r positions) ->
  (0 <= currentY)%Q -> isDouble currentY ->
  (forall item, item ∈ items -> isDouble (w_avgY item)) ->
  eventsAbove nodes (snd (foldl (place r) (currentY, positions) items)).
Proof.
  induction items as [|x items IH];
    intros currentY positions Hkind Hsorted Hev Habove Hphase Hc0 Hcd Hitems;
    [exact Hev|].
  rewrite foldl_step.
  destruct (place_spec r currentY positions x) as (y & Hy & Hwhich & ->).
  assert (Hy0 : (0 <= y)%Q) by (eapply Qle_trans; eassumption).
  assert (Hyd : isDouble y).
  { destruct Hwhich as [->| ->]; [exact Hcd|apply Hitems; left]. }
  destruct Hsorted as [Hx Hsorted].
  assert (Hkx : w_isEvent x = isEventId nodes (w_id x)) by (apply Hkind; left).
  apply IH.
  - intros item Hin. apply Hkind. right. exact Hin.
  - exact Hsorted.
  - intros a b pa pb Ha Hb Hcol Hea Heb.
    destruct (decide (a = w_id x)) as [->|Hna];
      destruct (decide (b = w_id x)) as [->|Hnb].
    + congruence.
    + rewrite lookup_insert_eq in Ha. injection Ha as <-.
      rewrite lookup_insert_ne in Hb by congruence. simpl in Hcol.
      assert (Hb' : isEventId nodes b = true).
      { apply (Hphase ltac:(exists x; split; [left|congruence]) b pb Hb).
        symmetry. exact Hcol. }
      congruence.
    + rewrite lookup_insert_eq in Hb. injection Hb as <-.
      rewrite lookup_insert_ne in Ha by congruence. simpl in *.
      apply (clears_le _ currentY); [|exact Hy]. apply (Habove a pa Ha). exact Hcol.
    + rewrite lookup_insert_ne in Ha, Hb by congruence.
      exact (Hev a b pa pb Ha Hb Hcol Hea Heb).
  - apply (aboveCursor_place r currentY); assumption.
  - intros (item & Hin & Hitem) b pb Hb Hcol.
    assert (Hxe : w_isEvent x = true).
    { destruct (w_isEvent x) eqn:Ex; [reflexivity|].
      rewrite (Hx eq_refl item Hin) in Hitem. discriminate. }
    destruct (decide (b = w_id x)) as [->|Hnb]; [congruence|].
    rewrite lookup_insert_ne in Hb by congruence.
    apply (Hphase ltac:(exists x; split; [left|exact Hxe]) b pb Hb Hcol).
  - eapply Qle_trans; [exact Hy0|]. apply advance_ge; assumption.
  - apply isDouble_round.
  - intros item Hin. apply Hitems. right. exact Hin.
Qed.

Variables (edges : list BPEdge) (ranks : gmap string Z).

Let column := layoutColumn (nodeMapOf nodes) (inverseAdjacencyOf nodes edges)
                           (rankMapOf ranks nodes).

Lemma layoutColumn_events positions r :
  eventsAbove nodes positions -> leftOf r positions ->
  eventsAbove nodes (column positions r).
Proof.
  intros Hev Hleft. subst column. unfold layoutColumn.
  apply place_fold_events.
  - intros item Hin. apply (proj1 (sortWeighted_elem _ _)) in Hin.
    apply list_elem_of_In, in_map_iff in Hin as (id & <- & _).
    rewrite weigh_isEvent, weigh_id. reflexivity.
  - apply sortWeighted_eventsFirst.
  - exact Hev.
  - apply (leftOf_aboveCursor r 0%Q). exact Hleft.
  - intros _ b pb Hb Hcol. apply Hleft in Hb. apply Qlt_not_eq in Hb. contradiction.
  - apply Qle_refl.
  - apply isDouble_zero.
  - intros item Hin. apply (proj1 (sortWeighted_elem _ _)) in Hin.
    apply list_elem_of_In, in_map_iff in Hin as (id & <- & _).
    apply weigh_double.
Qed.

Lemma columns_events (n : nat) : forall (start : nat) positions,
  separated positions -> leftOf (Z.of_nat start) positions ->
  eventsAbove nodes positions ->
  eventsAbove nodes (foldl column positions (map Z.of_nat (seq start n))).
Proof.
  induction n as [|n IH]; intros start positions Hsep Hleft Hev; [exact Hev|].
  simpl.
  destruct (layoutColumn_invariant nodes edges ranks positions (Z.of_nat start) Hsep Hleft)
    as [Hsep' Hleft'].
  apply (IH (S start)).
  - exact Hsep'.
  - replace (Z.of_nat (S start)) with (Z.of_nat start + 1)%Z by lia. exact Hleft'.
  - apply layoutColumn_events; assumption.
Qed.

Lemma positionsOf_events : eventsAbove nodes (positionsOf nodes edges ranks).
Proof.
  unfold positionsOf, columnsUpTo. apply columns_events.
  - intros a b pa pb _ Ha. rewrite lookup_empty in Ha. discriminate.
  - intros a pa Ha. rewrite lookup_empty in Ha. discriminate.
  - intros a b pa pb Ha. rewrite lookup_empty in Ha. discriminate.
Qed.

End EventsFirst.

Lemma nodeMapOf_from (ns : list BPNode) : forall (m : gmap string BPNode) (id : string),
  id ∉ ids ns -> foldl (fun m n => <[bp_id n := n]> m) m ns !! id = m !! id.
Proof.
  induction ns as [|n ns IH]; intros m id Hid; [reflexivity|].
  simpl. rewrite IH.
  - apply lookup_insert_ne. intros Heq. apply Hid. subst id. left.
  - intros Hin. apply Hid. right. exact Hin.
Qed.

(** With pairwise different ids the node dictionary returns each node. *)
Lemma nodeMapOf_lookup (nodes : list BPNode) (n : BPNode) :
  NoDup (ids nodes) -> n ∈ nodes -> nodeMapOf nodes !! bp_id n = Some n.
Proof.
  unfold nodeMapOf. generalize (∅ : gmap string BPNode).
  induction nodes as [|n0 ns IH]; intros m Hnd Hn; [inversion Hn|].
  unfold ids in Hnd. simpl in Hnd. apply NoDup_cons in Hnd as [Hfresh Hnd].
  simpl. apply elem_of_cons in Hn as [->|Hn].
  - rewrite nodeMapOf_from by exact Hfresh. apply lookup_insert_eq.
  - apply IH; assumption.
Qed.

Lemma applyPositions_data positions (nodes : list BPNode) (a : BPNode) :
  a ∈ applyPositions positions nodes ->
  exists n, n ∈ nodes /\ bp_id a = bp_id n /\ bp_data a = bp_data n.
Proof.
  unfold applyPositions. intros Ha.
  apply list_elem_of_In, in_map_iff in Ha as (n & <- & Hn).
  exists n. rewrite list_elem_of_In. auto.
Qed.

(** X18: events go on top.  If the nodes have pairwise different ids and
    the keys are plain, then in every column of the result every node of
    another kind lies 150 + 50 below every node of kind [event], up to the
    rounding of the two additions that advance the cursor (a relative error
    of [2^-52]); below [2^53] that is at least the node height. *)
Theorem events_on_top fuel nodes edges out outEdges (a b : BPNode)
    (Hplain : plainKeys nodes edges = true)
    (Hids : NoDup (ids nodes))
    (Hrun : getLayoutedElements fuel nodes edges = Some (out, outEdges))
    (Ha : a ∈ out) (Hb : b ∈ out)
    (Hcolumn : (pos_x (bp_position a) == pos_x (bp_position b))%Q)
    (Hevent : typeIs (data_nodeType (bp_data a)) "event" = true)
    (Hother : typeIs (data_nodeType (bp_data b)) "event" = false) :
  ((pos_y (bp_position a) + (150 + 50)) * (1 - (1 # 4503599627370496))
     <= pos_y (bp_position b))%Q /\
  ((pos_y (bp_position a) <= 9007199254740992)%Q ->
   (pos_y (bp_position a) + 150 <= pos_y (bp_position b))%Q).
Proof.
  destruct (layout_position _ _ _ _ _ a Hrun Ha) as (ranks & Hr & Hpa).
  destruct (layout_position _ _ _ _ _ b Hrun Hb) as (ranks' & Hr' & Hpb).
  rewrite Hr in Hr'. injection Hr' as <-.
  assert (Hkind : forall c, c ∈ out ->
            isEventId nodes (bp_id c) = typeIs (data_nodeType (bp_data c)) "event").
  { intros c Hc. unfold getLayoutedElements in Hrun. rewrite Hr in Hrun.
    injection Hrun as <- _.
    apply applyPositions_data in Hc as (n & Hn & Hid & Hdata).
    unfold isEventId. rewrite Hid, (nodeMapOf_lookup nodes n Hids Hn), Hdata.
    reflexivity. }
  assert (Hclears : clears (pos_y (bp_position a)) (pos_y (bp_position b))).
  { apply (positionsOf_events nodes edges ranks _ _ _ _ Hpa Hpb Hcolumn).
    - rewrite (Hkind a Ha). exact Hevent.
    - rewrite (Hkind b Hb). exact Hother. }
  split.
  - unfold clears, nodeHeight, gap, Double.epsilon in Hclears. lra.
  - intros Hya. change 150%Q with nodeHeight. apply clears_span; assumption.
Qed.

Lemma events_on_top_witness :
  plainKeys mixedNodes [] = true /\
  NoDup (ids mixedNodes) /\
  getLayoutedElements 2 mixedNodes [] = Some (mixedLayout, []) /\
  placed "E" "event" 0 0 ∈ mixedLayout /\
  placed "F" "function" 0 200 ∈ mixedLayout /\
  ((0 + (150 + 50)) * (1 - (1 # 4503599627370496)) <= 200)%Q /\
  ((0 <= 9007199254740992)%Q -> (0 + 150 <= 200)%Q).
Proof.
  assert (Hplain : plainKeys mixedNodes [] = true) by reflexivity.
  assert (Hids : NoDup (ids mixedNodes)).
  { unfold ids. simpl. apply NoDup_cons. split.
    - intros H. apply list_elem_of_singleton in H. discriminate.
    - apply NoDup_singleton. }
  assert (Hrun : getLayoutedElements 2 mixedNodes [] = Some (mixedLayout, []))
    by (vm_compute; reflexivity).
  assert (Ha : placed "E" "event" 0 0 ∈ mixedLayout) by (right; left).
  assert (Hb : placed "F" "function" 0 200 ∈ mixedLayout) by left.
  split; [exact Hplain|]. split; [exact Hids|]. split; [exact Hrun|].
  split; [exact Ha|]. split; [exact Hb|].
  exact (events_on_top 2 mixedNodes [] mixedLayout [] _ _ Hplain Hids Hrun Ha Hb
           (Qeq_refl _) eq_refl eq_refl).
Defined.

(** ** A graph without edges *)

Section Stack.

Implicit Types (positions : gmap string Position) (item : Weighted) (r : Z).

Lemma place_unweighted r currentY positions item :
  w_avgY item = MAX_SAFE_INTEGER ->
  place r (currentY, positions) item =
    (Double.add (Double.add currentY nodeHeight) gap,
     <[w_id item := mkPosition (inject_Z (r * RANK_SPACING)) currentY]> positions).
Proof.
  intros Hw. unfold place. rewrite Hw.
  replace (Qeq_bool MAX_SAFE_INTEGER MAX_SAFE_INTEGER) with true by reflexivity.
  assert (Hlt : Qltb currentY currentY = false).
  { unfold Qltb. apply negb_false_iff, Qle_bool_iff, Qle_refl. }
  rewrite Hlt. reflexivity.
Qed.

Lemma place_fold_other r (items : list Weighted) : forall currentY positions id,
  id ∉ map w_id items ->
  snd (foldl (place r) (currentY, positions) items) !! id = positions !! id.
Proof.
  induction items as [|item items IH]; intros currentY positions id Hid; [reflexivity|].
  rewrite foldl_step.
  destruct (place_spec r currentY positions item) as (y & _ & _ & ->).
  rewrite IH.
  - apply lookup_insert_ne. intros Heq. apply Hid. subst id. left.
  - intros Hin. apply Hid. right. exact Hin.
Qed.

(** On integers below [2^53] the cursor advances by exactly 200. *)
Lemma advance_exact (currentY : Q) (n : Z) :
  (currentY == inject_Z n)%Q -> (0 <= n)%Z -> (n + 200 <= 9007199254740992)%Z ->
  (Double.add (Double.add currentY nodeHeight) gap == inject_Z (n + 200))%Q.
Proof.
  intros Hc Hn Hmax. unfold Double.add, nodeHeight, gap.
  assert (H1 : (Double.round (currentY + 150) == inject_Z (n + 150))%Q).
  { rewrite (round_comp _ (inject_Z (n + 150))).
    - apply round_Z. change (2 ^ 53)%Z with 9007199254740992%Z. lia.
    - rewrite Hc, inject_Z_plus. reflexivity. }
  rewrite (round_comp _ (inject_Z (n + 200))).
  - apply round_Z. change (2 ^ 53)%Z with 9007199254740992%Z. lia.
  - rewrite H1. replace (n + 200)%Z with (n + 150 + 50)%Z by lia.
    rewrite (inject_Z_plus (n + 150) 50). reflexivity.
Qed.

(** Items without weight are stacked from the cursor, one node height plus
    one gap apart, as long as the heights stay below [2^53]. *)
Lemma place_fold_stack r (items : list Weighted) : forall currentY positions (k : nat),
  (currentY == inject_Z (200 * Z.of_nat k))%Q ->
  (200 * Z.of_nat (k + length items) <= 9007199254740992)%Z ->
  NoDup (map w_id items) ->
  (forall item, item ∈ items -> w_avgY item = MAX_SAFE_INTEGER) ->
  forall (i : nat) item, items !! i = Some item ->
    exists p, snd (foldl (place r) (currentY, positions) items) !! w_id item = Some p /\
              pos_x p = inject_Z (r * RANK_SPACING) /\
              (pos_y p == inject_Z (200 * Z.of_nat (k + i)))%Q.
Proof.
  induction items as [|x items IH]; intros currentY positions k Hc Hmax Hnd Hw i item Hi;
    [inversion Hi|].
  simpl in Hnd. apply NoDup_cons in Hnd as [Hfresh Hnd].
  rewrite foldl_step, (place_unweighted r currentY positions x) by (apply Hw; left).
  cbn [length] in Hmax.
  destruct i as [|i]; simpl in Hi.
  - injection Hi as <-. rewrite place_fold_other by exact Hfresh.
    rewrite lookup_insert_eq. eexists. split; [reflexivity|]. split; [reflexivity|].
    cbn [pos_y]. rewrite Nat.add_0_r. exact Hc.
  - destruct (IH (Double.add (Double.add currentY nodeHeight) gap)
                (<[w_id x := mkPosition (inject_Z (r * RANK_SPACING)) currentY]> positions)
                (S k)) with (i := i) (item := item) as (p & Hp & Hx & Hy).
    + assert (Hk : (200 * Z.of_nat k + 200 <= 9007199254740992)%Z) by lia.
      rewrite (advance_exact currentY (200 * Z.of_nat k) Hc ltac:(lia) Hk).
      replace (200 * Z.of_nat (S k))%Z with (200 * Z.of_nat k + 200)%Z by lia.
      reflexivity.
    + replace (S k + length items)%nat with (k + S (length items))%nat by lia. exact Hmax.
    + exact Hnd.
    + intros it Hit. apply Hw. right. exact Hit.
    + exact Hi.
    + exists p. split; [exact Hp|]. split; [exact Hx|].
      rewrite Hy. replace (S k + i)%nat with (k + S i)%nat by lia. reflexivity.
Qed.

(** Without weights the comparator only tells events from other items. *)
Lemma insertSorted_event x (l : list Weighted) :
  w_isEvent x = true -> w_avgY x = MAX_SAFE_INTEGER ->
  (forall y, y ∈ l -> w_avgY y = MAX_SAFE_INTEGER) ->
  insertSorted x l = x :: l.
Proof.
  intros Hx Hw Hl. destruct l as [|y l]; [reflexivity|]. simpl.
  unfold compareWeighted. rewrite Hx, Hw, (Hl y) by left.
  destruct (w_isEvent y); reflexivity.
Qed.

Lemma insertSorted_other x (others : list Weighted) : forall evs : list Weighted,
  w_isEvent x = false -> w_avgY x = MAX_SAFE_INTEGER ->
  (forall y, y ∈ evs -> w_isEvent y = true) ->
  (forall y, y ∈ others -> w_isEvent y = false /\ w_avgY y = MAX_SAFE_INTEGER) ->
  insertSorted x (evs ++ others) = evs ++ x :: others.
Proof.
  intros evs Hx Hw Hevs Hothers. induction evs as [|e evs IH].
  - destruct others as [|o others]; [reflexivity|]. simpl.
    destruct (Hothers o) as [Ho Hwo]; [left|].
    unfold compareWeighted. rewrite Hx, Hw, Ho, Hwo. reflexivity.
  - simpl. unfold compareWeighted at 1. rewrite Hx, (Hevs e) by left. simpl.
    rewrite IH; [reflexivity|]. intros y Hy. apply Hevs. right. exact Hy.
Qed.

(** Sorting items without weights is a stable partition into events and
    other items. *)
Lemma sortWeighted_unweighted (l : list Weighted) :
  (forall y, y ∈ l -> w_avgY y = MAX_SAFE_INTEGER) ->
  sortWeighted l =
    List.filter w_isEvent l ++ List.filter (fun y => negb (w_isEvent y)) l.
Proof.
  induction l as [|x l IH]; intros Hl; [reflexivity|].
  change (sortWeighted (x :: l)) with (insertSorted x (sortWeighted l)).
  rewrite IH by (intros y Hy; apply Hl; right; exact Hy).
  assert (Hw : w_avgY x = MAX_SAFE_INTEGER) by (apply Hl; left).
  simpl. destruct (w_isEvent x) eqn:Hx; simpl.
  - apply insertSorted_event; [exact Hx|exact Hw|].
    intros y Hy. apply elem_of_app in Hy as [Hy|Hy];
      apply list_elem_of_In, filter_In in Hy as [Hy _];
      apply Hl; right; apply list_elem_of_In; exact Hy.
  - apply insertSorted_other; [exact Hx|exact Hw| |].
    + intros y Hy. apply list_elem_of_In, filter_In in Hy as [_ Hy]. exact Hy.
    + intros y Hy. apply list_elem_of_In, filter_In in Hy as [Hy Hev]. split.
      * apply negb_true_iff. exact Hev.
      * apply Hl. right. apply list_elem_of_In. exact Hy.
Qed.

Lemma filter_map_agree {A B} (f : A -> B) (p : B -> bool) (q : A -> bool) (l : list A) :
  (forall x, x ∈ l -> p (f x) = q x) ->
  List.filter p (map f l) = map f (List.filter q l).
Proof.
  induction l as [|x l IH]; intros H; [reflexivity|].
  simpl. rewrite (H x) by left. rewrite IH by (intros y Hy; apply H; right; exact Hy).
  destruct (q x); reflexivity.
Qed.

Lemma stackOrder_permutation (nodes : list BPNode) : stackOrder nodes ≡ₚ nodes.
Proof.
  unfold stackOrder. induction nodes as [|n nodes IH]; [reflexivity|].
  simpl. destruct (isEventNode n); simpl.
  - constructor. exact IH.
  - rewrite <- Permutation_middle. constructor. exact IH.
Qed.

Variable nodes : list BPNode.
Hypothesis Hids : NoDup (ids nodes).
Hypothesis Hsize : (200 * Z.of_nat (length nodes) <= 9007199254740992)%Z.

Lemma isEventId_node (n : BPNode) : n ∈ nodes -> isEventId nodes (bp_id n) = isEventNode n.
Proof.
  intros Hn. unfold isEventId. rewrite (nodeMapOf_lookup nodes n Hids Hn). reflexivity.
Qed.

Lemma no_edges_no_parents (id : string) : listAt (inverseAdjacencyOf nodes []) id = [].
Proof.
  destruct (listAt (inverseAdjacencyOf nodes []) id) as [|u l] eqn:E; [reflexivity|].
  assert (Hu : u ∈ listAt (inverseAdjacencyOf nodes []) id) by (rewrite E; left).
  apply inverseAdjacencyOf_elem in Hu as (_ & e & He & _). inversion He.
Qed.

Lemma weigh_no_edges positions (id : string) :
  weigh (nodeMapOf nodes) (inverseAdjacencyOf nodes []) positions id =
    mkWeighted id MAX_SAFE_INTEGER (isEventId nodes id).
Proof. unfold weigh. rewrite no_edges_no_parents. reflexivity. Qed.

Variable ranks : gmap string Z.
Hypothesis Hranks : forall id, rankOf ranks id = 0%Z.

Lemma rankMapOf_single (ns : list BPNode) : forall m : gmap Z (list string),
  default [] (foldl (fun m n =>
                       let r := rankOf ranks (bp_id n) in
                       <[r := default [] (m !! r) ++ [bp_id n]]> m) m ns !! 0%Z) =
    default [] (m !! 0%Z) ++ ids ns.
Proof.
  induction ns as [|n ns IH]; intros m; simpl.
  - symmetry. apply app_nil_r.
  - rewrite IH, Hranks, lookup_insert_eq. simpl. rewrite <- app_assoc. reflexivity.
Qed.

Lemma maxRankOf_single (ns : list BPNode) :
  foldl (fun mx n => Z.max mx (rankOf ranks (bp_id n))) 0%Z ns = 0%Z.
Proof.
  induction ns as [|n ns IH] using rev_ind; [reflexivity|].
  rewrite foldl_app. simpl. rewrite IH, Hranks. reflexivity.
Qed.

(** The only column holds the events and then the other nodes. *)
Lemma positionsOf_single :
  positionsOf nodes [] ranks =
    snd (foldl (place 0) (0%Q, ∅)
           (map (fun n => mkWeighted (bp_id n) MAX_SAFE_INTEGER (isEventNode n))
                (stackOrder nodes))).
Proof.
  unfold positionsOf, maxRankOf. rewrite maxRankOf_single.
  change (columnsUpTo 0) with [0%Z]. simpl. unfold layoutColumn.
  unfold rankMapOf. rewrite rankMapOf_single, lookup_empty. simpl.
  rewrite (map_ext _ (fun id => mkWeighted id MAX_SAFE_INTEGER (isEventId nodes id)))
    by (intros id; apply weigh_no_edges).
  rewrite sortWeighted_unweighted.
  2:{ intros y Hy. apply list_elem_of_In, in_map_iff in Hy as (id & <- & _). reflexivity. }
  unfold ids. rewrite !map_map.
  rewrite (filter_map_agree _ w_isEvent isEventNode).
  2:{ intros n Hn. simpl. apply isEventId_node. exact Hn. }
  rewrite (filter_map_agree _ (fun y => negb (w_isEvent y))
             (fun n => negb (isEventNode n))).
  2:{ intros n Hn. simpl. f_equal. apply isEventId_node. exact Hn. }
  rewrite <- map_app. fold (stackOrder nodes).
  f_equal. f_equal. apply map_ext_in. intros n Hn. f_equal.
  apply isEventId_node. apply list_elem_of_In in Hn.
  rewrite (stackOrder_permutation nodes) in Hn. exact Hn.
Qed.

Lemma positionsOf_stack (i : nat) (n : BPNode) :
  stackOrder nodes !! i = Some n ->
  exists p, positionsOf nodes [] ranks !! bp_id n = Some p /\
            (pos_x p == 0)%Q /\ (pos_y p == inject_Z (200 * Z.of_nat i))%Q.
Proof.
  intros Hi. rewrite positionsOf_single.
  set (w := fun n => mkWeighted (bp_id n) MAX_SAFE_INTEGER (isEventNode n)).
  destruct (place_fold_stack 0 (map w (stackOrder nodes)) 0%Q ∅ 0%nat)
    with (i := i) (item := w n) as (p & Hp & Hx & Hy).
  - reflexivity.
  - rewrite length_map, (Permutation_length (stackOrder_permutation nodes)). exact Hsize.
  - rewrite map_map. simpl. change (NoDup (ids (stackOrder nodes))).
    unfold ids. rewrite (stackOrder_permutation nodes). exact Hids.
  - intros item Hitem. apply list_elem_of_In, in_map_iff in Hitem as (m & <- & _).
    reflexivity.
  - rewrite list_lookup_fmap, Hi. reflexivity.
  - exists p. split; [exact Hp|]. split.
    + rewrite Hx. reflexivity.
    + exact Hy.
Qed.

End Stack.

Lemma acyclic_nil : acyclic [].
Proof. intros u Hw. inversion Hw as [? ? (e & He & _)|? ? ? (e & He & _)]; inversion He. Qed.

(** X19: a graph without edges is one stack.  If the nodes have pairwise
    different ids that are plain keys, there is no edge, and 200 times the
    number of nodes stays below [2^53], the layout returns, and it puts all
    nodes into the first column: the events in the order of declaration, then
    the other nodes in the order of declaration, the i-th of them at height
    200 * i exactly. *)
Theorem unconnected_nodes_stack (nodes : list BPNode)
    (Hplain : plainKeys nodes [] = true)
    (Hids : NoDup (ids nodes))
    (Hsize : (200 * Z.of_nat (length nodes) <= 9007199254740992)%Z) :
  exists fuel out,
    getLayoutedElements fuel nodes [] = Some (out, []) /\
    forall (i : nat) n, stackOrder nodes !! i = Some n ->
      exists a, a ∈ out /\ bp_id a = bp_id n /\ bp_data a = bp_data n /\
                (pos_x (bp_position a) == 0)%Q /\
                (pos_y (bp_position a) == inject_Z (200 * Z.of_nat i))%Q.
Proof.
  destruct (assignRanks_terminates nodes [] _ (acyclic_height [] acyclic_nil))
    as (fuel & ranks & Hrun).
  exists fuel, (applyPositions (positionsOf nodes [] ranks) nodes).
  unfold getLayoutedElements. rewrite Hrun. split; [reflexivity|].
  intros i n Hi.
  assert (Hranks : forall id, rankOf ranks id = 0%Z).
  { intros id. apply (rankOf_source nodes [] fuel ranks id Hrun).
    intros e He. inversion He. }
  destruct (positionsOf_stack nodes Hids Hsize ranks Hranks i n Hi) as (p & Hp & Hx & Hy).
  assert (Hn : n ∈ nodes).
  { rewrite <- (stackOrder_permutation nodes). eapply list_elem_of_lookup_2. exact Hi. }
  exists {| bp_id := bp_id n;
            bp_type := bp_type n;
            bp_position := default (mkPosition 0%Q 0%Q) (positionsOf nodes [] ranks !! bp_id n);
            bp_data := bp_data n;
            bp_targetPosition := Some PositionLeft;
            bp_sourcePosition := Some PositionRight |}.
  split.
  - unfold applyPositions. apply list_elem_of_In, in_map_iff. exists n.
    split; [reflexivity|]. apply list_elem_of_In. exact Hn.
  - simpl. rewrite Hp. simpl. auto.
Qed.

Lemma unconnected_nodes_stack_witness :
  plainKeys mixedNodes [] = true /\
  NoDup (ids mixedNodes) /\
  (200 * Z.of_nat (length mixedNodes) <= 9007199254740992)%Z /\
  exists fuel out,
    getLayoutedElements fuel mixedNodes [] = Some (out, []) /\
    forall (i : nat) n, stackOrder mixedNodes !! i = Some n ->
      exists a, a ∈ out /\ bp_id a = bp_id n /\ bp_data a = bp_data n /\
                (pos_x (bp_position a) == 0)%Q /\
                (pos_y (bp_position a) == inject_Z (200 * Z.of_nat i))%Q.
Proof.
  assert (Hplain : plainKeys mixedNodes [] = true) by reflexivity.
  assert (Hids : NoDup (ids mixedNodes)).
  { unfold ids. simpl. apply NoDup_cons. split.
    - intros H. apply list_elem_of_singleton in H. discriminate.
    - apply NoDup_singleton. }
  assert (Hsize : (200 * Z.of_nat (length mixedNodes) <= 9007199254740992)%Z)
    by (simpl; lia).
  split; [exact Hplain|]. split; [exact Hids|]. split; [exact Hsize|].
  exact (unconnected_nodes_stack mixedNodes Hplain Hids Hsize).
Defined.

(** ** Merging generated variables and functions *)

Section Merge.

Context {A : Type} (idOf : A -> string).

Lemma fresh_elem (prev incoming : list A) (v : A) :
  v ∈ List.filter
        (fun v => negb (bool_decide (idOf v ∈ (list_to_set (map idOf prev) : gset string))))
        incoming
  <-> v ∈ incoming /\ idOf v ∉ map idOf prev.
Proof.
  rewrite list_elem_of_In, filter_In, negb_true_iff, bool_decide_eq_false,
    elem_of_list_to_set, <- list_elem_of_In. reflexivity.
Qed.

Lemma filter_none {B} (p : B -> bool) (l : list B) :
  (forall x, x ∈ l -> p x = false) -> List.filter p l = [].
Proof.
  induction l as [|x l IH]; intros H; [reflexivity|].
  simpl. rewrite (H x) by left. apply IH. intros y Hy. apply H. right. exact Hy.
Qed.

Lemma mergeNew_ids (prev incoming : list A) (k : string) :
  k ∈ map idOf (mergeNew idOf prev incoming) <->
  k ∈ map idOf prev \/ k ∈ map idOf incoming.
Proof.
  unfold mergeNew. rewrite map_app, elem_of_app. split.
  - intros [H|H]; [left; exact H|right].
    apply list_elem_of_In, in_map_iff in H as (v & <- & Hv).
    apply list_elem_of_In, fresh_elem in Hv as [Hv _].
    apply list_elem_of_In, in_map, list_elem_of_In. exact Hv.
  - intros [H|H]; [left; exact H|].
    destruct (decide (k ∈ map idOf prev)) as [Hk|Hk]; [left; exact Hk|right].
    apply list_elem_of_In, in_map_iff in H as (v & <- & Hv).
    apply list_elem_of_In, in_map, list_elem_of_In, fresh_elem.
    split; [apply list_elem_of_In; exact Hv|exact Hk].
Qed.

Lemma mergeNew_idempotent (prev incoming : list A) :
  mergeNew idOf (mergeNew idOf prev incoming) incoming = mergeNew idOf prev incoming.
Proof.
  unfold mergeNew at 1. rewrite filter_none; [apply app_nil_r|].
  intros v Hv. apply negb_false_iff, bool_decide_eq_true, elem_of_list_to_set.
  apply mergeNew_ids. right. apply list_elem_of_In, in_map, list_elem_of_In. exact Hv.
Qed.

Lemma NoDup_map_filter (p : A -> bool) (l : list A) :
  NoDup (map idOf l) -> NoDup (map idOf (List.filter p l)).
Proof.
  induction l as [|x l IH]; intros Hnd; [exact Hnd|].
  simpl in Hnd. apply NoDup_cons in Hnd as [Hfresh Hnd].
  simpl. destruct (p x); [|apply IH; exact Hnd].
  simpl. apply NoDup_cons. split; [|apply IH; exact Hnd].
  intros Hin. apply Hfresh.
  apply list_elem_of_In, in_map_iff in Hin as (y & Hy & Hin).
  apply filter_In in Hin as [Hin _].
  rewrite <- Hy. apply list_elem_of_In, in_map. exact Hin.
Qed.

(** X21: merging keeps ids unique.  If the ids of the existing entries are
    pairwise different and so are the ids of the incoming entries, then the
    ids of the merged list are pairwise different, and they are exactly the
    ids that occur in one of the two lists. *)
Theorem merge_keeps_ids_unique (prev incoming : list A)
    (Hprev : NoDup (map idOf prev)) (Hincoming : NoDup (map idOf incoming)) :
  NoDup (map idOf (mergeNew idOf prev incoming)) /\
  forall k, k ∈ map idOf (mergeNew idOf prev incoming) <->
            k ∈ map idOf prev \/ k ∈ map idOf incoming.
Proof.
  split; [|apply mergeNew_ids].
  unfold mergeNew. rewrite map_app. apply NoDup_app. split; [exact Hprev|]. split.
  - intros k Hk Hin. apply list_elem_of_In, in_map_iff in Hin as (v & <- & Hv).
    apply list_elem_of_In, fresh_elem in Hv as [_ Hv]. exact (Hv Hk).
  - apply NoDup_map_filter. exact Hincoming.
Qed.

End Merge.

(** X20: merging the same result twice adds nothing: the second merge of the
    same generated variables, or functions, returns the list unchanged. *)
Theorem merge_twice_adds_nothing :
  (forall prev incoming,
     mergeVariables (mergeVariables prev incoming) incoming = mergeVariables prev incoming) /\
  (forall prev incoming,
     mergeFunctions (mergeFunctions prev incoming) incoming = mergeFunctions prev incoming).
Proof. split; intros prev incoming; apply mergeNew_idempotent. Qed.

Lemma merge_keeps_ids_unique_witness :
  NoDup (map var_id [healthVar]) /\ NoDup (map var_id [healthVar; ammoVar]) /\
  NoDup (map var_id (mergeVariables [healthVar] [healthVar; ammoVar])) /\
  forall k, k ∈ map var_id (mergeVariables [healthVar] [healthVar; ammoVar]) <->
            k ∈ map var_id [healthVar] \/ k ∈ map var_id [healthVar; ammoVar].
Proof.
  assert (H1 : NoDup (map var_id [healthVar])) by (simpl; apply NoDup_singleton).
  assert (H2 : NoDup (map var_id [healthVar; ammoVar])).
  { simpl. apply NoDup_cons. split; [|apply NoDup_singleton].
    intros H. apply list_elem_of_singleton in H. discriminate. }
  split; [exact H1|]. split; [exact H2|].
  exact (merge_keeps_ids_unique var_id [healthVar] [healthVar; ammoVar] H1 H2).
Defined.

(** ** Editing the value of a pin *)

Section ValueEdits.

Lemma setValue_id pinId newValue (input : Pin) :
  pin_id (setValue pinId newValue input) = pin_id input.
Proof. unfold setValue. destruct (String.eqb _ _); reflexivity. Qed.

Lemma setValue_commute p1 v1 p2 v2 (input : Pin) :
  p1 <> p2 ->
  setValue p1 v1 (setValue p2 v2 input) = setValue p2 v2 (setValue p1 v1 input).
Proof.
  intros Hne. unfold setValue.
  destruct (String.eqb (pin_id input) p1) eqn:E1, (String.eqb (pin_id input) p2) eqn:E2;
    simpl; rewrite ?E1, ?E2; try reflexivity.
  apply String.eqb_eq in E1, E2. congruence.
Qed.

Lemma setValue_overwrite p v1 v2 (input : Pin) :
  setValue p v2 (setValue p v1 input) = setValue p v2 input.
Proof.
  unfold setValue. destruct (String.eqb (pin_id input) p) eqn:E; simpl; rewrite E; reflexivity.
Qed.

(** X23: edits of different pins commute.  Two value edits that differ in the
    node or in the pin give the same nodes in either order. *)
Theorem value_edits_commute id1 pin1 v1 id2 pin2 v2 (nodes : list BPNode)
    (Hdiff : id1 <> id2 \/ pin1 <> pin2) :
  handleValueChange id1 pin1 v1 (handleValueChange id2 pin2 v2 nodes) =
  handleValueChange id2 pin2 v2 (handleValueChange id1 pin1 v1 nodes).
Proof.
  unfold handleValueChange. rewrite !map_map. apply map_ext. intros node.
  destruct (String.eqb (bp_id node) id1) eqn:E1, (String.eqb (bp_id node) id2) eqn:E2;
    simpl; rewrite ?E1, ?E2; simpl; try reflexivity.
  apply String.eqb_eq in E1, E2.
  assert (Hpin : pin1 <> pin2) by (destruct Hdiff as [H|H]; [congruence|exact H]).
  do 2 f_equal. rewrite !map_map. apply map_ext. intros input.
  apply setValue_commute. exact Hpin.
Qed.

(** X24: the last value wins.  Editing the same pin of the same node twice
    gives the nodes that the second edit alone gives. *)
Theorem last_value_edit_wins id pinId v1 v2 (nodes : list BPNode) :
  handleValueChange id pinId v2 (handleValueChange id pinId v1 nodes) =
  handleValueChange id pinId v2 nodes.
Proof.
  unfold handleValueChange. rewrite map_map. apply map_ext. intros node.
  destruct (String.eqb (bp_id node) id) eqn:E; simpl; rewrite E; simpl; [|reflexivity].
  do 2 f_equal. rewrite map_map. apply map_ext. intros input. apply setValue_overwrite.
Qed.

End ValueEdits.

Lemma value_edits_commute_witness :
  ("M1" <> "M1" \/ "M1_A" <> "M1_B") /\
  handleValueChange "M1" "M1_A" "1" (handleValueChange "M1" "M1_B" "2" mathNodes) =
  handleValueChange "M1" "M1_B" "2" (handleValueChange "M1" "M1_A" "1" mathNodes).
Proof.
  assert (H : "M1" <> "M1" \/ "M1_A" <> "M1_B") by (right; discriminate).
  split; [exact H|].
  exact (value_edits_commute "M1" "M1_A" "1" "M1" "M1_B" "2" mathNodes H).
Defined.

(** ** The layout reads ids and kinds only *)

Section SameShape.

Variable f : BPNode -> BPNode.
Hypothesis Hid : forall n, bp_id (f n) = bp_id n.
Hypothesis Hkind : forall n, data_nodeType (bp_data (f n)) = data_nodeType (bp_data n).

Lemma emptyAdjacency_map (nodes : list BPNode) :
  emptyAdjacency (map f nodes) = emptyAdjacency nodes.
Proof.
  unfold emptyAdjacency. generalize (∅ : gmap string (list string)).
  induction nodes as [|n nodes IH]; intros m; [reflexivity|].
  simpl. rewrite Hid. apply IH.
Qed.

Lemma initialQueue_map inverse (nodes : list BPNode) :
  initialQueue inverse (map f nodes) = initialQueue inverse nodes.
Proof.
  assert (Hq : forall ns,
             map (fun n => (bp_id n, 0%Z)) (sourcesOf inverse (map f ns)) =
             map (fun n => (bp_id n, 0%Z)) (sourcesOf inverse ns)).
  { unfold sourcesOf. induction ns as [|n ns IH]; [reflexivity|].
    simpl. rewrite Hid. destruct (length (listAt inverse (bp_id n)) =? 0)%nat; simpl.
    - rewrite Hid, IH. reflexivity.
    - exact IH. }
  unfold initialQueue. rewrite Hq.
  destruct nodes as [|n nodes]; [reflexivity|]. simpl. rewrite Hid. reflexivity.
Qed.

Lemma assignRanks_map fuel (nodes : list BPNode) edges :
  assignRanks fuel (map f nodes) edges = assignRanks fuel nodes edges.
Proof.
  unfold assignRanks, adjacencyOf, inverseAdjacencyOf.
  rewrite emptyAdjacency_map, initialQueue_map. reflexivity.
Qed.

Lemma rankMapOf_map ranks (nodes : list BPNode) :
  rankMapOf ranks (map f nodes) = rankMapOf ranks nodes.
Proof.
  unfold rankMapOf. generalize (∅ : gmap Z (list string)).
  induction nodes as [|n nodes IH]; intros m; [reflexivity|].
  simpl. rewrite Hid. apply IH.
Qed.

Lemma maxRankOf_map ranks (nodes : list BPNode) :
  maxRankOf ranks (map f nodes) = maxRankOf ranks nodes.
Proof.
  unfold maxRankOf. generalize 0%Z.
  induction nodes as [|n nodes IH]; intros m; [reflexivity|].
  simpl. rewrite Hid. apply IH.
Qed.

Lemma nodeMapOf_map (nodes : list BPNode) :
  nodeMapOf (map f nodes) = f <$> nodeMapOf nodes.
Proof.
  unfold nodeMapOf. rewrite <- (fmap_empty f) at 1.
  generalize (∅ : gmap string BPNode).
  induction nodes as [|n nodes IH]; intros m; [reflexivity|].
  simpl. rewrite Hid, <- fmap_insert. apply IH.
Qed.

Lemma weigh_map (nodes : list BPNode) inverse positions id :
  weigh (nodeMapOf (map f nodes)) inverse positions id =
  weigh (nodeMapOf nodes) inverse positions id.
Proof.
  unfold weigh. rewrite nodeMapOf_map, lookup_fmap.
  destruct (nodeMapOf nodes !! id) as [n|]; simpl; [rewrite Hkind|]; reflexivity.
Qed.

Lemma foldl_agree {S B} (g h : S -> B -> S) (l : list B) : forall s : S,
  (forall s b, g s b = h s b) -> foldl g s l = foldl h s l.
Proof.
  induction l as [|b l IH]; intros s Hgh; [reflexivity|].
  simpl. rewrite Hgh. apply IH. exact Hgh.
Qed.

Lemma positionsOf_map (nodes : list BPNode) edges ranks :
  positionsOf (map f nodes) edges ranks = positionsOf nodes edges ranks.
Proof.
  unfold positionsOf, inverseAdjacencyOf.
  rewrite emptyAdjacency_map, rankMapOf_map, maxRankOf_map.
  apply foldl_agree. intros positions r. unfold layoutColumn.
  do 3 f_equal. apply map_ext. intros id. apply weigh_map.
Qed.

End SameShape.

(** X22: editing a value and laying out commute.  The layout of the edited
    nodes is the edited layout of the nodes: it returns for the same inputs,
    and with the same positions. *)
Theorem value_edit_commutes_with_layout fuel id pinId newValue
    (nodes : list BPNode) (edges : list BPEdge) :
  getLayoutedElements fuel (handleValueChange id pinId newValue nodes) edges =
  match getLayoutedElements fuel nodes edges with
  | Some (out, outEdges) => Some (handleValueChange id pinId newValue out, outEdges)
  | None => None
  end.
Proof.
  unfold handleValueChange.
  match goal with |- context [map ?g nodes] => set (f := g) end.
  assert (Hid : forall n, bp_id (f n) = bp_id n).
  { intros n. subst f. simpl. destruct (String.eqb (bp_id n) id); reflexivity. }
  assert (Hkind : forall n, data_nodeType (bp_data (f n)) = data_nodeType (bp_data n)).
  { intros n. subst f. simpl. destruct (String.eqb (bp_id n) id); reflexivity. }
  unfold getLayoutedElements. rewrite (assignRanks_map f Hid).
  destruct (assignRanks fuel nodes edges) as [ranks|]; [|reflexivity].
  rewrite (positionsOf_map f Hid Hkind). f_equal. f_equal.
  unfold applyPositions. rewrite !map_map. apply map_ext. intros n.
  rewrite Hid. subst f. simpl. destruct (String.eqb (bp_id n) id); reflexivity.
Qed.

(** ** Generation followed by layout *)

Lemma validEdges_known nodes (edges : list RawEdge) :
  sourcesKnown nodes (validEdges nodes edges).
Proof.
  intros e He _. apply validEdges_elem in He as (index & edge & _ & Hres).
  apply resolveEdge_inv in Hres as (s & t & Hs & _ & _ & _ & ->). simpl.
  apply findNode_Some in Hs as [Hs <-].
  apply list_elem_of_In, in_map, list_elem_of_In. exact Hs.
Qed.

Lemma transformNode_id raw : bp_id (transformNode raw) = node_id raw.
Proof.
  unfold transformNode. simpl. rewrite ensureDefaultPins_repair.
  destruct (repair_withPins (classify raw) raw) as (ins & outs & ->). reflexivity.
Qed.

(** The generator hands plain keys on: its nodes keep the raw ids, and its
    edges join its nodes. *)
Lemma generated_plainKeys (raws : list RawNode) (rawEdges : list RawEdge) :
  forallb (fun raw => plainKey (node_id raw)) raws = true ->
  plainKeys (transformedNodes raws) (validEdges (transformedNodes raws) rawEdges) = true.
Proof.
  intros Hplain.
  assert (Hnodes : forall n, n ∈ transformedNodes raws -> plainKey (bp_id n) = true).
  { intros n Hn. apply list_elem_of_In, in_map_iff in Hn as (raw & <- & Hraw).
    rewrite transformNode_id.
    exact (proj1 (forallb_forall _ _) Hplain raw Hraw). }
  unfold plainKeys. apply andb_true_iff. split; apply forallb_forall.
  - intros n Hn. apply Hnodes, list_elem_of_In. exact Hn.
  - intros e He. apply list_elem_of_In, validEdges_elem in He as (index & edge & _ & Hres).
    apply resolveEdge_inv in Hres as (s & t & Hs & Ht & _ & _ & ->). simpl.
    apply findNode_Some in Hs as [Hs <-]. apply findNode_Some in Ht as [Ht <-].
    rewrite (Hnodes s Hs), (Hnodes t Ht). reflexivity.
Qed.

(** X25: a generated graph flows from left to right.  If the ids of the raw
    nodes are plain keys, so are the keys of the generated graph; and if the
    edges that the generator returns have no cycle, the layout of its nodes
    and edges returns, and every edge leads at least one column spacing to
    the right. *)
Theorem generated_graph_flows_right (raws : list RawNode) (rawEdges : list RawEdge)
    (Hplain : forallb (fun raw => plainKey (node_id raw)) raws = true)
    (Hacyclic : acyclic (snd (generateBlueprint raws rawEdges))) :
  plainKeys (fst (generateBlueprint raws rawEdges))
            (snd (generateBlueprint raws rawEdges)) = true /\
  exists fuel out,
    getLayoutedElements fuel (fst (generateBlueprint raws rawEdges))
                             (snd (generateBlueprint raws rawEdges))
      = Some (out, snd (generateBlueprint raws rawEdges)) /\
    forall e a b, e ∈ snd (generateBlueprint raws rawEdges) ->
      a ∈ out -> b ∈ out -> bp_id a = e_source e -> bp_id b = e_target e ->
      (pos_x (bp_position a) + 450 <= pos_x (bp_position b))%Q.
Proof.
  unfold generateBlueprint in *. cbn [fst snd] in *.
  split; [apply generated_plainKeys; exact Hplain|].
  set (nodes := transformedNodes raws) in *.
  set (edges := validEdges nodes rawEdges) in *.
  assert (Hh := acyclic_height edges Hacyclic).
  assert (Hknown : sourcesKnown nodes edges) by apply validEdges_known.
  destruct (assignRanks_terminates nodes edges _ Hh) as (fuel & ranks & Hrun).
  exists fuel, (applyPositions (positionsOf nodes edges ranks) nodes).
  assert (Hlayout : getLayoutedElements fuel nodes edges
                    = Some (applyPositions (positionsOf nodes edges ranks) nodes, edges)).
  { unfold getLayoutedElements. rewrite Hrun. reflexivity. }
  split; [exact Hlayout|]. intros e a b He Ha Hb Hsrc Htgt.
  destruct (layout_column _ _ _ _ _ Hlayout) as (ranks' & Hr & Hcol).
  rewrite Hrun in Hr. injection Hr as <-.
  rewrite (Hcol a Ha), (Hcol b Hb), Hsrc, Htgt.
  assert (Hs : e_source e ∈ ids nodes).
  { subst edges. apply validEdges_elem in He as (index & edge & _ & Hres).
    apply resolveEdge_inv in Hres as (s & t & Hs & _ & _ & _ & ->). simpl.
    apply findNode_Some in Hs as [Hs <-].
    apply list_elem_of_In, in_map, list_elem_of_In. exact Hs. }
  assert (Hle := assignRanks_edges nodes edges _ Hh Hknown fuel ranks Hrun e He Hs).
  change 450%Q with (inject_Z 450). rewrite <- inject_Z_plus, <- Zle_Qle.
  unfold RANK_SPACING. lia.
Qed.

Lemma rawHello_acyclic : acyclic (snd (generateBlueprint rawHello rawHelloEdges)).
Proof.
  apply (heightOn_acyclic _ (fun s => if String.eqb s "N0" then 1 else 0)%nat).
  intros e He. vm_compute in He.
  repeat (apply elem_of_cons in He as [->|He]); [simpl; lia..|inversion He].
Qed.

Lemma generated_graph_flows_right_witness :
  forallb (fun raw => plainKey (node_id raw)) rawHello = true /\
  acyclic (snd (generateBlueprint rawHello rawHelloEdges)) /\
  plainKeys (fst (generateBlueprint rawHello rawHelloEdges))
            (snd (generateBlueprint rawHello rawHelloEdges)) = true /\
  exists fuel out,
    getLayoutedElements fuel (fst (generateBlueprint rawHello rawHelloEdges))
                             (snd (generateBlueprint rawHello rawHelloEdges))
      = Some (out, snd (generateBlueprint rawHello rawHelloEdges)) /\
    forall e a b, e ∈ snd (generateBlueprint rawHello rawHelloEdges) ->
      a ∈ out -> b ∈ out -> bp_id a = e_source e -> bp_id b = e_target e ->
      (pos_x (bp_position a) + 450 <= pos_x (bp_position b))%Q.
Proof.
  split; [reflexivity|]. split; [exact rawHello_acyclic|].
  exact (generated_graph_flows_right rawHello rawHelloEdges eq_refl rawHello_acyclic).
Defined.
